(** * A staged concurrent pipeline: generate, power, merge, sum

    Shallow embedding of [pkg/pipeline/pipeline.go].  Every goroutine of the
    source is a small state machine whose states are its blocking points
    (a channel operation, a [select], a [sync.WaitGroup] call); the program
    is a pool of such machines over a store of unbuffered channels,
    cancellation tokens and wait-group counters, and it advances by a
    labelled step relation in which a send and a receive meet in a
    rendezvous. *)

From Stdlib Require Import ZArith Lia List Bool.
From stdpp Require Import base tactics option list numbers.
Import ListNotations.

(** ** Machine integers

    Go's [int] is taken at 64 bits: arithmetic wraps around in two's
    complement. *)

Definition int_bits : Z := 64.
Definition int_min : Z := (- 2 ^ (int_bits - 1))%Z.
Definition int_max : Z := (2 ^ (int_bits - 1) - 1)%Z.

Definition wrap (z : Z) : Z :=
  ((z - int_min) mod 2 ^ int_bits + int_min)%Z.

Definition int_add (a b : Z) : Z := wrap (a + b).
Definition int_mul (a b : Z) : Z := wrap (a * b).

Definition in_int (z : Z) : Prop := (int_min <= z <= int_max)%Z.

(** ** Identifiers *)

Definition chan := nat.
Definition wgid := nat.
Definition tid := nat.

(** [context.Context]: the background context is never done; a context
    obtained from [context.WithCancel] is done once its token is set. *)
Inductive context : Type :=
| Background
| WithCancel (tok : nat).

(** ** Goroutines

    One constructor per blocking point of the source. *)

Inductive goroutine : Type :=
(* generate: the select of line 26 holding number [n], and the deferred
   close of line 24 *)
| GenSelect (ctx : context) (out : chan) (n : Z) (rest : list Z)
| GenClose (out : chan)
(* power: the range of line 41, the select of line 42, the deferred
   close of line 40 *)
| PowRange (ctx : context) (inp out : chan)
| PowSelect (ctx : context) (inp out : chan) (n : Z)
| PowClose (out : chan)
(* sum: the range of line 57, the send of line 60, the close of line 61 *)
| SumRange (inp out : chan) (total : Z)
| SumSend (out : chan) (total : Z)
| SumClose (out : chan)
(* merge, closure send: the range of line 81, the select of line 82, the
   deferred wg.Done of line 80 *)
| FwdRange (ctx : context) (ch out : chan) (wg : wgid)
| FwdSelect (ctx : context) (ch out : chan) (wg : wgid) (n : Z)
| FwdDone (wg : wgid)
(* merge, closing goroutine: wg.Wait of line 97, close of line 98 *)
| MergeWait (wg : wgid) (out : chan)
| MergeClose (out : chan)
(* main: the receive of line 133 in iteration [i], the deferred cancel of
   line 123 *)
| MainRecv (tok : nat) (out : chan) (i : Z)
| MainCancel (tok : nat)
(* environment of a stage taken alone: a producer that sends its values
   and closes, a consumer that reads until the channel is closed, an owner
   that may trigger the token *)
| Producer (c : chan) (vals : list Z)
| Drain (c : chan)
| Canceller (tok : nat)
(* the goroutine has returned *)
| Exited.

(** What a goroutine is ready to do at a blocking point.  A [select] offers
    several alternatives. *)
Inductive offer : Type :=
| OSend (c : chan) (v : Z) (k : goroutine)
| ORecv (c : chan) (k : option Z -> goroutine)
| ODone (ctx : context) (k : goroutine)
| OClose (c : chan) (k : goroutine)
| OWgDone (wg : wgid) (k : goroutine)
| OWgWait (wg : wgid) (k : goroutine)
| OCancel (tok : nat) (k : goroutine).

(** [for _, n := range numbers] of generate, entered with the numbers that
    are left. *)
Definition generate_loop (ctx : context) (out : chan) (numbers : list Z)
  : goroutine :=
  match numbers with
  | [] => GenClose out
  | n :: rest => GenSelect ctx out n rest
  end.

(** [for i := 0; i < 3; i++] of main, entered with counter [i]. *)
Definition main_loop (tok : nat) (out : chan) (i : Z) : goroutine :=
  if (i <? 3)%Z then MainRecv tok out i else MainCancel tok.

Definition offers (g : goroutine) : list offer :=
  match g with
  | GenSelect ctx out n rest =>
      [OSend out n (generate_loop ctx out rest); ODone ctx (GenClose out)]
  | GenClose out => [OClose out Exited]
  | PowRange ctx inp out =>
      [ORecv inp (fun r => match r with
                           | Some n => PowSelect ctx inp out n
                           | None => PowClose out
                           end)]
  | PowSelect ctx inp out n =>
      [OSend out (int_mul n n) (PowRange ctx inp out); ODone ctx (PowClose out)]
  | PowClose out => [OClose out Exited]
  | SumRange inp out total =>
      [ORecv inp (fun r => match r with
                           | Some n => SumRange inp out (int_add total n)
                           | None => SumSend out total
                           end)]
  | SumSend out total => [OSend out total (SumClose out)]
  | SumClose out => [OClose out Exited]
  | FwdRange ctx ch out wg =>
      [ORecv ch (fun r => match r with
                          | Some n => FwdSelect ctx ch out wg n
                          | None => FwdDone wg
                          end)]
  | FwdSelect ctx ch out wg n =>
      [OSend out n (FwdRange ctx ch out wg); ODone ctx (FwdDone wg)]
  | FwdDone wg => [OWgDone wg Exited]
  | MergeWait wg out => [OWgWait wg (MergeClose out)]
  | MergeClose out => [OClose out Exited]
  | MainRecv tok out i => [ORecv out (fun _ => main_loop tok out (i + 1))]
  | MainCancel tok => [OCancel tok Exited]
  | Producer c vals =>
      match vals with
      | v :: vs => [OSend c v (Producer c vs)]
      | [] => [OClose c Exited]
      end
  | Drain c =>
      [ORecv c (fun r => match r with
                         | Some _ => Drain c
                         | None => Exited
                         end)]
  | Canceller tok => [OCancel tok Exited]
  | Exited => []
  end.

(** ** The shared store *)

Record world : Type := World {
  pool : list goroutine;      (* the goroutines, by thread id *)
  chans : list bool;          (* per channel: has it been closed *)
  tokens : list bool;         (* per cancellation token: has it been set *)
  wgs : list Z;               (* per wait group: its counter *)
  panicked : bool             (* a run-time panic has stopped the program *)
}.

Definition set_pool (p : list goroutine) (w : world) : world :=
  World p (chans w) (tokens w) (wgs w) (panicked w).
Definition set_chans (cs : list bool) (w : world) : world :=
  World (pool w) cs (tokens w) (wgs w) (panicked w).
Definition set_tokens (ts : list bool) (w : world) : world :=
  World (pool w) (chans w) ts (wgs w) (panicked w).
Definition set_wgs (ws : list Z) (w : world) : world :=
  World (pool w) (chans w) (tokens w) ws (panicked w).
Definition set_panicked (w : world) : world :=
  World (pool w) (chans w) (tokens w) (wgs w) true.

Definition empty_world : world := World [] [] [] [] false.

(** [<-ctx.Done()] is ready. *)
Definition ctx_done (w : world) (ctx : context) : bool :=
  match ctx with
  | Background => false
  | WithCancel tok => default false (tokens w !! tok)
  end.

Definition is_closed (w : world) (c : chan) : bool :=
  default false (chans w !! c).

(** ** Building the pipeline: a state monad over the store *)

Definition M (A : Type) : Type := world -> A * world.

Definition ret {A} (a : A) : M A := fun w => (a, w).
Definition bind {A B} (m : M A) (f : A -> M B) : M B :=
  fun w => let (a, w1) := m w in f a w1.

Declare Scope go_scope.
Delimit Scope go_scope with go.
Notation "x <- m ;; k" := (bind m (fun x => k))
  (at level 100, m at next level, right associativity) : go_scope.
Notation "m ;;; k" := (bind m (fun _ => k))
  (at level 100, right associativity) : go_scope.
Local Open Scope go_scope.

(** [make(chan int)] *)
Definition make_chan : M chan :=
  fun w => (length (chans w), set_chans (chans w ++ [false]) w).

(** [go f()] with [f] about to reach its first blocking point. *)
Definition go (g : goroutine) : M unit :=
  fun w => (tt, set_pool (pool w ++ [g]) w).

(** [var wg sync.WaitGroup] *)
Definition new_wg : M wgid :=
  fun w => (length (wgs w), set_wgs (wgs w ++ [0%Z]) w).

(** [wg.Add(n)] *)
Definition wg_add (wg : wgid) (n : Z) : M unit :=
  fun w => (tt, set_wgs (alter (fun k => (k + n)%Z) wg (wgs w)) w).

(** [context.WithCancel(ctx)]: the new context, and the token its cancel
    function sets. *)
Definition with_cancel (parent : context) : M (context * nat) :=
  fun w => let tok := length (tokens w) in
           ((WithCancel tok, tok), set_tokens (tokens w ++ [false]) w).

Fixpoint for_each {A} (l : list A) (body : A -> M unit) : M unit :=
  match l with
  | [] => ret tt
  | a :: l' => body a ;;; for_each l' body
  end.

Definition generate (ctx : context) (numbers : list Z) : M chan :=
  out <- make_chan ;;
  go (generate_loop ctx out numbers) ;;;
  ret out.

Definition power (ctx : context) (inp : chan) : M chan :=
  out <- make_chan ;;
  go (PowRange ctx inp out) ;;;
  ret out.

Definition sum (inp : chan) : M chan :=
  out <- make_chan ;;
  go (SumRange inp out 0) ;;;
  ret out.

Definition merge (ctx : context) (channels : list chan) : M chan :=
  wg <- new_wg ;;
  out <- make_chan ;;
  wg_add wg (Z.of_nat (length channels)) ;;;
  for_each channels (fun ch => go (FwdRange ctx ch out wg)) ;;;
  go (MergeWait wg out) ;;;
  ret out.

(** [main], up to its first blocking point; the rest of [main] is the
    goroutine [main_loop].  The stage constructors only allocate and spawn,
    which never blocks and commutes with every step of the goroutines
    already started, so they are run here in one go. *)
Definition main : M unit :=
  cc <- with_cancel Background ;;
  let ctx := fst cc in
  let cancel := snd cc in
  inp <- generate ctx [15; 2; 9; 23; 91]%Z ;;
  ch1 <- power ctx inp ;;
  ch2 <- power ctx inp ;;
  out <- merge ctx [ch1; ch2] ;;
  go (main_loop cancel out 0).

Definition run {A} (m : M A) : world := snd (m empty_world).

(** ** Steps of the program *)

Inductive event : Type :=
| EvSend (c : chan) (v : Z) (i j : tid)   (* [i] hands [v] to [j] over [c] *)
| EvRecvClosed (c : chan) (j : tid)       (* [j] finds [c] closed *)
| EvClose (c : chan) (i : tid)
| EvDone (ctx : context) (i : tid)        (* [i] takes its [<-ctx.Done()] case *)
| EvWgDone (wg : wgid) (i : tid)
| EvWgWait (wg : wgid) (i : tid)          (* [wg.Wait()] returns in [i] *)
| EvCancel (tok : nat) (i : tid)
| EvPanic (i : tid).

Definition put (i : tid) (g : goroutine) (w : world) : world :=
  set_pool (<[i := g]> (pool w)) w.

Inductive step : world -> event -> world -> Prop :=
| step_send w i j gi gj c v k kr :
    panicked w = false ->
    pool w !! i = Some gi -> In (OSend c v k) (offers gi) ->
    pool w !! j = Some gj -> In (ORecv c kr) (offers gj) ->
    i <> j ->
    chans w !! c = Some false ->
    step w (EvSend c v i j) (put j (kr (Some v)) (put i k w))
| step_send_closed w i gi c v k :
    panicked w = false ->
    pool w !! i = Some gi -> In (OSend c v k) (offers gi) ->
    chans w !! c = Some true ->
    step w (EvPanic i) (set_panicked w)
| step_recv_closed w j gj c kr :
    panicked w = false ->
    pool w !! j = Some gj -> In (ORecv c kr) (offers gj) ->
    chans w !! c = Some true ->
    step w (EvRecvClosed c j) (put j (kr None) w)
| step_done w i gi ctx k :
    panicked w = false ->
    pool w !! i = Some gi -> In (ODone ctx k) (offers gi) ->
    ctx_done w ctx = true ->
    step w (EvDone ctx i) (put i k w)
| step_close w i gi c k :
    panicked w = false ->
    pool w !! i = Some gi -> In (OClose c k) (offers gi) ->
    chans w !! c = Some false ->
    step w (EvClose c i) (put i k (set_chans (<[c := true]> (chans w)) w))
| step_close_closed w i gi c k :
    panicked w = false ->
    pool w !! i = Some gi -> In (OClose c k) (offers gi) ->
    chans w !! c = Some true ->
    step w (EvPanic i) (set_panicked w)
| step_wg_done w i gi wg k n :
    panicked w = false ->
    pool w !! i = Some gi -> In (OWgDone wg k) (offers gi) ->
    wgs w !! wg = Some n -> (0 < n)%Z ->
    step w (EvWgDone wg i) (put i k (set_wgs (<[wg := (n - 1)%Z]> (wgs w)) w))
| step_wg_negative w i gi wg k n :
    panicked w = false ->
    pool w !! i = Some gi -> In (OWgDone wg k) (offers gi) ->
    wgs w !! wg = Some n -> (n <= 0)%Z ->
    step w (EvPanic i) (set_panicked w)
| step_wg_wait w i gi wg k :
    panicked w = false ->
    pool w !! i = Some gi -> In (OWgWait wg k) (offers gi) ->
    wgs w !! wg = Some 0%Z ->
    step w (EvWgWait wg i) (put i k w)
| step_cancel w i gi tok k :
    panicked w = false ->
    pool w !! i = Some gi -> In (OCancel tok k) (offers gi) ->
    tok < length (tokens w) ->
    step w (EvCancel tok i) (put i k (set_tokens (<[tok := true]> (tokens w)) w)).

(** Executions, with the events in the order they happened. *)
Inductive steps (w : world) : list event -> world -> Prop :=
| steps_nil : steps w [] w
| steps_snoc tr w1 ev w2 :
    steps w tr w1 -> step w1 ev w2 -> steps w (tr ++ [ev]) w2.

Definition reachable (w w' : world) : Prop := exists tr, steps w tr w'.

(** No goroutine can move. *)
Definition stuck (w : world) : Prop := forall ev w', ~ step w ev w'.

(** ** The steps, computed *)

Definition indexed {A} (l : list A) : list (nat * A) := imap pair l.

Definition receivers (w : world) (i : tid) (c : chan) (v : Z) (k : goroutine)
  : list (event * world) :=
  flat_map (fun jg : tid * goroutine =>
    if decide (i = jg.1) then [] else
    flat_map (fun o =>
      match o with
      | ORecv c' kr =>
          if decide (c' = c)
          then [(EvSend c v i jg.1, put jg.1 (kr (Some v)) (put i k w))]
          else []
      | _ => []
      end) (offers jg.2)) (indexed (pool w)).

Definition fire (w : world) (i : tid) (o : offer) : list (event * world) :=
  match o with
  | OSend c v k =>
      match chans w !! c with
      | Some false => receivers w i c v k
      | Some true => [(EvPanic i, set_panicked w)]
      | None => []
      end
  | ORecv c kr =>
      match chans w !! c with
      | Some true => [(EvRecvClosed c i, put i (kr None) w)]
      | _ => []
      end
  | ODone ctx k =>
      if ctx_done w ctx then [(EvDone ctx i, put i k w)] else []
  | OClose c k =>
      match chans w !! c with
      | Some false =>
          [(EvClose c i, put i k (set_chans (<[c := true]> (chans w)) w))]
      | Some true => [(EvPanic i, set_panicked w)]
      | None => []
      end
  | OWgDone wg k =>
      match wgs w !! wg with
      | Some n =>
          if (0 <? n)%Z
          then [(EvWgDone wg i,
                 put i k (set_wgs (<[wg := (n - 1)%Z]> (wgs w)) w))]
          else [(EvPanic i, set_panicked w)]
      | None => []
      end
  | OWgWait wg k =>
      match wgs w !! wg with
      | Some 0%Z => [(EvWgWait wg i, put i k w)]
      | _ => []
      end
  | OCancel tok k =>
      if decide (tok < length (tokens w))
      then [(EvCancel tok i,
             put i k (set_tokens (<[tok := true]> (tokens w)) w))]
      else []
  end.

Definition successors (w : world) : list (event * world) :=
  if panicked w then [] else
  flat_map (fun ig : tid * goroutine => flat_map (fire w ig.1) (offers ig.2))
           (indexed (pool w)).

(** A run under a schedule: each entry picks one of the enabled steps. *)
Fixpoint run_sched (sched : list nat) (w : world)
  : option (list event * world) :=
  match sched with
  | [] => Some ([], w)
  | n :: sched' =>
      match successors w !! n with
      | Some (ev, w1) =>
          match run_sched sched' w1 with
          | Some (tr, w2) => Some (ev :: tr, w2)
          | None => None
          end
      | None => None
      end
  end.

(** ** What a trace shows *)

(** The values handed over on channel [c], in order. *)
Fixpoint sent_on (c : chan) (tr : list event) : list Z :=
  match tr with
  | [] => []
  | EvSend c' v _ _ :: tr' =>
      if decide (c' = c) then v :: sent_on c tr' else sent_on c tr'
  | _ :: tr' => sent_on c tr'
  end.

(** The values goroutine [t] has sent, and the values it has received. *)
Fixpoint sent_by (t : tid) (tr : list event) : list Z :=
  match tr with
  | [] => []
  | EvSend _ v i _ :: tr' =>
      if decide (i = t) then v :: sent_by t tr' else sent_by t tr'
  | _ :: tr' => sent_by t tr'
  end.

Fixpoint recv_by (t : tid) (tr : list event) : list Z :=
  match tr with
  | [] => []
  | EvSend _ v _ j :: tr' =>
      if decide (j = t) then v :: recv_by t tr' else recv_by t tr'
  | _ :: tr' => recv_by t tr'
  end.

(** How many times channel [c] was closed. *)
Fixpoint closes (c : chan) (tr : list event) : nat :=
  match tr with
  | [] => 0
  | EvClose c' _ :: tr' =>
      if decide (c' = c) then S (closes c tr') else closes c tr'
  | _ :: tr' => closes c tr'
  end.

(** Whether the token was triggered during the trace. *)
Definition is_cancel (ev : event) : bool :=
  match ev with EvCancel _ _ => true | _ => false end.

(** ** A measure of the work left

    Each value still to be handed over counts more the further upstream it
    sits, so that every rendezvous of a pipeline lowers the total. *)

Definition weight (g : goroutine) : nat :=
  match g with
  | GenSelect _ _ _ rest => 8 * S (length rest) + 1
  | GenClose _ => 1
  | PowRange _ _ _ => 2
  | PowSelect _ _ _ _ => 6
  | PowClose _ => 1
  | SumRange _ _ _ => 3
  | SumSend _ _ => 2
  | SumClose _ => 1
  | FwdRange _ _ _ _ => 2
  | FwdSelect _ _ _ _ _ => 4
  | FwdDone _ => 1
  | MergeWait _ _ => 2
  | MergeClose _ => 1
  | MainRecv _ _ i => 2 + Z.to_nat (3 - i)
  | MainCancel _ => 1
  | Producer _ vals => 8 * length vals + 1
  | Drain _ => 1
  | Canceller _ => 1
  | Exited => 0
  end.

Definition energy (w : world) : nat := sum_list (weight <$> pool w).

(** ** Exhaustive exploration of a finite program *)

Global Instance context_eq_dec : EqDecision context.
Proof. solve_decision. Defined.
Global Instance goroutine_eq_dec : EqDecision goroutine.
Proof. solve_decision. Defined.
Global Instance world_eq_dec : EqDecision world.
Proof. solve_decision. Defined.
Global Instance event_eq_dec : EqDecision event.
Proof. solve_decision. Defined.

Definition seen (w : world) (V : list world) : bool :=
  existsb (fun w' => bool_decide (w = w')) V.

Fixpoint explore (fuel : nat) (frontier visited : list world) : list world :=
  match fuel with
  | O => visited
  | S fuel' =>
      match frontier with
      | [] => visited
      | w :: rest =>
          if seen w visited then explore fuel' rest visited
          else explore fuel' (map snd (successors w) ++ rest) (w :: visited)
      end
  end.

(** [V] contains every successor of its members. *)
Definition closed_under (V : list world) : bool :=
  forallb (fun w => forallb (fun ew : event * world => seen ew.2 V)
                            (successors w)) V.

(** [ok] holds of every step that leaves a member of [V]. *)
Definition edges_ok (ok : world -> event -> world -> bool) (V : list world)
  : bool :=
  forallb (fun w => forallb (fun ew : event * world => ok w ew.1 ew.2)
                            (successors w)) V.

(** * The scenario: two squaring workers, merged and summed *)

Definition sum_pipeline (numbers : list Z) : M chan :=
  cc <- with_cancel Background ;;
  let ctx := fst cc in
  inp <- generate ctx numbers ;;
  ch1 <- power ctx inp ;;
  ch2 <- power ctx inp ;;
  out <- merge ctx [ch1; ch2] ;;
  res <- sum out ;;
  go (Drain res) ;;;
  ret res.

Definition scenario : world := run (sum_pipeline [15; 2; 9; 23; 91]%Z).
Definition scenario_result : chan := fst (sum_pipeline [15; 2; 9; 23; 91]%Z empty_world).

Definition scenario_states : list world :=
  Eval vm_compute in explore (100 * 100) [scenario] [].

(** What the sink has delivered, read off its goroutine (thread 6). *)
Definition scenario_delivered (w : world) : list Z :=
  match pool w !! 6 with
  | Some (SumRange _ _ _) | Some (SumSend _ _) => []
  | _ => [9120%Z]
  end.

Definition all_exited (w : world) : bool :=
  forallb (fun g => bool_decide (g = Exited)) (pool w).

Definition untriggered (w : world) : bool :=
  forallb negb (tokens w).

(** The run of the scenario that always takes the first enabled step. *)
Definition scenario_first_run : list event * world :=
  Eval vm_compute in
    default ([], scenario) (run_sched (repeat 0 30) scenario).

(** * The program of [main] *)

Definition main_states : list world :=
  Eval vm_compute in explore (100 * 100) [run main] [].

(** The thread of [main] in [run main]. *)
Definition main_tid : tid := 6.

Definition is_sink (g : goroutine) : bool :=
  match g with
  | SumRange _ _ _ | SumSend _ _ | SumClose _ => true
  | _ => false
  end.

Definition main_first_run : list event * world :=
  Eval vm_compute in
    default ([], run main) (run_sched (repeat 0 24) (run main)).

(** ** Which blocking points watch the token *)

(** The context whose [Done] channel the goroutine selects on where it
    stands. *)
Definition done_case (g : goroutine) : option context :=
  head (omap (fun o => match o with ODone ctx _ => Some ctx | _ => None end)
             (offers g)).

(** The blocking channel operations of the source, transform and merge
    forwarding workers: their sends and their receives. *)
Definition worker_send (g : goroutine) : bool :=
  match g with
  | GenSelect _ _ _ _ | PowSelect _ _ _ _ | FwdSelect _ _ _ _ _ => true
  | _ => false
  end.

Definition worker_recv (g : goroutine) : bool :=
  match g with
  | PowRange _ _ _ | FwdRange _ _ _ _ => true
  | _ => false
  end.

(** A transform worker waiting on an inbound channel that nobody closes,
    after the token was triggered. *)
Definition blocked_receiver : world :=
  World [PowRange (WithCancel 0) 0 1] [false; false] [true] [] false.

(** * One goroutine seen alone *)

(** What a goroutine does in one step, whoever its partner is. *)
Inductive action : Type :=
| ASend (c : chan) (v : Z)
| ARecv (c : chan) (r : option Z)     (* [None]: the channel was closed *)
| ADone (ctx : context)
| AClose (c : chan)
| AWgDone (wg : wgid)
| AWgWait (wg : wgid)
| ACancel (tok : nat).

(** Where an offer leads when it is taken as action [a]. *)
Definition react (o : offer) (a : action) : option goroutine :=
  match o, a with
  | OSend c v k, ASend c' v' =>
      if decide (c = c' /\ v = v') then Some k else None
  | ORecv c kr, ARecv c' r => if decide (c = c') then Some (kr r) else None
  | ODone ctx k, ADone ctx' => if decide (ctx = ctx') then Some k else None
  | OClose c k, AClose c' => if decide (c = c') then Some k else None
  | OWgDone wg k, AWgDone wg' => if decide (wg = wg') then Some k else None
  | OWgWait wg k, AWgWait wg' => if decide (wg = wg') then Some k else None
  | OCancel tok k, ACancel tok' => if decide (tok = tok') then Some k else None
  | _, _ => None
  end.

Inductive lstep : goroutine -> action -> goroutine -> Prop :=
| lstep_offer g o a g' :
    In o (offers g) -> react o a = Some g' -> lstep g a g'.

Inductive lsteps (g : goroutine) : list action -> goroutine -> Prop :=
| lsteps_nil : lsteps g [] g
| lsteps_snoc acts g1 a g2 :
    lsteps g acts g1 -> lstep g1 a g2 -> lsteps g (acts ++ [a]) g2.

(** The part goroutine [t] takes in an event. *)
Definition view (t : tid) (ev : event) : option action :=
  match ev with
  | EvSend c v i j =>
      if decide (i = t) then Some (ASend c v)
      else if decide (j = t) then Some (ARecv c (Some v))
      else None
  | EvRecvClosed c j => if decide (j = t) then Some (ARecv c None) else None
  | EvClose c i => if decide (i = t) then Some (AClose c) else None
  | EvDone ctx i => if decide (i = t) then Some (ADone ctx) else None
  | EvWgDone wg i => if decide (i = t) then Some (AWgDone wg) else None
  | EvWgWait wg i => if decide (i = t) then Some (AWgWait wg) else None
  | EvCancel tok i => if decide (i = t) then Some (ACancel tok) else None
  | EvPanic _ => None
  end.

Definition local_trace (t : tid) (tr : list event) : list action :=
  omap (view t) tr.

(** The values a goroutine sends and receives, and the actions on one
    channel, read off its own actions. *)
Definition sends (acts : list action) : list Z :=
  omap (fun a => match a with ASend _ v => Some v | _ => None end) acts.

Definition recvs (acts : list action) : list Z :=
  omap (fun a => match a with ARecv _ (Some v) => Some v | _ => None end) acts.

Definition touches (c : chan) (a : action) : bool :=
  match a with
  | ASend c' _ | ARecv c' _ | AClose c' => bool_decide (c' = c)
  | _ => false
  end.

(** * The source stage taken alone

    [generate] with a consumer that reads until the channel is closed and,
    when [owner] is set, an owner that may trigger the token at any time. *)

Definition source_stage (owner : bool) (numbers : list Z) : M chan :=
  cc <- with_cancel Background ;;
  out <- generate (fst cc) numbers ;;
  go (Drain out) ;;;
  (if owner then go (Canceller (snd cc)) else ret tt) ;;;
  ret out.

(** Where the source goroutine stands: in its loop, at the deferred close
    after the token won the race, or returned. *)
Inductive src_phase : Type := SrcLoop | SrcCancelled | SrcExited.

(** The worlds of the source stage: [rest] are the numbers not yet sent,
    [dr] tells whether the consumer has returned, [tk] whether the token
    is set. *)
Definition source_world (owner : bool) (ph : src_phase) (rest : list Z)
    (dr tk : bool) : world :=
  World ([match ph with
          | SrcLoop => generate_loop (WithCancel 0) 0 rest
          | SrcCancelled => GenClose 0
          | SrcExited => Exited
          end;
          if dr then Exited else Drain 0] ++
         (if owner then [if tk then Exited else Canceller 0] else []))
        [match ph with SrcExited => true | _ => false end]
        [tk] [] false.

Definition source_ok (owner : bool) (ph : src_phase) (rest : list Z)
    (dr tk : bool) : Prop :=
  (dr = true -> ph = SrcExited) /\
  (ph = SrcCancelled -> tk = true) /\
  (tk = true -> owner = true) /\
  (ph = SrcExited -> tk = false -> rest = []).

Definition source_inv (owner : bool) (numbers : list Z) (tr : list event)
    (w : world) : Prop :=
  exists ph rest dr tk,
    w = source_world owner ph rest dr tk /\
    source_ok owner ph rest dr tk /\
    numbers = sent_on 0 tr ++ rest /\
    closes 0 tr = match ph with SrcExited => 1 | _ => 0 end.

(** What the source goroutine does, start to end: it sends a prefix [sent]
    of its numbers, takes the cancellation case or not, and closes. *)
Definition generate_trace (ctx : context) (out : chan) (sent : list Z)
    (cancelled closed : bool) : list action :=
  map (ASend out) sent ++
  (if cancelled then [ADone ctx] else []) ++
  (if closed then [AClose out] else []).

(** A run of the source stage in which the owner cancels after the first
    of three numbers was sent. *)
Definition source_cancelled_run : list event * world :=
  Eval vm_compute in
    default ([], empty_world)
            (run_sched [0; 1; 1; 0; 0]
                       (run (source_stage true [15; 2; 9]%Z))).

(** * The sink stage taken alone

    [sum] fed by a producer that delivers [vals] and closes, and read by a
    consumer of the result channel. *)

(** An upstream that delivers [vals] on a fresh channel and closes it. *)
Definition feed (vals : list Z) : M chan :=
  c <- make_chan ;;
  go (Producer c vals) ;;;
  ret c.

Definition sink_stage (vals : list Z) : M chan :=
  inp <- feed vals ;;
  res <- sum inp ;;
  go (Drain res) ;;;
  ret res.

(** [total += n] over the values received, from [var total int]. *)
Definition int_sum (xs : list Z) : Z := fold_left int_add xs 0%Z.

(** Where the sink goroutine stands. *)
Inductive sink_phase : Type := SkRange | SkSend | SkClose | SkExited.

Definition sink_goroutine (inp out : chan) (total : Z) (ph : sink_phase)
  : goroutine :=
  match ph with
  | SkRange => SumRange inp out total
  | SkSend => SumSend out total
  | SkClose => SumClose out
  | SkExited => Exited
  end.

(** The worlds of the sink stage: [fed] tells whether the producer has
    closed the inbound channel, [rest] are the values it still holds,
    [dr] whether the consumer has returned. *)
Definition sink_world (ph : sink_phase) (fed : bool) (rest : list Z)
    (total : Z) (dr : bool) : world :=
  World [if fed then Exited else Producer 0 rest;
         sink_goroutine 0 1 total ph;
         if dr then Exited else Drain 1]
        [fed; match ph with SkExited => true | _ => false end]
        [] [] false.

Definition sink_ok (ph : sink_phase) (fed : bool) (rest : list Z)
    (dr : bool) : Prop :=
  (fed = true -> rest = []) /\
  (ph <> SkRange -> fed = true) /\
  (dr = true -> ph = SkExited).

Definition sink_inv (vals : list Z) (tr : list event) (w : world) : Prop :=
  exists ph fed rest dr,
    w = sink_world ph fed rest (int_sum (sent_on 0 tr)) dr /\
    sink_ok ph fed rest dr /\
    vals = sent_on 0 tr ++ rest /\
    sent_on 1 tr = match ph with
                   | SkRange | SkSend => []
                   | _ => [int_sum vals]
                   end /\
    closes 1 tr = match ph with SkExited => 1 | _ => 0 end.

(** What the sink goroutine does, start to end: it receives values [xs],
    finds the inbound channel closed, sends their sum, closes the result
    channel; [k] counts how many of the last three it has done. *)
Definition sum_trace (inp out : chan) (xs : list Z) (k : nat) : list action :=
  map (fun x => ARecv inp (Some x)) xs ++
  take k [ARecv inp None; ASend out (int_sum xs); AClose out].

Definition sink_phase_of (k : nat) : sink_phase :=
  match k with
  | 0 => SkRange
  | 1 => SkSend
  | 2 => SkClose
  | _ => SkExited
  end.

(** The run of the sink stage over 3, 4, 5 that always takes the first
    enabled step, and the run over no value at all. *)
Definition sink_first_run : list event * world :=
  Eval vm_compute in
    default ([], empty_world)
            (run_sched (repeat 0 8) (run (sink_stage [3; 4; 5]%Z))).

Definition sink_empty_run : list event * world :=
  Eval vm_compute in
    default ([], empty_world)
            (run_sched (repeat 0 5) (run (sink_stage []))).

(** The sum of the values as integers, without wrap-around. *)
Definition Z_sum (xs : list Z) : Z := foldr Z.add 0%Z xs.

(** * The transform stage taken alone

    [power] fed by a producer and read by a consumer, with an owner who
    may trigger the token when [owner] is set. *)

Definition transform_stage (owner : bool) (vals : list Z) : M chan :=
  cc <- with_cancel Background ;;
  inp <- feed vals ;;
  out <- power (fst cc) inp ;;
  go (Drain out) ;;;
  (if owner then go (Canceller (snd cc)) else ret tt) ;;;
  ret out.

(** [n * n] of line 43. *)
Definition square (n : Z) : Z := int_mul n n.

(** Where the worker stands: at its range, at its select holding [n], at
    its deferred close or returned, in both cases after dropping the
    value it held, if any. *)
Inductive pow_phase : Type :=
| PwRange
| PwSelect (n : Z)
| PwClose (dropped : option Z)
| PwExited (dropped : option Z).

(** The values received and not sent on. *)
Definition pow_held (ph : pow_phase) : list Z :=
  match ph with
  | PwRange => []
  | PwSelect n => [n]
  | PwClose d | PwExited d => option_list d
  end.

Definition pow_goroutine (ctx : context) (inp out : chan) (ph : pow_phase)
  : goroutine :=
  match ph with
  | PwRange => PowRange ctx inp out
  | PwSelect n => PowSelect ctx inp out n
  | PwClose _ => PowClose out
  | PwExited _ => Exited
  end.

Definition transform_world (owner : bool) (ph : pow_phase) (fed : bool)
    (rest : list Z) (dr tk : bool) : world :=
  World ([if fed then Exited else Producer 0 rest;
          pow_goroutine (WithCancel 0) 0 1 ph;
          if dr then Exited else Drain 1] ++
         (if owner then [if tk then Exited else Canceller 0] else []))
        [fed; match ph with PwExited _ => true | _ => false end]
        [tk] [] false.

Definition pow_exited (ph : pow_phase) : bool :=
  match ph with PwExited _ => true | _ => false end.

(** A worker past its loop has found the inbound channel closed, or has
    dropped a value because the token was set. *)
Definition pow_left_ok (ph : pow_phase) (fed tk : bool) : Prop :=
  match ph with
  | PwClose (Some _) | PwExited (Some _) => tk = true
  | PwClose None | PwExited None => fed = true
  | _ => True
  end.

Definition transform_ok (owner : bool) (ph : pow_phase) (fed : bool)
    (rest : list Z) (dr tk : bool) : Prop :=
  (fed = true -> rest = []) /\
  (dr = true -> pow_exited ph = true) /\
  (tk = true -> owner = true) /\
  pow_left_ok ph fed tk.

Definition transform_inv (owner : bool) (vals : list Z) (tr : list event)
    (w : world) : Prop :=
  exists ph fed rest dr tk,
    w = transform_world owner ph fed rest dr tk /\
    transform_ok owner ph fed rest dr tk /\
    vals = sent_on 0 tr ++ rest /\
    map square (sent_on 0 tr) = sent_on 1 tr ++ map square (pow_held ph) /\
    closes 1 tr = (if pow_exited ph then 1 else 0).

(** How the worker's own actions end: still at its range, holding a value,
    after its inbound channel was found closed, or after the token made
    it drop the value it held; in the last two cases [closed] tells
    whether it has closed its outbound channel and returned. *)
Inductive pow_end : Type :=
| PEloop
| PEheld (x : Z)
| PEdrained (closed : bool)
| PEdropped (x : Z) (closed : bool).

Definition pow_body (inp out : chan) (xs : list Z) : list action :=
  flat_map (fun x => [ARecv inp (Some x); ASend out (square x)]) xs.

Definition pow_tail (ctx : context) (inp out : chan) (e : pow_end)
  : list action :=
  match e with
  | PEloop => []
  | PEheld x => [ARecv inp (Some x)]
  | PEdrained closed =>
      ARecv inp None :: (if closed then [AClose out] else [])
  | PEdropped x closed =>
      ARecv inp (Some x) :: ADone ctx :: (if closed then [AClose out] else [])
  end.

Definition pow_trace (ctx : context) (inp out : chan) (xs : list Z)
    (e : pow_end) : list action :=
  pow_body inp out xs ++ pow_tail ctx inp out e.

Definition pow_state (ctx : context) (inp out : chan) (e : pow_end)
  : goroutine :=
  match e with
  | PEloop => PowRange ctx inp out
  | PEheld x => PowSelect ctx inp out x
  | PEdrained false | PEdropped _ false => PowClose out
  | PEdrained true | PEdropped _ true => Exited
  end.

Definition pow_pending (e : pow_end) : list Z :=
  match e with
  | PEheld x | PEdropped x _ => [x]
  | _ => []
  end.

(** Two runs of the transform stage over the single value 2: one in which
    the worker squares it and sends 4 on, one in which the owner cancels
    while the worker holds the value. *)
Definition transform_squaring_run : list event * world :=
  Eval vm_compute in
    default ([], empty_world)
            (run_sched [0; 1] (run (transform_stage true [2%Z]))).

Definition transform_cancelled_run : list event * world :=
  Eval vm_compute in
    default ([], empty_world)
            (run_sched [0; 2; 2; 1] (run (transform_stage true [2%Z]))).

(** The run of the transform stage over 2, 3, without an owner, that
    always takes the first enabled step. *)
Definition transform_first_run : list event * world :=
  Eval vm_compute in
    default ([], empty_world)
            (run_sched (repeat 0 8) (run (transform_stage false [2; 3]%Z))).

(** The context a worker of the source, transform or merge stage was
    given. *)
Definition worker_ctx (g : goroutine) : option context :=
  match g with
  | GenSelect ctx _ _ _ | PowRange ctx _ _ | PowSelect ctx _ _ _
  | FwdRange ctx _ _ _ | FwdSelect ctx _ _ _ _ => Some ctx
  | _ => None
  end.

(** Goroutine [t] takes part in the event. *)
Definition moves (t : tid) (ev : event) : bool :=
  match view t ev with Some _ => true | None => false end.

(** How many values [main] has printed, read off its goroutine. *)
Definition main_printed (w : world) : nat :=
  match pool w !! main_tid with
  | Some (MainRecv _ _ i) => Z.to_nat i
  | _ => 3
  end.

(** The channel [main] reads. *)
Definition main_out : chan := 3.

(** At some point of its life, goroutine [g] selects on [ctx.Done()]. *)
Definition watches (g : goroutine) (ctx : context) : Prop :=
  exists acts g' k, lsteps g acts g' /\ In (ODone ctx k) (offers g').

(** A transform worker holding a value at its select, after the token was
    triggered and with no reader. *)
Definition blocked_sender : world :=
  World [PowSelect (WithCancel 0) 0 1 2] [false; false] [true] [] false.

(** * The merge stage taken alone

    [merge] over [N] inbound channels, each fed by a producer that
    delivers its values and closes, read by a consumer of the merged
    channel, with an owner who may trigger the token when [owner] is
    set. *)

Fixpoint feed_all (valss : list (list Z)) : M (list chan) :=
  match valss with
  | [] => ret []
  | vals :: valss' =>
      c <- feed vals ;;
      cs <- feed_all valss' ;;
      ret (c :: cs)
  end.

Definition merge_stage (owner : bool) (valss : list (list Z)) : M chan :=
  cc <- with_cancel Background ;;
  inputs <- feed_all valss ;;
  out <- merge (fst cc) inputs ;;
  go (Drain out) ;;;
  (if owner then go (Canceller (snd cc)) else ret tt) ;;;
  ret out.

(** A quantity summed over the pool. *)
Definition total (f : goroutine -> nat) (p : list goroutine) : nat :=
  sum_list (f <$> p).

(** A forwarding worker that has not yet called [wg.Done()]. *)
Definition is_live (g : goroutine) : nat :=
  match g with
  | FwdRange _ _ _ _ | FwdSelect _ _ _ _ _ | FwdDone _ => 1
  | _ => 0
  end.

Definition live (p : list goroutine) : nat := total is_live p.

(** What each thread of the merge stage can be, by its place in the pool:
    producer [i] at [i], forwarding worker [i] at [N + i], the closing
    goroutine at [2 N], the consumer at [2 N + 1], the owner after it.
    [cs] are the closed flags, [lv] the number of live forwarding workers,
    [tk] the state of the token. *)
Inductive thread_ok (N : nat) (cs : list bool) (lv : nat) (tk : bool)
  : tid -> goroutine -> Prop :=
| ok_prod_send i v rest :
    i < N -> cs !! i = Some false ->
    thread_ok N cs lv tk i (Producer i (v :: rest))
| ok_prod_close i :
    i < N -> cs !! i = Some false ->
    thread_ok N cs lv tk i (Producer i [])
| ok_prod_exit i :
    i < N -> cs !! i = Some true ->
    thread_ok N cs lv tk i Exited
| ok_fwd_range i :
    i < N ->
    thread_ok N cs lv tk (N + i) (FwdRange (WithCancel 0) i N 0)
| ok_fwd_select i n :
    i < N ->
    thread_ok N cs lv tk (N + i) (FwdSelect (WithCancel 0) i N 0 n)
| ok_fwd_done i :
    i < N -> cs !! i = Some true \/ tk = true ->
    thread_ok N cs lv tk (N + i) (FwdDone 0)
| ok_fwd_exit i :
    i < N -> cs !! i = Some true \/ tk = true ->
    thread_ok N cs lv tk (N + i) Exited
| ok_wait :
    cs !! N = Some false ->
    thread_ok N cs lv tk (2 * N) (MergeWait 0 N)
| ok_close :
    cs !! N = Some false -> lv = 0 ->
    thread_ok N cs lv tk (2 * N) (MergeClose N)
| ok_closed :
    cs !! N = Some true -> lv = 0 ->
    thread_ok N cs lv tk (2 * N) Exited
| ok_drain :
    thread_ok N cs lv tk (2 * N + 1) (Drain N)
| ok_drained :
    cs !! N = Some true ->
    thread_ok N cs lv tk (2 * N + 1) Exited
| ok_owner :
    tk = false ->
    thread_ok N cs lv tk (2 * N + 2) (Canceller 0)
| ok_owner_exit :
    tk = true ->
    thread_ok N cs lv tk (2 * N + 2) Exited.

(** The invariant of the merge stage on the state alone: no panic, one
    token in state [tk], one wait group whose counter is the number of
    live forwarding workers, and every thread in its role. *)
Record roles (owner : bool) (N : nat) (tk : bool) (w : world) : Prop := Roles {
  roles_panicked : panicked w = false;
  roles_tokens : tokens w = [tk];
  roles_owner : owner = false -> tk = false;
  roles_wgs : wgs w = [Z.of_nat (live (pool w))];
  roles_chans : length (chans w) = S N;
  roles_pool : length (pool w) = 2 * N + 2 + (if owner then 1 else 0);
  roles_threads : forall t g,
      pool w !! t = Some g -> thread_ok N (chans w) (live (pool w)) tk t g
}.

(** The steps the merge stage can take, one per line of the source that
    blocks: a producer hands a value to its forwarding worker (line 81),
    the worker hands it to the consumer (line 83), a producer closes its
    channel, the worker finds it closed (line 81), the worker takes the
    cancellation case (line 84), it calls [wg.Done()] (line 80),
    [wg.Wait()] returns (line 97), the closing goroutine closes the
    merged channel (line 98), the consumer finds it closed, the owner
    triggers the token. *)
Inductive merge_step (N : nat) (w : world) : event -> world -> Prop :=
| ms_feed i v rest :
    i < N ->
    pool w !! i = Some (Producer i (v :: rest)) ->
    pool w !! (N + i) = Some (FwdRange (WithCancel 0) i N 0) ->
    chans w !! i = Some false ->
    merge_step N w (EvSend i v i (N + i))
      (put (N + i) (FwdSelect (WithCancel 0) i N 0 v)
           (put i (Producer i rest) w))
| ms_forward i n :
    i < N ->
    pool w !! (N + i) = Some (FwdSelect (WithCancel 0) i N 0 n) ->
    pool w !! (2 * N + 1) = Some (Drain N) ->
    chans w !! N = Some false ->
    merge_step N w (EvSend N n (N + i) (2 * N + 1))
      (put (2 * N + 1) (Drain N)
           (put (N + i) (FwdRange (WithCancel 0) i N 0) w))
| ms_input_close i :
    i < N ->
    pool w !! i = Some (Producer i []) ->
    chans w !! i = Some false ->
    merge_step N w (EvClose i i)
      (put i Exited (set_chans (<[i := true]> (chans w)) w))
| ms_input_closed i :
    i < N ->
    pool w !! (N + i) = Some (FwdRange (WithCancel 0) i N 0) ->
    chans w !! i = Some true ->
    merge_step N w (EvRecvClosed i (N + i)) (put (N + i) (FwdDone 0) w)
| ms_cancelled i n :
    i < N ->
    pool w !! (N + i) = Some (FwdSelect (WithCancel 0) i N 0 n) ->
    tokens w = [true] ->
    merge_step N w (EvDone (WithCancel 0) (N + i)) (put (N + i) (FwdDone 0) w)
| ms_done i n :
    i < N ->
    pool w !! (N + i) = Some (FwdDone 0) ->
    wgs w = [n] -> (0 < n)%Z ->
    merge_step N w (EvWgDone 0 (N + i))
      (put (N + i) Exited (set_wgs [(n - 1)%Z] w))
| ms_wait :
    pool w !! (2 * N) = Some (MergeWait 0 N) ->
    wgs w = [0%Z] ->
    merge_step N w (EvWgWait 0 (2 * N)) (put (2 * N) (MergeClose N) w)
| ms_close :
    pool w !! (2 * N) = Some (MergeClose N) ->
    chans w !! N = Some false ->
    merge_step N w (EvClose N (2 * N))
      (put (2 * N) Exited (set_chans (<[N := true]> (chans w)) w))
| ms_drained :
    pool w !! (2 * N + 1) = Some (Drain N) ->
    chans w !! N = Some true ->
    merge_step N w (EvRecvClosed N (2 * N + 1)) (put (2 * N + 1) Exited w)
| ms_cancel :
    pool w !! (2 * N + 2) = Some (Canceller 0) ->
    tokens w = [false] ->
    merge_step N w (EvCancel 0 (2 * N + 2))
      (put (2 * N + 2) Exited (set_tokens [true] w)).

(** The thread that relies on channel [c] being open: its producer, or
    for the merged channel the closing goroutine. *)
Definition opener (N : nat) (c : chan) : tid :=
  if decide (c = N) then 2 * N else c.

(** The worlds the merge stage starts in. *)
Definition merge_start (owner : bool) (valss : list (list Z)) : world :=
  let N := length valss in
  World (imap (fun i vals => Producer i vals) valss ++
         map (fun c => FwdRange (WithCancel 0) c N 0) (seq 0 N) ++
         [MergeWait 0 N; Drain N] ++
         (if owner then [Canceller 0] else []))
        (replicate N false ++ [false]) [false] [Z.of_nat N] false.

(** The events of the merge stage: a value goes from producer [c] to
    forwarding worker [c] over channel [c], or from a forwarding worker
    to the consumer over the merged channel [N]; a producer closes its
    own channel and only the closing goroutine closes the merged one;
    only the closing goroutine waits, only forwarding workers call
    [wg.Done()]; nothing panics. *)
Definition event_ok (N : nat) (ev : event) : Prop :=
  match ev with
  | EvSend c v a b =>
      c < N /\ a = c /\ b = N + c \/
      c = N /\ N <= a < 2 * N /\ b = 2 * N + 1
  | EvClose c i => c <= N /\ i = opener N c
  | EvWgWait _ i => i = 2 * N
  | EvWgDone _ i => N <= i < 2 * N
  | EvPanic _ => False
  | _ => True
  end.

(** The values a producer still holds. *)
Definition pending (g : option goroutine) : list Z :=
  match g with
  | Some (Producer _ rest) => rest
  | _ => []
  end.

(** The values [h] a forwarding worker has received and not sent on: none
    at its range, the one it holds at its select; past its loop, none
    unless the token was set. *)
Definition hold_ok (g : option goroutine) (tk : bool) (h : list Z) : Prop :=
  match g with
  | Some (FwdRange _ _ _ _) => h = []
  | Some (FwdSelect _ _ _ _ n) => h = [n]
  | _ => tk = true \/ h = []
  end.

(** Input [i]: what its forwarding worker has sent on, what that worker
    holds, and what the producer still holds make up the input, in order. *)
Definition flow (N : nat) (tk : bool) (tr : list event) (w : world)
    (i : nat) (vals : list Z) : Prop :=
  exists h,
    vals = sent_by (N + i) tr ++ h ++ pending (pool w !! i) /\
    hold_ok (pool w !! (N + i)) tk h.

Definition merge_inv (owner : bool) (valss : list (list Z))
    (tr : list event) (w : world) : Prop :=
  exists tk,
    roles owner (length valss) tk w /\
    (forall i vals, valss !! i = Some vals ->
                    flow (length valss) tk tr w i vals) /\
    Forall (event_ok (length valss)) tr.

(** How a forwarding worker's own actions end: still at its range,
    holding a value, after its channel was found closed, or after the
    token made it drop the value it held; in the last two cases [signalled]
    tells whether it has called [wg.Done()] and returned. *)
Inductive fwd_end : Type :=
| FEloop
| FEheld (x : Z)
| FEdrained (signalled : bool)
| FEdropped (x : Z) (signalled : bool).

Definition fwd_body (ch out : chan) (xs : list Z) : list action :=
  flat_map (fun x => [ARecv ch (Some x); ASend out x]) xs.

Definition fwd_tail (ctx : context) (ch : chan) (wg : wgid) (e : fwd_end)
  : list action :=
  match e with
  | FEloop => []
  | FEheld x => [ARecv ch (Some x)]
  | FEdrained signalled =>
      ARecv ch None :: (if signalled then [AWgDone wg] else [])
  | FEdropped x signalled =>
      ARecv ch (Some x) :: ADone ctx ::
      (if signalled then [AWgDone wg] else [])
  end.

Definition fwd_trace (ctx : context) (ch out : chan) (wg : wgid)
    (xs : list Z) (e : fwd_end) : list action :=
  fwd_body ch out xs ++ fwd_tail ctx ch wg e.

Definition fwd_state (ctx : context) (ch out : chan) (wg : wgid)
    (e : fwd_end) : goroutine :=
  match e with
  | FEloop => FwdRange ctx ch out wg
  | FEheld x => FwdSelect ctx ch out wg x
  | FEdrained false | FEdropped _ false => FwdDone wg
  | FEdrained true | FEdropped _ true => Exited
  end.

Definition fwd_pending (e : fwd_end) : list Z :=
  match e with
  | FEheld x | FEdropped x _ => [x]
  | _ => []
  end.

(** Where the closing goroutine of [merge] stands after [k] of its two
    actions. *)
Definition closer_state (wg : wgid) (out : chan) (k : nat) : goroutine :=
  match k with
  | 0 => MergeWait wg out
  | 1 => MergeClose out
  | _ => Exited
  end.

(** Runs of the merge stage that always take the first enabled step: over
    the inputs 1, 2 and 3, without an owner, and over no input at all. *)
Definition merge_first_run : list event * world :=
  Eval vm_compute in
    default ([], empty_world)
            (run_sched (repeat 0 15)
                       (run (merge_stage false [[1; 2]; [3]]%Z))).

Definition merge_empty_run (owner : bool) : list event * world :=
  default ([], empty_world)
          (run_sched [0; 0] (run (merge_stage owner []))).

(** * What [main] prints *)

(** The values a goroutine holds or has still to emit, as [main] would
    print them once they have come through: a number not yet squared
    counts as its square. *)
Definition to_print (g : goroutine) : list Z :=
  match g with
  | GenSelect _ _ n rest => map square (n :: rest)
  | PowSelect _ _ _ n => [square n]
  | FwdSelect _ _ _ _ n => [n]
  | _ => []
  end.

Definition in_flight (w : world) : list Z := flat_map to_print (pool w).

(** A step creates no value in flight, and a value received by [main] was
    in flight and is no longer. *)
Definition prints_ok (w : world) (ev : event) (w' : world) : bool :=
  forallb (fun v => bool_decide (v ∈ in_flight w)) (in_flight w') &&
  match ev with
  | EvSend c v _ _ =>
      if decide (c = main_out)
      then bool_decide (v ∈ in_flight w) && bool_decide (v ∉ in_flight w')
      else true
  | _ => true
  end.

(** * The three stages in a row *)

(** [generate], one [power] worker and [sum] chained as the package means
    them to be, under one cancellable context, with a consumer of the
    result and, when [owner] is set, an owner who may trigger the token
    at any time. *)
Definition chain (owner : bool) (numbers : list Z) : M chan :=
  cc <- with_cancel Background ;;
  inp <- generate (fst cc) numbers ;;
  sq <- power (fst cc) inp ;;
  res <- sum sq ;;
  go (Drain res) ;;;
  (if owner then go (Canceller (snd cc)) else ret tt) ;;;
  ret res.

Definition src_exited (ph : src_phase) : bool :=
  match ph with SrcExited => true | _ => false end.

Definition sink_exited (ph : sink_phase) : bool :=
  match ph with SkExited => true | _ => false end.

(** The worlds of the chain: the phases of the three stages, the numbers
    not yet emitted, the accumulator of the sink, whether the consumer has
    returned and whether the token is set. *)
Definition chain_world (owner : bool) (sph : src_phase) (rest : list Z)
    (pph : pow_phase) (kph : sink_phase) (total : Z) (dr tk : bool)
  : world :=
  World ([match sph with
          | SrcLoop => generate_loop (WithCancel 0) 0 rest
          | SrcCancelled => GenClose 0
          | SrcExited => Exited
          end;
          pow_goroutine (WithCancel 0) 0 1 pph;
          sink_goroutine 1 2 total kph;
          if dr then Exited else Drain 2] ++
         (if owner then [if tk then Exited else Canceller 0] else []))
        [src_exited sph; pow_exited pph; sink_exited kph]
        [tk] [] false.

Definition chain_ok (owner : bool) (sph : src_phase) (rest : list Z)
    (pph : pow_phase) (kph : sink_phase) (dr tk : bool) : Prop :=
  (dr = true -> kph = SkExited) /\
  (sph = SrcCancelled -> tk = true) /\
  (tk = true -> owner = true) /\
  (sph = SrcExited -> tk = false -> rest = []) /\
  pow_left_ok pph (src_exited sph) tk /\
  (kph <> SkRange -> pow_exited pph = true).

Definition chain_inv (owner : bool) (numbers : list Z) (tr : list event)
    (w : world) : Prop :=
  exists sph rest pph kph dr tk,
    w = chain_world owner sph rest pph kph (int_sum (sent_on 1 tr)) dr tk /\
    chain_ok owner sph rest pph kph dr tk /\
    numbers = sent_on 0 tr ++ rest /\
    map square (sent_on 0 tr) = sent_on 1 tr ++ map square (pow_held pph) /\
    sent_on 2 tr = match kph with
                   | SkRange | SkSend => []
                   | _ => [int_sum (sent_on 1 tr)]
                   end /\
    closes 2 tr = (if sink_exited kph then 1 else 0).

(** The run of the chain over 1, 2, 3 that always takes the first enabled
    step. *)
Definition chain_first_run : list event * world :=
  Eval vm_compute in
    default ([], empty_world)
            (run_sched (repeat 0 13) (run (chain false [1; 2; 3]%Z))).

(** * Values through any wiring of the stages *)

(** What a channel carries: numbers still to be squared, results on their
    way to a merge, results on their way to the consumer, or something
    else (the total of a sink). *)
Inductive kind : Type := Raw | Mid | Fin | Other.

Global Instance kind_eq_dec : EqDecision kind.
Proof. solve_decision. Defined.

Definition squared_kind (x : kind) : bool :=
  match x with Mid | Fin => true | _ => false end.

Definition consumed_kind (x : kind) : bool :=
  match x with Fin | Other => true | _ => false end.

(** A goroutine fits the kinds [k] of the channels when a squaring worker
    reads numbers and writes results, a forwarding worker of a merge
    passes results on, and a consumer or a sink reads what is meant for
    it; a source may write to any channel. *)
Definition wired (k : chan -> kind) (g : goroutine) : bool :=
  match g with
  | PowRange _ inp out | PowSelect _ inp out _ =>
      bool_decide (k inp = Raw) && squared_kind (k out)
  | FwdRange _ ch out _ | FwdSelect _ ch out _ _ =>
      bool_decide (k ch = Mid) && squared_kind (k out)
  | SumRange inp out _ =>
      consumed_kind (k inp) && bool_decide (k out = Other)
  | SumSend out _ => bool_decide (k out = Other)
  | MainRecv _ c _ | Drain c => consumed_kind (k c)
  | _ => true
  end.

(** What a value [v] sent on channel [c] amounts to for the consumer. *)
Definition carried (k : chan -> kind) (c : chan) (v : Z) : list Z :=
  match k c with
  | Raw => [square v]
  | Mid | Fin => [v]
  | Other => []
  end.

(** The results a goroutine holds or has still to emit. *)
Definition load (k : chan -> kind) (g : goroutine) : list Z :=
  match g with
  | GenSelect _ out n rest => flat_map (carried k out) (n :: rest)
  | Producer c vals => flat_map (carried k c) vals
  | PowSelect _ _ _ n => [square n]
  | FwdSelect _ _ _ _ n => [n]
  | _ => []
  end.

Definition in_transit (k : chan -> kind) (w : world) : list Z :=
  flat_map (load k) (pool w).

(** The results handed to a consumer, in the order of the events. *)
Fixpoint delivered (k : chan -> kind) (tr : list event) : list Z :=
  match tr with
  | [] => []
  | EvSend c v _ _ :: tr' =>
      (if decide (k c = Fin) then [v] else []) ++ delivered k tr'
  | _ :: tr' => delivered k tr'
  end.

(** The kinds of the channels of [main]. *)
Definition main_kinds (c : chan) : kind :=
  match c with
  | 0 => Raw
  | 1 | 2 => Mid
  | 3 => Fin
  | _ => Other
  end.

(** ** Fan-out and fan-in, as [main] wires them *)

(** [workers] calls of [power] on the same inbound channel. *)
Fixpoint powers (ctx : context) (inp : chan) (workers : nat)
  : M (list chan) :=
  match workers with
  | 0 => ret []
  | S n =>
      ch <- power ctx inp ;;
      chs <- powers ctx inp n ;;
      ret (ch :: chs)
  end.

(** The wiring of [main] over any numbers and any number of workers, with
    a consumer that reads the merged channel until it is closed and, when
    [owner] is set, an owner who may trigger the token at any time. *)
Definition fan (owner : bool) (workers : nat) (numbers : list Z) : M chan :=
  cc <- with_cancel Background ;;
  inp <- generate (fst cc) numbers ;;
  chs <- powers (fst cc) inp workers ;;
  out <- merge (fst cc) chs ;;
  go (Drain out) ;;;
  (if owner then go (Canceller (snd cc)) else ret tt) ;;;
  ret out.

Definition fan_start (owner : bool) (workers : nat) (numbers : list Z)
  : world :=
  World ([generate_loop (WithCancel 0) 0 numbers] ++
         map (PowRange (WithCancel 0) 0) (seq 1 workers) ++
         map (fun ch => FwdRange (WithCancel 0) ch (S workers) 0)
             (seq 1 workers) ++
         [MergeWait 0 (S workers); Drain (S workers)] ++
         (if owner then [Canceller 0] else []))
        (replicate (S (S workers)) false) [false]
        [Z.of_nat workers] false.

Definition fan_kinds (workers : nat) (c : chan) : kind :=
  if decide (c = 0) then Raw
  else if decide (c <= workers) then Mid
  else if decide (c = S workers) then Fin
  else Other.

(** The goroutines that hold a [cancel] function. *)
Definition may_cancel (g : goroutine) : bool :=
  match g with
  | MainRecv _ _ _ | MainCancel _ | Canceller _ => true
  | _ => false
  end.

(** The run of the fan over 1, 2, 3 with two workers that always takes the
    first enabled step. *)
Definition fan_first_run : list event * world :=
  Eval vm_compute in
    default ([], empty_world)
            (run_sched (repeat 0 21) (run (fan false 2 [1; 2; 3]%Z))).

(** ** Every wiring comes to an end *)

(** No merge feeds a merge: the forwarding workers write to a channel
    read by a consumer. *)
Definition unnested (k : chan -> kind) (g : goroutine) : bool :=
  match g with
  | FwdRange _ _ out _ | FwdSelect _ _ out _ _ => bool_decide (k out = Fin)
  | _ => true
  end.

(** By how much the weight of the receiver grows when it takes a value
    from a channel of that kind. *)
Definition gain (x : kind) : nat :=
  match x with
  | Raw => 4
  | Mid => 2
  | Fin | Other => 0
  end.

Definition fits (k : chan -> kind) (g : goroutine) : bool :=
  wired k g && unnested k g.

(** ** The fan never deadlocks *)

(** What each thread of the fan is, by its place in the pool: the source
    at 0, worker [c] (which writes to channel [c]) at [c], the
    forwarding worker that reads channel [c] at [workers + c], then the
    closing goroutine of the merge, the consumer and the owner. *)
Inductive role : Type :=
| RGen
| RPow (c : chan)
| RFwd (c : chan)
| RCloser
| RDrain
| ROwner.

Definition role_of (workers : nat) (t : tid) : role :=
  if decide (t = 0) then RGen
  else if decide (t <= workers) then RPow t
  else if decide (t <= 2 * workers) then RFwd (t - workers)
  else if decide (t = 2 * workers + 1) then RCloser
  else if decide (t = 2 * workers + 2) then RDrain
  else ROwner.

(** The channel a role closes. *)
Definition own (workers : nat) (r : role) : option chan :=
  match r with
  | RGen => Some 0
  | RPow c => Some c
  | RCloser => Some (S workers)
  | _ => None
  end.

(** What a goroutine in a role can be, and what holds of the store when
    it stands there: [cs] are the closed flags, [lv] the number of live
    forwarding workers, [tk] the state of the token. *)
Definition role_ok (workers : nat) (cs : list bool) (lv : nat) (tk : bool)
    (r : role) (g : goroutine) : Prop :=
  match r, g with
  | RGen, GenSelect ctx out _ _ =>
      ctx = WithCancel 0 /\ out = 0 /\ cs !! 0 = Some false
  | RGen, GenClose out => out = 0 /\ cs !! 0 = Some false
  | RGen, Exited => cs !! 0 = Some true
  | RPow c, PowRange ctx inp out | RPow c, PowSelect ctx inp out _ =>
      ctx = WithCancel 0 /\ inp = 0 /\ out = c /\ cs !! c = Some false
  | RPow c, PowClose out =>
      out = c /\ cs !! c = Some false /\
      (cs !! 0 = Some true \/ tk = true)
  | RPow c, Exited =>
      cs !! c = Some true /\ (cs !! 0 = Some true \/ tk = true)
  | RFwd c, FwdRange ctx ch out wg | RFwd c, FwdSelect ctx ch out wg _ =>
      ctx = WithCancel 0 /\ ch = c /\ out = S workers /\ wg = 0 /\
      cs !! S workers = Some false
  | RFwd c, FwdDone wg => wg = 0 /\ (cs !! c = Some true \/ tk = true)
  | RFwd c, Exited => cs !! c = Some true \/ tk = true
  | RCloser, MergeWait wg out =>
      wg = 0 /\ out = S workers /\ cs !! S workers = Some false
  | RCloser, MergeClose out =>
      out = S workers /\ cs !! S workers = Some false /\ lv = 0
  | RCloser, Exited => cs !! S workers = Some true /\ lv = 0
  | RDrain, Drain c => c = S workers
  | RDrain, Exited => cs !! S workers = Some true
  | ROwner, Canceller tok => tok = 0 /\ tk = false
  | ROwner, Exited => tk = true
  | _, _ => False
  end.

(** The invariant of the fan: no panic, one token in state [tk], one wait
    group whose counter is the number of live forwarding workers, and
    every thread in its role. *)
Record fan_roles (owner : bool) (workers : nat) (tk : bool) (w : world)
  : Prop := FanRoles {
  fan_panicked : panicked w = false;
  fan_tokens : tokens w = [tk];
  fan_owner : owner = false -> tk = false;
  fan_wgs : wgs w = [Z.of_nat (live (pool w))];
  fan_chans : length (chans w) = S (S workers);
  fan_pool : length (pool w) = 2 * workers + 3 + (if owner then 1 else 0);
  fan_threads : forall t g,
      pool w !! t = Some g ->
      role_ok workers (chans w) (live (pool w)) tk (role_of workers t) g
}.

(** The fan without any worker, after the merge has closed its channel
    and the consumer has returned: the source still holds its first
    number. *)
Definition fan_leak (n : Z) (rest : list Z) : world :=
  World [GenSelect (WithCancel 0) 0 n rest; Exited; Exited]
        [false; true] [false] [0%Z] false.

(** * Properties of the kernel *)

Example main_world :
  run main =
  World [GenSelect (WithCancel 0) 0 15 [2; 9; 23; 91]%Z;
         PowRange (WithCancel 0) 0 1; PowRange (WithCancel 0) 0 2;
         FwdRange (WithCancel 0) 1 3 0; FwdRange (WithCancel 0) 2 3 0;
         MergeWait 0 3; MainRecv 0 3 0]
        [false; false; false; false] [false] [2%Z] false.
Proof. reflexivity. Qed.

Lemma in_indexed {A} (l : list A) i a : In (i, a) (indexed l) <-> l !! i = Some a.
Proof.
  unfold indexed. rewrite <- list_elem_of_In, list_elem_of_lookup.
  split.
  - intros [n Hn]. rewrite list_lookup_imap in Hn.
    destruct (l !! n) eqn:E; simpl in Hn; [|discriminate].
    injection Hn as -> ->. exact E.
  - intros E. exists i. rewrite list_lookup_imap, E. reflexivity.
Qed.

Lemma in_receivers w i c v k ev w' :
  In (ev, w') (receivers w i c v k) <->
  exists j gj kr, pool w !! j = Some gj /\ In (ORecv c kr) (offers gj) /\
    i <> j /\ ev = EvSend c v i j /\ w' = put j (kr (Some v)) (put i k w).
Proof.
  unfold receivers. rewrite in_flat_map. split.
  - intros [[j gj] [Hin H]]. apply in_indexed in Hin. simpl in H.
    destruct (decide (i = j)) as [|Hne]; [destruct H|].
    apply in_flat_map in H as [o [Ho H]].
    destruct o; try (destruct H; fail).
    destruct (decide (c0 = c)) as [->|]; [|destruct H].
    destruct H as [H|[]]. injection H as <- <-.
    exists j, gj, k0. auto.
  - intros (j & gj & kr & Hj & Ho & Hne & -> & ->).
    exists (j, gj). split; [by apply in_indexed|]. simpl.
    destruct (decide (i = j)); [contradiction|].
    apply in_flat_map. exists (ORecv c kr). split; [done|].
    destruct (decide (c = c)); [|contradiction]. by left.
Qed.

Lemma in_successors w ev w' :
  In (ev, w') (successors w) <->
  panicked w = false /\
  exists i gi o, pool w !! i = Some gi /\ In o (offers gi) /\
                 In (ev, w') (fire w i o).
Proof.
  unfold successors. split.
  - destruct (panicked w); [intros []|]. intros H. split; [done|].
    apply in_flat_map in H as [[i gi] [Hi H]].
    apply in_indexed in Hi. apply in_flat_map in H as [o [Ho H]].
    eauto 10.
  - intros [-> (i & gi & o & Hi & Ho & H)].
    apply in_flat_map. exists (i, gi). split; [by apply in_indexed|].
    apply in_flat_map. eauto.
Qed.

Lemma step_successors w ev w' : step w ev w' <-> In (ev, w') (successors w).
Proof.
  rewrite in_successors. split.
  - intros H. destruct H as
      [w i j gi gj c v k kr Hp Hi Ho Hj Hr Hne Hc
      |w i gi c v k Hp Hi Ho Hc
      |w i gi c kr Hp Hi Ho Hc
      |w i gi ctx k Hp Hi Ho Hd
      |w i gi c k Hp Hi Ho Hc
      |w i gi c k Hp Hi Ho Hc
      |w i gi wg k n Hp Hi Ho Hw Hn
      |w i gi wg k n Hp Hi Ho Hw Hn
      |w i gi wg k Hp Hi Ho Hw
      |w i gi tok k Hp Hi Ho Ht];
      (split; [done|]); exists i, gi; eexists; (split; [exact Hi|]);
      (split; [exact Ho|]); cbn [fire].
    + rewrite Hc. apply (proj2 (in_receivers _ _ _ _ _ _ _)). eauto 10.
    + rewrite Hc. by left.
    + rewrite Hc. by left.
    + rewrite Hd. by left.
    + rewrite Hc. by left.
    + rewrite Hc. by left.
    + rewrite Hw. apply Z.ltb_lt in Hn. rewrite Hn. by left.
    + rewrite Hw. assert ((0 <? n)%Z = false) as -> by (apply Z.ltb_ge; lia).
      by left.
    + rewrite Hw. by left.
    + destruct (decide _); [|lia]. by left.
  - intros [Hp (i & gi & o & Hi & Ho & H)].
    destruct o; cbn [fire] in H.
    + destruct (chans w !! c) as [[]|] eqn:Hc; [| |destruct H].
      * destruct H as [H|[]]. injection H as <- <-.
        eapply step_send_closed; eauto.
      * apply in_receivers in H as (j & gj & kr & Hj & Hr & Hne & -> & ->).
        eapply step_send; eauto.
    + destruct (chans w !! c) as [[]|] eqn:Hc; [|destruct H..].
      destruct H as [H|[]].
      injection H as <- <-. eapply step_recv_closed; eauto.
    + destruct (ctx_done w ctx) eqn:Hd; [|destruct H].
      destruct H as [H|[]]. injection H as <- <-. eapply step_done; eauto.
    + destruct (chans w !! c) as [[]|] eqn:Hc; [| |destruct H];
        destruct H as [H|[]]; injection H as <- <-.
      * eapply step_close_closed; eauto.
      * eapply step_close; eauto.
    + destruct (wgs w !! wg) as [n|] eqn:Hw; [|destruct H].
      destruct (0 <? n)%Z eqn:Hn; destruct H as [H|[]]; injection H as <- <-.
      * eapply step_wg_done; eauto. by apply Z.ltb_lt.
      * eapply step_wg_negative; eauto. by apply Z.ltb_ge.
    + destruct (wgs w !! wg) as [[| |]|] eqn:Hw; [|destruct H..].
      destruct H as [H|[]].
      injection H as <- <-. eapply step_wg_wait; eauto.
    + destruct (decide _); [|destruct H]. destruct H as [H|[]].
      injection H as <- <-. eapply step_cancel; eauto.
Qed.

Lemma stuck_successors w : stuck w <-> successors w = [].
Proof.
  split.
  - intros H. destruct (successors w) as [|[ev w'] l] eqn:E; [done|].
    exfalso. apply (H ev w'). apply step_successors. rewrite E. by left.
  - intros E ev w' H. apply step_successors in H. rewrite E in H. destruct H.
Qed.

Lemma steps_trans w tr1 w1 tr2 w2 :
  steps w tr1 w1 -> steps w1 tr2 w2 -> steps w (tr1 ++ tr2) w2.
Proof.
  intros H1 H2. induction H2 as [|tr2 wa ev wb _ IH Hs].
  - by rewrite app_nil_r.
  - rewrite app_assoc. by eapply steps_snoc.
Qed.

Lemma steps_cons w ev w1 tr w2 :
  step w ev w1 -> steps w1 tr w2 -> steps w (ev :: tr) w2.
Proof.
  intros H1 H2. change (ev :: tr) with ([ev] ++ tr).
  eapply steps_trans; [|exact H2].
  change [ev] with ([] ++ [ev]). eapply steps_snoc; [constructor|exact H1].
Qed.

Lemma run_sched_steps sched w tr w' :
  run_sched sched w = Some (tr, w') -> steps w tr w'.
Proof.
  revert w tr w'. induction sched as [|n sched IH]; intros w tr w' H; simpl in H.
  - injection H as <- <-. constructor.
  - destruct (successors w !! n) as [[ev w1]|] eqn:E; [|discriminate].
    destruct (run_sched sched w1) as [[tr1 w2]|] eqn:E1; [|discriminate].
    injection H as <- <-. eapply steps_cons; [|by apply IH].
    apply step_successors. rewrite <- list_elem_of_In, list_elem_of_lookup.
    eauto.
Qed.

Lemma sent_on_app c tr1 tr2 : sent_on c (tr1 ++ tr2) = sent_on c tr1 ++ sent_on c tr2.
Proof.
  induction tr1 as [|[] tr1 IH]; simpl; try done.
  destruct (decide _); simpl; by rewrite IH.
Qed.

Lemma sent_by_app t tr1 tr2 : sent_by t (tr1 ++ tr2) = sent_by t tr1 ++ sent_by t tr2.
Proof.
  induction tr1 as [|[] tr1 IH]; simpl; try done.
  destruct (decide _); simpl; by rewrite IH.
Qed.

Lemma recv_by_app t tr1 tr2 : recv_by t (tr1 ++ tr2) = recv_by t tr1 ++ recv_by t tr2.
Proof.
  induction tr1 as [|[] tr1 IH]; simpl; try done.
  destruct (decide _); simpl; by rewrite IH.
Qed.

Lemma closes_app c tr1 tr2 : closes c (tr1 ++ tr2) = closes c tr1 + closes c tr2.
Proof.
  induction tr1 as [|[] tr1 IH]; simpl; try done.
  destruct (decide _); simpl; by rewrite IH.
Qed.

Lemma seen_In w V : seen w V = true <-> In w V.
Proof.
  unfold seen. rewrite existsb_exists. split.
  - intros [w' [Hin Heq]]. apply bool_decide_eq_true in Heq. by subst.
  - intros Hin. exists w. split; [done|]. by apply bool_decide_eq_true.
Qed.

Section Explore.
Variable w0 : world.
Variable V : list world.
Hypothesis V_init : seen w0 V = true.
Hypothesis V_closed : closed_under V = true.

Lemma explored_step w ev w' : In w V -> step w ev w' -> In w' V.
Proof using V_closed.
  intros Hin Hs. unfold closed_under in V_closed.
  rewrite forallb_forall in V_closed. specialize (V_closed w Hin).
  rewrite forallb_forall in V_closed. apply step_successors in Hs.
  apply seen_In. exact (V_closed _ Hs).
Qed.

Lemma explored_from w1 tr w : In w1 V -> steps w1 tr w -> In w V.
Proof using V_closed.
  intros Hin. induction 1 as [|tr w2 ev w3 _ IH Hs]; [done|].
  by eapply explored_step.
Qed.

Lemma explored tr w : steps w0 tr w -> In w V.
Proof using V_init V_closed.
  apply explored_from. by apply seen_In.
Qed.

Lemma explored_all (P : world -> bool) tr w :
  forallb P V = true -> steps w0 tr w -> P w = true.
Proof using V_init V_closed.
  intros HP Hs. rewrite forallb_forall in HP. apply HP. by eapply explored.
Qed.

Lemma explored_edge ok w ev w' :
  edges_ok ok V = true -> In w V -> step w ev w' -> ok w ev w' = true.
Proof using.
  intros Hok Hin Hs. unfold edges_ok in Hok.
  rewrite forallb_forall in Hok. specialize (Hok w Hin).
  rewrite forallb_forall in Hok. apply step_successors in Hs.
  exact (Hok _ Hs).
Qed.

(** A quantity read off the state follows a quantity folded over the
    trace when every step moves both alike. *)
Lemma explored_ghost {O} (obs : list event -> O) (ghost : world -> O)
    (upd : O -> event -> O) `{EqDecision O} :
  (forall tr ev, obs (tr ++ [ev]) = upd (obs tr) ev) ->
  ghost w0 = obs [] ->
  edges_ok (fun w ev w' => bool_decide (ghost w' = upd (ghost w) ev)) V = true ->
  forall tr w, steps w0 tr w -> ghost w = obs tr.
Proof using V_init V_closed.
  intros Hobs H0 Hok tr w Hs.
  induction Hs as [|tr w1 ev w2 Hs IH Hstep]; [done|].
  rewrite Hobs, <- IH.
  eapply bool_decide_eq_true, (explored_edge _ w1 ev w2 Hok); [|done].
  by eapply explored.
Qed.

(** Every step lowers the energy: executions are bounded. *)
Lemma explored_bound_from w1 tr w :
  edges_ok (fun w _ w' => bool_decide (energy w' < energy w)) V = true ->
  In w1 V -> steps w1 tr w -> length tr + energy w <= energy w1.
Proof using V_closed.
  intros Hok Hin Hs.
  induction Hs as [|tr w2 ev w3 Hs IH Hstep]; [simpl; lia|].
  assert (energy w3 < energy w2).
  { eapply bool_decide_eq_true, (explored_edge _ w2 ev w3 Hok); [|done].
    by eapply explored_from. }
  rewrite length_app. simpl. lia.
Qed.

Lemma explored_bound tr w :
  edges_ok (fun w _ w' => bool_decide (energy w' < energy w)) V = true ->
  steps w0 tr w -> length tr + energy w <= energy w0.
Proof using V_init V_closed.
  intros Hok. apply explored_bound_from; [done|]. by apply seen_In.
Qed.
End Explore.


(** * The scenario of section 8 *)

Lemma scenario_init : seen scenario scenario_states = true.
Proof. vm_compute. reflexivity. Qed.

Lemma scenario_closed : closed_under scenario_states = true.
Proof. vm_compute. reflexivity. Qed.

Lemma scenario_safe :
  forallb (fun w => negb (panicked w) && untriggered w) scenario_states = true.
Proof. vm_compute. reflexivity. Qed.

Lemma scenario_final :
  forallb (fun w => match successors w with
                    | [] => all_exited w &&
                            bool_decide (scenario_delivered w = [9120%Z])
                    | _ => true
                    end) scenario_states = true.
Proof. vm_compute. reflexivity. Qed.

Lemma scenario_energy :
  edges_ok (fun w _ w' => bool_decide (energy w' < energy w)) scenario_states
  = true.
Proof. vm_compute. reflexivity. Qed.

Lemma scenario_delivery :
  edges_ok (fun w ev w' =>
              bool_decide (scenario_delivered w' =
                           scenario_delivered w ++ sent_on scenario_result [ev]))
           scenario_states = true.
Proof. vm_compute. reflexivity. Qed.

Lemma scenario_delivered_trace tr w :
  steps scenario tr w -> scenario_delivered w = sent_on scenario_result tr.
Proof.
  apply (explored_ghost scenario scenario_states scenario_init scenario_closed
           (sent_on scenario_result) scenario_delivered
           (fun o ev => o ++ sent_on scenario_result [ev])).
  - intros tr' ev. apply sent_on_app.
  - reflexivity.
  - exact scenario_delivery.
Qed.

(** C1.  With input 15, 2, 9, 23, 91, two squaring workers, merge and sum,
    and the token never triggered: whatever the schedule, the program does
    not panic, runs for at most [energy scenario] steps, the result channel
    carries nothing or the single value 9120 at every moment, and once no
    goroutine can move every goroutine has returned and the result channel
    has carried exactly 9120. *)
Theorem scenario_sum_is_9120 tr w :
  steps scenario tr w ->
  panicked w = false /\ untriggered w = true /\
  (sent_on scenario_result tr = [] \/
   sent_on scenario_result tr = [9120%Z]) /\
  (stuck w ->
   sent_on scenario_result tr = [9120%Z] /\ all_exited w = true) /\
  length tr + energy w <= energy scenario.
Proof.
  intros Hs.
  pose proof (explored_all _ _ scenario_init scenario_closed _ tr w
                scenario_safe Hs) as Hsafe.
  pose proof (explored_all _ _ scenario_init scenario_closed _ tr w
                scenario_final Hs) as Hfin.
  pose proof (scenario_delivered_trace tr w Hs) as Hd.
  cbv beta in Hsafe, Hfin.
  apply andb_true_iff in Hsafe as [Hp Hu]. apply negb_true_iff in Hp.
  split; [done|]. split; [done|]. split; [|split].
  - rewrite <- Hd. unfold scenario_delivered.
    destruct (pool w !! 6) as [[]|]; auto.
  - intros Hst. apply stuck_successors in Hst. rewrite Hst in Hfin.
    apply andb_true_iff in Hfin as [Ha Hv].
    apply bool_decide_eq_true in Hv. by rewrite <- Hd.
  - by apply (explored_bound scenario scenario_states scenario_init
                scenario_closed tr w scenario_energy).
Qed.

Lemma scenario_sum_is_9120_witness :
  stuck scenario_first_run.2 /\
  sent_on scenario_result scenario_first_run.1 = [9120%Z].
Proof.
  assert (Hrun : steps scenario scenario_first_run.1 scenario_first_run.2).
  { apply run_sched_steps with (sched := repeat 0 30).
    vm_compute. reflexivity. }
  assert (Hst : stuck scenario_first_run.2).
  { apply stuck_successors. vm_compute. reflexivity. }
  split; [exact Hst|].
  exact (proj1 (proj1 (proj2 (proj2 (proj2
    (scenario_sum_is_9120 _ _ Hrun)))) Hst)).
Defined.

(** * The program of [main] *)

Lemma main_init : seen (run main) main_states = true.
Proof. vm_compute. reflexivity. Qed.

Lemma main_closed : closed_under main_states = true.
Proof. vm_compute. reflexivity. Qed.

Lemma main_safe :
  forallb (fun w => negb (panicked w) &&
                    forallb (fun g => negb (is_sink g)) (pool w) &&
                    match pool w !! main_tid with
                    | Some Exited => bool_decide (tokens w = [true])
                    | _ => true
                    end) main_states = true.
Proof. vm_compute. reflexivity. Qed.

Lemma main_final :
  forallb (fun w => match successors w with
                    | [] => all_exited w && bool_decide (tokens w = [true])
                    | _ => true
                    end) main_states = true.
Proof. vm_compute. reflexivity. Qed.

Lemma main_energy :
  edges_ok (fun w _ w' => bool_decide (energy w' < energy w)) main_states
  = true.
Proof. vm_compute. reflexivity. Qed.

Lemma main_first_run_steps :
  steps (run main) main_first_run.1 main_first_run.2.
Proof.
  apply run_sched_steps with (sched := repeat 0 24). vm_compute. reflexivity.
Qed.

(** * One goroutine seen alone *)

Lemma put_lookup_eq i g w :
  i < length (pool w) -> pool (put i g w) !! i = Some g.
Proof. intros H. unfold put. simpl. by apply list_lookup_insert_eq. Qed.

Lemma put_lookup_ne i j g w :
  i <> j -> pool (put i g w) !! j = pool w !! j.
Proof. intros H. unfold put. simpl. by apply list_lookup_insert_ne. Qed.

Lemma put_lookup i j g g0 w :
  pool w !! i = Some g0 ->
  pool (put i g w) !! j = if decide (i = j) then Some g else pool w !! j.
Proof.
  intros H. destruct (decide (i = j)) as [<-|Hne].
  - apply put_lookup_eq. by eapply lookup_lt_Some.
  - by apply put_lookup_ne.
Qed.

Lemma react_send c v k a g :
  react (OSend c v k) a = Some g <-> a = ASend c v /\ g = k.
Proof.
  destruct a; simpl; try (split; [done|intros [? _]; done]).
  destruct (decide _) as [[-> ->]|Hn]; split; try done.
  - by intros [= ->].
  - by intros [_ ->].
  - intros [[= -> ->] _]. by destruct Hn.
Qed.

(** Every step of the program is, for each goroutine, one step of its own
    or none. *)
Lemma step_local w ev w' t g :
  step w ev w' -> pool w !! t = Some g ->
  exists g', pool w' !! t = Some g' /\
             match view t ev with
             | Some a => lstep g a g'
             | None => g' = g
             end.
Proof.
  intros Hs Ht. destruct Hs as
      [w i j gi gj c v k kr Hp Hi Ho Hj Hr Hne Hc
      |w i gi c v k Hp Hi Ho Hc
      |w i gi c kr Hp Hi Ho Hc
      |w i gi ctx k Hp Hi Ho Hd
      |w i gi c k Hp Hi Ho Hc
      |w i gi c k Hp Hi Ho Hc
      |w i gi wg k n Hp Hi Ho Hw Hn
      |w i gi wg k n Hp Hi Ho Hw Hn
      |w i gi wg k Hp Hi Ho Hw
      |w i gi tok k Hp Hi Ho Ht']; cbn [view].
  - destruct (decide (i = t)) as [->|Hit].
    + exists k. rewrite put_lookup_ne by done.
      rewrite put_lookup_eq by (by eapply lookup_lt_Some).
      split; [done|]. rewrite Hi in Ht. injection Ht as <-.
      econstructor; [exact Ho|]. simpl. by rewrite decide_True.
    + destruct (decide (j = t)) as [->|Hjt].
      * exists (kr (Some v)).
        rewrite put_lookup_eq
          by (unfold put; simpl; rewrite length_insert; by eapply lookup_lt_Some).
        split; [done|]. rewrite Hj in Ht. injection Ht as <-.
        econstructor; [exact Hr|]. simpl. by rewrite decide_True.
      * exists g. by rewrite !put_lookup_ne.
  - by exists g.
  - destruct (decide (i = t)) as [->|Hit].
    + exists (kr None). rewrite put_lookup_eq by (by eapply lookup_lt_Some).
      split; [done|]. rewrite Hi in Ht. injection Ht as <-.
      econstructor; [exact Ho|]. simpl. by rewrite decide_True.
    + exists g. by rewrite put_lookup_ne.
  - destruct (decide (i = t)) as [->|Hit].
    + exists k. rewrite put_lookup_eq by (by eapply lookup_lt_Some).
      split; [done|]. rewrite Hi in Ht. injection Ht as <-.
      econstructor; [exact Ho|]. simpl. by rewrite decide_True.
    + exists g. by rewrite put_lookup_ne.
  - destruct (decide (i = t)) as [->|Hit].
    + exists k. rewrite put_lookup_eq by (by eapply lookup_lt_Some).
      split; [done|]. rewrite Hi in Ht. injection Ht as <-.
      econstructor; [exact Ho|]. simpl. by rewrite decide_True.
    + exists g. by rewrite put_lookup_ne.
  - by exists g.
  - destruct (decide (i = t)) as [->|Hit].
    + exists k. rewrite put_lookup_eq by (by eapply lookup_lt_Some).
      split; [done|]. rewrite Hi in Ht. injection Ht as <-.
      econstructor; [exact Ho|]. simpl. by rewrite decide_True.
    + exists g. by rewrite put_lookup_ne.
  - by exists g.
  - destruct (decide (i = t)) as [->|Hit].
    + exists k. rewrite put_lookup_eq by (by eapply lookup_lt_Some).
      split; [done|]. rewrite Hi in Ht. injection Ht as <-.
      econstructor; [exact Ho|]. simpl. by rewrite decide_True.
    + exists g. by rewrite put_lookup_ne.
  - destruct (decide (i = t)) as [->|Hit].
    + exists k. rewrite put_lookup_eq by (by eapply lookup_lt_Some).
      split; [done|]. rewrite Hi in Ht. injection Ht as <-.
      econstructor; [exact Ho|]. simpl. by rewrite decide_True.
    + exists g. by rewrite put_lookup_ne.
Qed.

Lemma steps_local w tr w' t g :
  steps w tr w' -> pool w !! t = Some g ->
  exists g', pool w' !! t = Some g' /\ lsteps g (local_trace t tr) g'.
Proof.
  intros Hs Ht. induction Hs as [|tr w1 ev w2 _ IH Hstep].
  - exists g. split; [done|constructor].
  - destruct IH as [g1 [H1 Hl]].
    destruct (step_local _ _ _ _ _ Hstep H1) as [g2 [H2 Hv]].
    exists g2. split; [done|]. unfold local_trace. rewrite omap_app. simpl.
    destruct (view t ev) as [a|].
    + by eapply lsteps_snoc.
    + subst g2. by rewrite app_nil_r.
Qed.

(** * Closing and cancelling, for any program *)

Lemma step_pool_length w ev w' : step w ev w' -> length (pool w') = length (pool w).
Proof.
  destruct 1; unfold put, set_pool, set_chans, set_wgs, set_tokens, set_panicked;
    simpl; by rewrite ?length_insert.
Qed.

Lemma step_not_panicked w ev w' : step w ev w' -> panicked w = false.
Proof. by destruct 1. Qed.

(** A channel is closed at most once: the second close is a panic, not an
    event of the channel. *)
Lemma step_closes w ev w' c :
  step w ev w' ->
  chans w !! c = Some true /\ chans w' !! c = Some true /\ closes c [ev] = 0 \/
  chans w !! c = Some false /\ chans w' !! c = Some false /\ closes c [ev] = 0 \/
  chans w !! c = Some false /\ chans w' !! c = Some true /\ closes c [ev] = 1 \/
  chans w !! c = None /\ chans w' !! c = None /\ closes c [ev] = 0.
Proof.
  assert (Hcase : forall l : list bool,
            l !! c = Some true \/ l !! c = Some false \/ l !! c = None).
  { intros l. destruct (l !! c) as [[]|]; auto. }
  intros Hs. destruct Hs as
      [w i j gi gj c0 v k kr Hp Hi Ho Hj Hr Hne Hc
      |w i gi c0 v k Hp Hi Ho Hc
      |w i gi c0 kr Hp Hi Ho Hc
      |w i gi ctx k Hp Hi Ho Hd
      |w i gi c0 k Hp Hi Ho Hc
      |w i gi c0 k Hp Hi Ho Hc
      |w i gi wg k n Hp Hi Ho Hw Hn
      |w i gi wg k n Hp Hi Ho Hw Hn
      |w i gi wg k Hp Hi Ho Hw
      |w i gi tok k Hp Hi Ho Ht']; simpl;
    try (destruct (Hcase (chans w)) as [H|[H|H]]; rewrite H; auto 10; fail).
  destruct (decide (c0 = c)) as [->|Hne].
  - right. right. left. split; [done|]. split; [|done].
    apply list_lookup_insert_eq. by eapply lookup_lt_Some.
  - rewrite list_lookup_insert_ne by done.
    destruct (Hcase (chans w)) as [H|[H|H]]; rewrite H; auto 10.
Qed.

Lemma steps_closes w tr w' c :
  steps w tr w' -> chans w !! c = Some false ->
  chans w' !! c = Some false /\ closes c tr = 0 \/
  chans w' !! c = Some true /\ closes c tr = 1.
Proof.
  intros Hs H0. induction Hs as [|tr w1 ev w2 _ IH Hstep]; [by left|].
  rewrite closes_app.
  destruct (step_closes _ _ _ c Hstep) as [H|[H|[H|H]]];
    destruct H as (Ha & Hb & ->); destruct IH as [[H1 ->]|[H1 ->]];
    rewrite Ha in H1; try discriminate; auto.
Qed.

Lemma step_token w ev w' tok :
  step w ev w' -> tokens w !! tok = Some true -> tokens w' !! tok = Some true.
Proof.
  intros Hs H. destruct Hs; simpl; try done.
  destruct (decide (tok0 = tok)) as [->|Hne].
  - apply list_lookup_insert_eq. by eapply lookup_lt_Some.
  - by rewrite list_lookup_insert_ne.
Qed.

(** * The source stage taken alone *)

Ltac step_cases H :=
  apply step_successors in H;
  lazy -[int_add int_mul generate_loop] in H;
  repeat match type of H with
         | _ \/ _ => destruct H as [H|H]
         | False => destruct H
         | (_, _) = (_, _) => injection H as <- <-
         end.

Lemma weight_generate_loop ctx out rest :
  weight (generate_loop ctx out rest) = 8 * length rest + 1.
Proof. destruct rest; simpl; lia. Qed.

Lemma source_stage_run owner numbers :
  run (source_stage owner numbers) = source_world owner SrcLoop numbers false false.
Proof. by destruct owner. Qed.

Lemma source_inv_init owner numbers :
  source_inv owner numbers [] (run (source_stage owner numbers)).
Proof.
  exists SrcLoop, numbers, false, false. rewrite source_stage_run.
  repeat split; try done.
Qed.

Lemma source_inv_step owner numbers tr w ev w' :
  source_inv owner numbers tr w -> step w ev w' ->
  source_inv owner numbers (tr ++ [ev]) w' /\ energy w' < energy w.
Proof.
  intros (ph & rest & dr & tk & -> & (Hd & Hc & Ho & He) & Hn & Hcl) Hs.
  unfold source_inv. rewrite sent_on_app, closes_app, Hcl.
  destruct ph, owner, dr, tk, rest as [|n rest];
    rewrite ?app_nil_r in Hn;
    try (discriminate (Hd eq_refl)); try (discriminate (Hc eq_refl));
    try (discriminate (Ho eq_refl)); try (discriminate (He eq_refl eq_refl));
    unfold source_world in Hs; cbn [generate_loop] in Hs; step_cases Hs;
    (split; [|unfold energy; simpl; rewrite ?weight_generate_loop; lia]);
    solve [(exists SrcLoop + exists SrcCancelled + exists SrcExited);
           (exists rest + exists (n :: rest) + exists []);
           (exists true + exists false); (exists true + exists false);
           (split; [reflexivity|]);
           (split; [unfold source_ok; intuition congruence|]);
           (split; [simpl; rewrite ?app_nil_r, <- ?app_assoc; done|done])].
Qed.

Lemma source_inv_steps owner numbers tr w :
  steps (run (source_stage owner numbers)) tr w ->
  source_inv owner numbers tr w /\
  length tr + energy w <= energy (run (source_stage owner numbers)).
Proof.
  induction 1 as [|tr w1 ev w2 _ [IH Hb] Hs].
  - split; [apply source_inv_init|simpl; lia].
  - destruct (source_inv_step _ _ _ _ _ _ IH Hs) as [Hi He].
    split; [done|]. rewrite length_app. simpl. lia.
Qed.

Lemma source_inv_stuck owner numbers tr w :
  source_inv owner numbers tr w -> stuck w -> pool w !! 0 = Some Exited.
Proof.
  intros (ph & rest & dr & tk & -> & (Hd & Hc & Ho & He) & _) Hst.
  apply stuck_successors in Hst.
  destruct ph, owner, dr, tk, rest as [|n rest];
    try (discriminate (Hd eq_refl)); try (discriminate (Hc eq_refl));
    try (discriminate (Ho eq_refl)); try (discriminate (He eq_refl eq_refl));
    try reflexivity; discriminate Hst.
Qed.

(** ** The source goroutine in any program *)

Ltac lstep_cases H :=
  let Hin := fresh "Hin" in
  let Hre := fresh "Hre" in
  inversion H as [? ? ? ? Hin Hre]; subst; clear H;
  cbn [offers generate_loop In] in Hin;
  repeat match type of Hin with
         | _ \/ _ => destruct Hin as [Hin|Hin]
         | False => destruct Hin
         end;
  subst;
  lazymatch goal with
  | Hre' : react _ ?a = _ |- _ =>
      destruct a; simpl in Hre'; try discriminate Hre';
      case_decide; try discriminate Hre';
      injection Hre' as <-; destruct_and?; subst
  end.

Lemma generate_local ctx out numbers acts g :
  lsteps (generate_loop ctx out numbers) acts g ->
  exists sent rest (cancelled closed : bool),
    numbers = sent ++ rest /\
    acts = generate_trace ctx out sent cancelled closed /\
    g = (if closed then Exited
         else if cancelled then GenClose out
         else generate_loop ctx out rest) /\
    (closed = true -> cancelled = false -> rest = []).
Proof.
  induction 1 as [|acts g1 a g2 _ IH Hl].
  - exists [], numbers, false, false. by repeat split.
  - destruct IH as (sent & rest & cancelled & closed & Hn & -> & -> & Hr).
    unfold generate_trace.
    destruct closed; [lstep_cases Hl|].
    destruct cancelled.
    { lstep_cases Hl. exists sent, rest, true, true.
      repeat split; try done. by rewrite <- !app_assoc. }
    destruct rest as [|n rest]; lstep_cases Hl.
    + exists sent, [], false, true. repeat split; try done.
      by rewrite !app_nil_r.
    + eexists (sent ++ [_]), rest, false, false.
      rewrite <- app_assoc, map_app, !app_nil_r. by repeat split.
    + eexists sent, (_ :: rest), true, false.
      rewrite !app_nil_r. by repeat split.
Qed.

(** Once a goroutine has closed a channel, the channel stays closed. *)
Lemma closed_by_thread w tr w' t c :
  steps w tr w' -> In (AClose c) (local_trace t tr) ->
  chans w' !! c = Some true.
Proof.
  induction 1 as [|tr w1 ev w2 _ IH Hs]; [intros []|].
  unfold local_trace. rewrite omap_app, in_app_iff. intros [Hin|Hin].
  - specialize (IH Hin).
    destruct (step_closes _ _ _ c Hs) as [H|[H|[H|H]]];
      destruct H as (Ha & Hb & _); congruence.
  - simpl in Hin. destruct ev; simpl in Hin; repeat case_decide;
      simpl in Hin; try (destruct Hin as [Hin|[]]; discriminate Hin);
      try (destruct Hin; fail).
    destruct Hin as [Hin|[]]. injection Hin as ->. subst.
    destruct (step_closes _ _ _ c Hs) as [H|[H|[H|H]]];
      destruct H as (Ha & Hb & Hc); simpl in Hc;
      rewrite decide_True in Hc by done; done.
Qed.

Lemma ctx_done_step w ev w' ctx :
  step w ev w' -> ctx_done w ctx = true -> ctx_done w' ctx = true.
Proof.
  intros Hs. destruct ctx as [|tok]; [done|]. unfold ctx_done.
  destruct (tokens w !! tok) as [[]|] eqn:E; try done. intros _.
  by rewrite (step_token _ _ _ _ Hs E).
Qed.

(** A goroutine takes its cancellation case only when the token is set. *)
Lemma done_by_thread w tr w' t ctx :
  steps w tr w' -> In (ADone ctx) (local_trace t tr) ->
  ctx_done w' ctx = true.
Proof.
  induction 1 as [|tr w1 ev w2 _ IH Hs]; [intros []|].
  unfold local_trace. rewrite omap_app, in_app_iff. intros [Hin|Hin].
  - eapply ctx_done_step; eauto.
  - destruct Hs; simpl in Hin; repeat case_decide; simpl in Hin;
      try (destruct Hin as [Hin|[]]; discriminate Hin);
      try (destruct Hin; fail).
    destruct Hin as [Hin|[]]. by injection Hin as <-.
Qed.

(** C4.  In any program, the goroutine started by [generate] sends a prefix
    of its numbers, in order, on its outbound channel; it stops early only
    by taking the cancellation case, which needs the token set; it then
    closes the channel and returns, so the channel is closed on every exit
    path, and without cancellation every number was sent before.  With a
    consumer that keeps reading, and with or without an owner who may
    cancel, no run panics, every run is bounded, the channel is closed
    exactly when the goroutine has returned and exactly once, and a run
    that cannot go on has closed it; with the token untriggered the values
    that went over the channel are then exactly the input. *)
Theorem source_emits_in_order_then_closes :
  (forall w0 t ctx out numbers tr w,
      pool w0 !! t = Some (generate_loop ctx out numbers) ->
      steps w0 tr w ->
      exists sent rest (cancelled closed : bool),
        numbers = sent ++ rest /\
        local_trace t tr = generate_trace ctx out sent cancelled closed /\
        (closed = true -> cancelled = false -> rest = []) /\
        (cancelled = true -> ctx_done w ctx = true) /\
        pool w !! t = Some (if closed then Exited
                            else if cancelled then GenClose out
                            else generate_loop ctx out rest) /\
        (closed = true -> chans w !! out = Some true)) /\
  (forall owner numbers tr w,
      steps (run (source_stage owner numbers)) tr w ->
      panicked w = false /\
      sent_on 0 tr `prefix_of` numbers /\
      (is_closed w 0 = true <-> pool w !! 0 = Some Exited) /\
      closes 0 tr = (if is_closed w 0 then 1 else 0) /\
      (owner = false -> tokens w = [false]) /\
      (is_closed w 0 = true -> tokens w = [false] -> sent_on 0 tr = numbers) /\
      (stuck w -> is_closed w 0 = true) /\
      length tr + energy w <= energy (run (source_stage owner numbers))).
Proof.
  split.
  - intros w0 t ctx out numbers tr w Ht Hs.
    destruct (steps_local _ _ _ _ _ Hs Ht) as (g & Hg & Hl).
    destruct (generate_local _ _ _ _ _ Hl)
      as (sent & rest & cancelled & closed & Hn & Hacts & -> & Hr).
    exists sent, rest, cancelled, closed.
    split; [done|]. split; [done|]. split; [done|]. split; [|split; [done|]].
    + intros ->. eapply done_by_thread; [exact Hs|]. rewrite Hacts.
      unfold generate_trace. rewrite !in_app_iff. right. left. by left.
    + intros ->. eapply closed_by_thread; [exact Hs|]. rewrite Hacts.
      unfold generate_trace. rewrite !in_app_iff. right. right. by left.
  - intros owner numbers tr w Hs.
    destruct (source_inv_steps _ _ _ _ Hs) as [Hinv Hb].
    pose proof (source_inv_stuck _ _ _ _ Hinv) as Hst.
    destruct Hinv as (ph & rest & dr & tk & -> & (Hd & Hc & Ho & He) & Hn & Hcl).
    split; [done|]. split; [by exists rest|].
    split; [destruct ph, rest; by split|].
    split; [by destruct ph|].
    split; [intros ->; destruct tk; [by specialize (Ho eq_refl)|done]|].
    split.
    { intros Hcd Htk. destruct ph; try discriminate Hcd.
      injection Htk as ->. rewrite (He eq_refl eq_refl), app_nil_r in Hn.
      done. }
    split; [|done].
    intros Hstuck. specialize (Hst Hstuck). by destruct ph, rest.
Qed.

Lemma source_emits_in_order_then_closes_witness :
  sent_on 0 source_cancelled_run.1 = [15%Z] /\
  local_trace 0 source_cancelled_run.1 =
    generate_trace (WithCancel 0) 0 [15%Z] true true /\
  is_closed source_cancelled_run.2 0 = true.
Proof.
  assert (Hrun : steps (run (source_stage true [15; 2; 9]%Z))
                       source_cancelled_run.1 source_cancelled_run.2).
  { apply run_sched_steps with (sched := [0; 1; 1; 0; 0]).
    vm_compute. reflexivity. }
  assert (Hst : stuck source_cancelled_run.2).
  { apply stuck_successors. vm_compute. reflexivity. }
  destruct source_emits_in_order_then_closes as [Hlocal Hstage].
  destruct (Hstage _ _ _ _ Hrun) as (_ & _ & _ & _ & _ & _ & Hclosed & _).
  assert (Ht : pool (run (source_stage true [15; 2; 9]%Z)) !! 0 =
               Some (generate_loop (WithCancel 0) 0 [15; 2; 9]%Z))
    by reflexivity.
  destruct (Hlocal _ _ _ _ _ _ _ Ht Hrun) as (_ & _ & _ & _ & _ & _).
  split; [vm_compute; reflexivity|].
  split; [vm_compute; reflexivity|].
  exact (Hclosed Hst).
Defined.

(** * The sink stage taken alone *)

Lemma int_sum_snoc xs n : int_sum (xs ++ [n]) = int_add (int_sum xs) n.
Proof. unfold int_sum. by rewrite fold_left_app. Qed.

Lemma sink_inv_init vals : sink_inv vals [] (run (sink_stage vals)).
Proof.
  exists SkRange, false, vals, false. repeat split; try done.
Qed.

Lemma sink_inv_step vals tr w ev w' :
  sink_inv vals tr w -> step w ev w' ->
  sink_inv vals (tr ++ [ev]) w' /\ energy w' < energy w.
Proof.
  intros (ph & fed & rest & dr & -> & (Hf & Hp & Hd) & Hn & Hs1 & Hcl) Hs.
  unfold sink_inv. rewrite !sent_on_app, closes_app, Hs1, Hcl.
  destruct ph, fed, dr, rest as [|n rest]; rewrite ?app_nil_r in Hn;
    try (discriminate (Hf eq_refl)); try (discriminate (Hd eq_refl));
    try (exfalso; by discriminate Hp);
    unfold sink_world, sink_goroutine in Hs; step_cases Hs;
    (split; [|unfold energy; simpl; lia]);
    simpl; rewrite ?app_nil_r, ?int_sum_snoc;
    solve [(exists SkRange + exists SkSend + exists SkClose + exists SkExited);
           (exists true + exists false);
           (exists rest + exists (n :: rest) + exists []);
           (exists true + exists false);
           (split; [reflexivity|]);
           (split; [unfold sink_ok; intuition congruence|]);
           (split; [rewrite ?app_nil_r, <- ?app_assoc; done|]);
           (split; [by subst|done])].
Qed.

Lemma sink_inv_steps vals tr w :
  steps (run (sink_stage vals)) tr w ->
  sink_inv vals tr w /\
  length tr + energy w <= energy (run (sink_stage vals)).
Proof.
  induction 1 as [|tr w1 ev w2 _ [IH Hb] Hs].
  - split; [apply sink_inv_init|simpl; lia].
  - destruct (sink_inv_step _ _ _ _ _ IH Hs) as [Hi He].
    split; [done|]. rewrite length_app. simpl. lia.
Qed.

Lemma sink_inv_stuck vals tr w :
  sink_inv vals tr w -> stuck w -> is_closed w 1 = true.
Proof.
  intros (ph & fed & rest & dr & -> & (Hf & Hp & Hd) & _) Hst.
  apply stuck_successors in Hst.
  destruct ph, fed, dr, rest as [|n rest];
    try (discriminate (Hf eq_refl)); try (discriminate (Hd eq_refl));
    try (exfalso; by discriminate Hp);
    try reflexivity; discriminate Hst.
Qed.

(** ** The sum in machine integers *)

Lemma wrap_in_int z : in_int z -> wrap z = z.
Proof.
  unfold in_int, wrap, int_min, int_max, int_bits. intros H.
  rewrite Z.mod_small; lia.
Qed.

Lemma wrap_add_l a b : wrap (wrap a + b) = wrap (a + b).
Proof.
  unfold wrap.
  replace ((a - int_min) mod 2 ^ int_bits + int_min + b - int_min)%Z
    with ((a - int_min) mod 2 ^ int_bits + b)%Z by lia.
  rewrite Z.add_mod_idemp_l by (unfold int_bits; lia).
  f_equal. f_equal. lia.
Qed.

Lemma Z_sum_snoc xs n : Z_sum (xs ++ [n]) = (Z_sum xs + n)%Z.
Proof.
  unfold Z_sum. induction xs as [|x xs IH]; simpl; [lia|]. rewrite IH. lia.
Qed.

Lemma int_sum_wrap xs : int_sum xs = wrap (Z_sum xs).
Proof.
  induction xs as [|n xs IH] using rev_ind; [reflexivity|].
  rewrite int_sum_snoc, Z_sum_snoc, IH. apply wrap_add_l.
Qed.

(** ** The sink goroutine in any program *)

Lemma recv_closed_by_thread w tr w' t c :
  steps w tr w' -> In (ARecv c None) (local_trace t tr) ->
  chans w' !! c = Some true.
Proof.
  induction 1 as [|tr w1 ev w2 _ IH Hs]; [intros []|].
  unfold local_trace. rewrite omap_app, in_app_iff. intros [Hin|Hin].
  - specialize (IH Hin).
    destruct (step_closes _ _ _ c Hs) as [H|[H|[H|H]]];
      destruct H as (Ha & Hb & _); congruence.
  - destruct Hs; simpl in Hin; repeat case_decide; simpl in Hin;
      try (destruct Hin as [Hin|[]]; discriminate Hin);
      try (destruct Hin; fail).
    destruct Hin as [Hin|[]]. injection Hin as ->. done.
Qed.

Lemma sum_local inp out acts g :
  lsteps (SumRange inp out 0) acts g ->
  exists xs k,
    k <= 3 /\
    acts = sum_trace inp out xs k /\
    g = sink_goroutine inp out (int_sum xs) (sink_phase_of k).
Proof.
  induction 1 as [|acts g1 a g2 _ IH Hl].
  - exists [], 0. repeat split; [lia|done..].
  - destruct IH as (xs & k & Hk & -> & ->). unfold sum_trace.
    destruct k as [|[|[|k]]]; simpl in Hl; lstep_cases Hl.
    + destruct r as [n|].
      * exists (xs ++ [n]), 0. split; [lia|]. rewrite int_sum_snoc.
        split; [|done]. by rewrite map_app, !app_nil_r.
      * exists xs, 1. split; [lia|]. split; [|done]. by rewrite app_nil_r.
    + exists xs, 2. split; [lia|]. split; [|done]. by rewrite <- app_assoc.
    + exists xs, 3. split; [lia|]. split; [|done]. by rewrite <- app_assoc.
Qed.

Lemma recvs_sum_trace inp out xs k : recvs (sum_trace inp out xs k) = xs.
Proof.
  unfold sum_trace, recvs. rewrite omap_app.
  assert (omap (fun a => match a with
                         | ARecv _ (Some v) => Some v
                         | _ => None
                         end)
               (take k [ARecv inp None; ASend out (int_sum xs); AClose out])
          = []) as ->
    by (by destruct k as [|[|[|[|k]]]]).
  rewrite app_nil_r. induction xs as [|x xs IH]; [done|].
  cbn. f_equal. exact IH.
Qed.

Lemma sends_sum_trace inp out xs k :
  sends (sum_trace inp out xs k) = if decide (2 <= k) then [int_sum xs] else [].
Proof.
  unfold sum_trace, sends. rewrite omap_app.
  assert (omap (fun a => match a with ASend _ v => Some v | _ => None end)
               (map (fun x => ARecv inp (Some x)) xs) = []) as ->
    by (induction xs as [|x xs IH]; simpl; done).
  by destruct k as [|[|[|[|k]]]].
Qed.

(** C5.  In any program, the goroutine started by [sum] receives values
    until it finds its inbound channel closed, then sends one value, the
    accumulator (the sum of the values received, in machine integers),
    then closes its result channel and returns; it does nothing else.
    Fed with any finite sequence and read by a consumer, the stage never
    panics, every run is bounded, the result channel carries nothing
    until every value was consumed and the inbound channel closed, then
    exactly the sum, and it is closed once, after that; a run that cannot
    go on has closed it. *)
Theorem sink_sums_sends_once_then_closes :
  (forall w0 t inp out tr w,
      pool w0 !! t = Some (SumRange inp out 0) ->
      steps w0 tr w ->
      exists xs k,
        k <= 3 /\
        local_trace t tr = sum_trace inp out xs k /\
        recvs (local_trace t tr) = xs /\
        sends (local_trace t tr) = (if decide (2 <= k) then [int_sum xs] else []) /\
        pool w !! t =
          Some (sink_goroutine inp out (int_sum xs) (sink_phase_of k)) /\
        (1 <= k -> chans w !! inp = Some true) /\
        (k = 3 -> chans w !! out = Some true)) /\
  (forall xs, int_sum xs = wrap (Z_sum xs) /\
              (in_int (Z_sum xs) -> int_sum xs = Z_sum xs)) /\
  (forall vals tr w,
      steps (run (sink_stage vals)) tr w ->
      panicked w = false /\
      sent_on 0 tr `prefix_of` vals /\
      (sent_on 1 tr = [] \/
       sent_on 1 tr = [int_sum vals] /\ sent_on 0 tr = vals /\
       is_closed w 0 = true) /\
      closes 1 tr = (if is_closed w 1 then 1 else 0) /\
      (is_closed w 1 = true -> sent_on 1 tr = [int_sum vals]) /\
      (stuck w -> is_closed w 1 = true) /\
      length tr + energy w <= energy (run (sink_stage vals))).
Proof.
  split; [|split].
  - intros w0 t inp out tr w Ht Hs.
    destruct (steps_local _ _ _ _ _ Hs Ht) as (g & Hg & Hl).
    destruct (sum_local _ _ _ _ Hl) as (xs & k & Hk & Hacts & ->).
    exists xs, k. split; [done|]. split; [done|].
    split; [by rewrite Hacts, recvs_sum_trace|].
    split; [by rewrite Hacts, sends_sum_trace|].
    split; [done|]. split.
    + intros H1. eapply recv_closed_by_thread; [exact Hs|]. rewrite Hacts.
      unfold sum_trace. rewrite in_app_iff. right.
      destruct k as [|k]; [lia|]. by left.
    + intros ->. eapply closed_by_thread; [exact Hs|]. rewrite Hacts.
      unfold sum_trace. rewrite in_app_iff. right. simpl. auto.
  - intros xs. split; [apply int_sum_wrap|].
    intros H. rewrite int_sum_wrap. by apply wrap_in_int.
  - intros vals tr w Hs.
    destruct (sink_inv_steps _ _ _ Hs) as [Hinv Hb].
    pose proof (sink_inv_stuck _ _ _ Hinv) as Hst.
    destruct Hinv as (ph & fed & rest & dr & -> & (Hf & Hp & Hd) & Hn & Hs1 & Hcl).
    split; [done|]. split; [by exists rest|].
    split.
    { destruct ph; [by left|by left|right..]; (split; [done|]);
        assert (fed = true) as -> by (by apply Hp);
        rewrite (Hf eq_refl), app_nil_r in Hn; done. }
    split; [by destruct ph|].
    split; [by destruct ph|].
    done.
Qed.

Lemma sink_sums_sends_once_then_closes_witness :
  sent_on 0 sink_first_run.1 = [3; 4; 5]%Z /\
  sent_on 1 sink_first_run.1 = [12%Z] /\
  local_trace 1 sink_first_run.1 = sum_trace 0 1 [3; 4; 5]%Z 3 /\
  is_closed sink_first_run.2 1 = true.
Proof.
  assert (Hrun : steps (run (sink_stage [3; 4; 5]%Z))
                       sink_first_run.1 sink_first_run.2).
  { apply run_sched_steps with (sched := repeat 0 8).
    vm_compute. reflexivity. }
  assert (Hst : stuck sink_first_run.2).
  { apply stuck_successors. vm_compute. reflexivity. }
  destruct sink_sums_sends_once_then_closes as (Hlocal & _ & Hstage).
  destruct (Hstage _ _ _ Hrun) as (_ & _ & _ & _ & _ & Hclosed & _).
  assert (Ht : pool (run (sink_stage [3; 4; 5]%Z)) !! 1 =
               Some (SumRange 0 1 0)) by reflexivity.
  destruct (Hlocal _ _ _ _ _ _ Ht Hrun) as (_ & _ & _).
  split; [vm_compute; reflexivity|].
  split; [vm_compute; reflexivity|].
  split; [vm_compute; reflexivity|].
  exact (Hclosed Hst).
Defined.

(** C9.  A sink that receives no value before its inbound channel is
    closed does exactly this, in any program: it finds the channel
    closed, sends 0, the initial value of its accumulator, closes the
    result channel.  Fed by an upstream that closes at once and read by a
    consumer, every run is bounded by five steps, the result channel
    carries nothing and then the single value 0, is closed once after
    that, and a run that cannot go on has closed it. *)
Theorem sink_of_nothing_sends_zero :
  (forall w0 t inp out tr w,
      pool w0 !! t = Some (SumRange inp out 0) ->
      steps w0 tr w ->
      recvs (local_trace t tr) = [] ->
      exists k,
        k <= 3 /\
        local_trace t tr = take k [ARecv inp None; ASend out 0; AClose out] /\
        sends (local_trace t tr) = (if decide (2 <= k) then [0%Z] else []) /\
        (k = 3 <-> pool w !! t = Some Exited)) /\
  (forall tr w,
      steps (run (sink_stage [])) tr w ->
      panicked w = false /\
      sent_on 0 tr = [] /\
      (sent_on 1 tr = [] \/ sent_on 1 tr = [0%Z]) /\
      closes 1 tr = (if is_closed w 1 then 1 else 0) /\
      (is_closed w 1 = true -> sent_on 1 tr = [0%Z]) /\
      (stuck w -> is_closed w 1 = true) /\
      length tr <= 5).
Proof.
  split.
  - intros w0 t inp out tr w Ht Hs Hnone.
    destruct (steps_local _ _ _ _ _ Hs Ht) as (g & Hg & Hl).
    destruct (sum_local _ _ _ _ Hl) as (xs & k & Hk & Hacts & ->).
    rewrite Hacts, recvs_sum_trace in Hnone. subst xs.
    exists k. split; [done|]. split; [done|].
    split; [by rewrite Hacts, sends_sum_trace|].
    rewrite Hg. destruct k as [|[|[|k]]]; simpl; split; try done; lia.
  - intros tr w Hs.
    destruct (sink_inv_steps _ _ _ Hs) as [Hinv Hb].
    pose proof (sink_inv_stuck _ _ _ Hinv) as Hst.
    destruct Hinv as (ph & fed & rest & dr & -> & (Hf & Hp & Hd) & Hn & Hs1 & Hcl).
    symmetry in Hn. apply app_eq_nil in Hn as [Hn0 ->].
    split; [done|]. split; [done|].
    split; [destruct ph; auto|].
    split; [by destruct ph|].
    split; [by destruct ph|].
    split; [done|].
    change (energy (run (sink_stage []))) with 5 in Hb. lia.
Qed.

Lemma sink_of_nothing_sends_zero_witness :
  sent_on 1 sink_empty_run.1 = [0%Z] /\
  local_trace 1 sink_empty_run.1 = [ARecv 0 None; ASend 1 0; AClose 1] /\
  is_closed sink_empty_run.2 1 = true.
Proof.
  assert (Hrun : steps (run (sink_stage [])) sink_empty_run.1 sink_empty_run.2).
  { apply run_sched_steps with (sched := repeat 0 5).
    vm_compute. reflexivity. }
  assert (Hst : stuck sink_empty_run.2).
  { apply stuck_successors. vm_compute. reflexivity. }
  destruct sink_of_nothing_sends_zero as (Hlocal & Hstage).
  destruct (Hstage _ _ Hrun) as (_ & _ & _ & _ & _ & Hclosed & _).
  assert (Ht : pool (run (sink_stage [])) !! 1 = Some (SumRange 0 1 0))
    by reflexivity.
  assert (Hnone : recvs (local_trace 1 sink_empty_run.1) = [])
    by (vm_compute; reflexivity).
  destruct (Hlocal _ _ _ _ _ _ Ht Hrun Hnone) as (_ & _ & _).
  split; [vm_compute; reflexivity|].
  split; [vm_compute; reflexivity|].
  exact (Hclosed Hst).
Defined.

(** * The transform stage taken alone *)

Lemma transform_inv_init owner vals :
  transform_inv owner vals [] (run (transform_stage owner vals)).
Proof.
  exists PwRange, false, vals, false, false.
  split; [by destruct owner|]. by repeat split.
Qed.

Lemma transform_inv_step owner vals tr w ev w' :
  transform_inv owner vals tr w -> step w ev w' ->
  transform_inv owner vals (tr ++ [ev]) w' /\ energy w' < energy w.
Proof.
  intros (ph & fed & rest & dr & tk & -> & (Hf & Hd & Ho & Hx) & Hn & Hsq & Hcl) Hs.
  unfold transform_inv. rewrite !sent_on_app, closes_app, map_app, Hsq, Hcl.
  destruct ph as [|n|[d|]|[d|]], owner, fed, dr, tk, rest as [|m rest];
    rewrite ?app_nil_r in Hn; simpl in Hx;
    try (discriminate (Hf eq_refl)); try (discriminate (Ho eq_refl));
    try (discriminate (Hd eq_refl)); try discriminate Hx;
    unfold transform_world, pow_goroutine in Hs; step_cases Hs;
    (split; [|unfold energy; simpl; lia]);
    simpl; rewrite ?app_nil_r;
    solve [(exists PwRange + exists (PwSelect n) + exists (PwSelect m)
            + exists (PwClose None) + exists (PwClose (Some n))
            + exists (PwClose (Some d)) + exists (PwExited None)
            + exists (PwExited (Some d)));
           (exists true + exists false);
           (exists rest + exists (m :: rest) + exists []);
           (exists true + exists false);
           (exists true + exists false);
           (split; [reflexivity|]);
           (split; [unfold transform_ok; simpl; intuition congruence|]);
           (split; [rewrite ?app_nil_r, <- ?app_assoc; done|]);
           (split; [simpl; rewrite ?app_nil_r, <- ?app_assoc; done|done])].
Qed.

Lemma transform_inv_steps owner vals tr w :
  steps (run (transform_stage owner vals)) tr w ->
  transform_inv owner vals tr w /\
  length tr + energy w <= energy (run (transform_stage owner vals)).
Proof.
  induction 1 as [|tr w1 ev w2 _ [IH Hb] Hs].
  - split; [apply transform_inv_init|simpl; lia].
  - destruct (transform_inv_step _ _ _ _ _ _ IH Hs) as [Hi He].
    split; [done|]. rewrite length_app. simpl. lia.
Qed.

Lemma transform_inv_stuck owner vals tr w :
  transform_inv owner vals tr w -> stuck w -> pool w !! 1 = Some Exited.
Proof.
  intros (ph & fed & rest & dr & tk & -> & (Hf & Hd & Ho & Hx) & _) Hst.
  apply stuck_successors in Hst.
  destruct ph as [|n|[d|]|[d|]], owner, fed, dr, tk, rest as [|m rest];
    simpl in Hx;
    try (discriminate (Hf eq_refl)); try (discriminate (Ho eq_refl));
    try (discriminate (Hd eq_refl)); try discriminate Hx;
    try reflexivity; discriminate Hst.
Qed.

(** ** The transform goroutine in any program *)

Lemma pow_local ctx inp out acts g :
  lsteps (PowRange ctx inp out) acts g ->
  exists xs e,
    acts = pow_trace ctx inp out xs e /\ g = pow_state ctx inp out e.
Proof.
  induction 1 as [|acts g1 a g2 _ IH Hl].
  - by exists [], PEloop.
  - destruct IH as (xs & e & -> & ->). unfold pow_trace.
    destruct e as [|x|[]|x []]; simpl in Hl; lstep_cases Hl.
    + destruct r as [n|].
      * exists xs, (PEheld n). by rewrite app_nil_r.
      * exists xs, (PEdrained false). by rewrite app_nil_r.
    + exists (xs ++ [x]), PEloop. unfold pow_body.
      by rewrite flat_map_app, <- app_assoc, app_nil_r.
    + exists xs, (PEdropped x false). by rewrite <- app_assoc.
    + exists xs, (PEdrained true). by rewrite <- app_assoc.
    + exists xs, (PEdropped x true). by rewrite <- app_assoc.
Qed.

Lemma sends_pow_trace ctx inp out xs e :
  sends (pow_trace ctx inp out xs e) = map square xs.
Proof.
  unfold pow_trace, sends. rewrite omap_app.
  assert (omap (fun a => match a with ASend _ v => Some v | _ => None end)
               (pow_tail ctx inp out e) = []) as ->
    by (by destruct e as [|x|[]|x []]).
  rewrite app_nil_r. induction xs as [|x xs IH]; [done|].
  cbn. f_equal. exact IH.
Qed.

Lemma recvs_pow_trace ctx inp out xs e :
  recvs (pow_trace ctx inp out xs e) = xs ++ pow_pending e.
Proof.
  unfold pow_trace, recvs. rewrite omap_app. f_equal.
  - induction xs as [|x xs IH]; [done|]. cbn. f_equal. exact IH.
  - by destruct e as [|x|[]|x []].
Qed.

(** C6, as the code has it.  The worker started by [power] takes no
    function: it squares.  In any program, and whoever else reads the
    same inbound channel, its own actions are: receive [x], send [x * x]
    (in machine integers), for a sequence of values in the order
    received, and then one of: nothing yet, a value received and still
    held, the inbound channel found closed, or the value held dropped
    because the token was set; in the last two cases it closes its
    outbound channel and returns.  So what it has sent is the squares of
    what it has received, in order, short of at most the last value.
    Fed by a producer and read by a consumer, with or without an owner
    who may cancel, no run panics, every run is bounded, the outbound
    channel is closed once, when the worker returns, a run that cannot go
    on has closed it, and with the token untriggered it has then carried
    the squares of all the values. *)
Theorem transform_squares_in_order :
  (forall w0 t ctx inp out tr w,
      pool w0 !! t = Some (PowRange ctx inp out) ->
      steps w0 tr w ->
      exists xs e,
        local_trace t tr = pow_trace ctx inp out xs e /\
        recvs (local_trace t tr) = xs ++ pow_pending e /\
        sends (local_trace t tr) = map square xs /\
        pool w !! t = Some (pow_state ctx inp out e) /\
        (forall x c, e = PEdropped x c -> ctx_done w ctx = true) /\
        (forall c, e = PEdrained c -> chans w !! inp = Some true) /\
        (pool w !! t = Some Exited -> chans w !! out = Some true)) /\
  (forall owner vals tr w,
      steps (run (transform_stage owner vals)) tr w ->
      panicked w = false /\
      sent_on 0 tr `prefix_of` vals /\
      sent_on 1 tr `prefix_of` map square (sent_on 0 tr) /\
      length (sent_on 0 tr) <= S (length (sent_on 1 tr)) /\
      closes 1 tr = (if is_closed w 1 then 1 else 0) /\
      (is_closed w 1 = true <-> pool w !! 1 = Some Exited) /\
      (owner = false -> tokens w = [false]) /\
      (is_closed w 1 = true -> tokens w = [false] ->
       sent_on 1 tr = map square vals) /\
      (stuck w -> is_closed w 1 = true) /\
      length tr + energy w <= energy (run (transform_stage owner vals))).
Proof.
  split.
  - intros w0 t ctx inp out tr w Ht Hs.
    destruct (steps_local _ _ _ _ _ Hs Ht) as (g & Hg & Hl).
    destruct (pow_local _ _ _ _ _ Hl) as (xs & e & Hacts & ->).
    exists xs, e. split; [done|].
    split; [by rewrite Hacts, recvs_pow_trace|].
    split; [by rewrite Hacts, sends_pow_trace|].
    split; [done|]. split; [|split].
    + intros x c ->. eapply done_by_thread; [exact Hs|]. rewrite Hacts.
      unfold pow_trace. rewrite in_app_iff. right. simpl. auto.
    + intros c ->. eapply recv_closed_by_thread; [exact Hs|]. rewrite Hacts.
      unfold pow_trace. rewrite in_app_iff. right. simpl. auto.
    + rewrite Hg. intros He. eapply closed_by_thread; [exact Hs|].
      rewrite Hacts. unfold pow_trace. rewrite in_app_iff. right.
      destruct e as [|x|[]|x []]; try discriminate He; simpl; auto.
  - intros owner vals tr w Hs.
    destruct (transform_inv_steps _ _ _ _ Hs) as [Hinv Hb].
    pose proof (transform_inv_stuck _ _ _ _ Hinv) as Hst.
    destruct Hinv as (ph & fed & rest & dr & tk & -> & (Hf & Hd & Ho & Hx)
                      & Hn & Hsq & Hcl).
    split; [done|]. split; [by exists rest|].
    split; [rewrite Hsq; by eexists|].
    split.
    { apply (f_equal length) in Hsq.
      rewrite length_app, !length_map in Hsq. rewrite Hsq.
      destruct ph as [|n|[d|]|[d|]]; simpl; lia. }
    split; [by destruct ph|].
    split; [by destruct ph|].
    split; [intros ->; destruct tk; [by specialize (Ho eq_refl)|done]|].
    split.
    { intros Hc Htk. injection Htk as ->.
      destruct ph as [|n|[d|]|[d|]]; try discriminate Hc;
        simpl in Hx; try discriminate Hx.
      subst fed. rewrite (Hf eq_refl), app_nil_r in Hn. subst vals.
      simpl in Hsq. by rewrite app_nil_r in Hsq. }
    split; [|done].
    intros Hstuck. specialize (Hst Hstuck). by destruct ph.
Qed.

Lemma transform_squares_in_order_witness :
  sent_on 1 transform_first_run.1 = [4; 9]%Z /\
  local_trace 1 transform_first_run.1 =
    pow_trace (WithCancel 0) 0 1 [2; 3]%Z (PEdrained true) /\
  is_closed transform_first_run.2 1 = true.
Proof.
  assert (Hrun : steps (run (transform_stage false [2; 3]%Z))
                       transform_first_run.1 transform_first_run.2).
  { apply run_sched_steps with (sched := repeat 0 8).
    vm_compute. reflexivity. }
  assert (Hst : stuck transform_first_run.2).
  { apply stuck_successors. vm_compute. reflexivity. }
  destruct transform_squares_in_order as (Hlocal & Hstage).
  destruct (Hstage _ _ _ _ Hrun) as (_ & _ & _ & _ & _ & _ & _ & _ & Hclosed & _).
  assert (Ht : pool (run (transform_stage false [2; 3]%Z)) !! 1 =
               Some (PowRange (WithCancel 0) 0 1)) by reflexivity.
  destruct (Hlocal _ _ _ _ _ _ _ Ht Hrun) as (_ & _ & _).
  split; [vm_compute; reflexivity|].
  split; [vm_compute; reflexivity|].
  exact (Hclosed Hst).
Defined.

(** C6, as the claim has it, fails twice.  The stage takes no function:
    were its output [f x] for every [f], it would be so for the identity,
    yet on receiving 2 the worker sends 4.  And a worker that holds 2
    when the token is set returns without having sent anything for it. *)
Lemma transform_takes_no_function :
  ~ (forall (f : Z -> Z) w0 t ctx inp out tr w,
        pool w0 !! t = Some (PowRange ctx inp out) ->
        steps w0 tr w ->
        sends (local_trace t tr) `prefix_of` map f (recvs (local_trace t tr))) /\
  ~ (forall w0 t ctx inp out tr w,
        pool w0 !! t = Some (PowRange ctx inp out) ->
        steps w0 tr w ->
        pool w !! t = Some Exited ->
        sends (local_trace t tr) = map square (recvs (local_trace t tr))).
Proof.
  assert (Ht : pool (run (transform_stage true [2%Z])) !! 1 =
               Some (PowRange (WithCancel 0) 0 1)) by reflexivity.
  split.
  - intros H.
    assert (Hrun : steps (run (transform_stage true [2%Z]))
                         transform_squaring_run.1 transform_squaring_run.2).
    { apply run_sched_steps with (sched := [0; 1]). vm_compute. reflexivity. }
    destruct (H (fun x => x) _ _ _ _ _ _ _ Ht Hrun) as [k Hk].
    vm_compute in Hk. discriminate Hk.
  - intros H.
    assert (Hrun : steps (run (transform_stage true [2%Z]))
                         transform_cancelled_run.1 transform_cancelled_run.2).
    { apply run_sched_steps with (sched := [0; 2; 2; 1]).
      vm_compute. reflexivity. }
    specialize (H _ _ _ _ _ _ _ Ht Hrun eq_refl).
    vm_compute in H. discriminate H.
Qed.

(** * What the constructors start *)

Lemma for_each_go {A} (f : A -> goroutine) (l : list A) w :
  for_each l (fun a => go (f a)) w = (tt, set_pool (pool w ++ map f l) w).
Proof.
  revert w. induction l as [|a l IH]; intros w; simpl.
  - destruct w. unfold ret, set_pool. simpl. by rewrite app_nil_r.
  - unfold bind, go at 1. rewrite IH. unfold set_pool. simpl.
    by rewrite <- app_assoc.
Qed.

Lemma generate_spec ctx numbers w :
  generate ctx numbers w =
  (length (chans w),
   World (pool w ++ [generate_loop ctx (length (chans w)) numbers])
         (chans w ++ [false]) (tokens w) (wgs w) (panicked w)).
Proof. reflexivity. Qed.

Lemma power_spec ctx inp w :
  power ctx inp w =
  (length (chans w),
   World (pool w ++ [PowRange ctx inp (length (chans w))])
         (chans w ++ [false]) (tokens w) (wgs w) (panicked w)).
Proof. reflexivity. Qed.

Lemma sum_spec inp w :
  sum inp w =
  (length (chans w),
   World (pool w ++ [SumRange inp (length (chans w)) 0])
         (chans w ++ [false]) (tokens w) (wgs w) (panicked w)).
Proof. reflexivity. Qed.

Lemma merge_spec ctx channels w :
  merge ctx channels w =
  (length (chans w),
   World (pool w ++
          map (fun ch => FwdRange ctx ch (length (chans w)) (length (wgs w)))
              channels ++
          [MergeWait (length (wgs w)) (length (chans w))])
         (chans w ++ [false]) (tokens w)
         (wgs w ++ [Z.of_nat (length channels)]) (panicked w)).
Proof.
  unfold merge, bind, new_wg, make_chan, wg_add, ret. simpl.
  rewrite for_each_go. unfold go, set_pool, set_wgs, set_chans. simpl.
  f_equal. f_equal.
  - by rewrite <- app_assoc.
  - rewrite alter_app_r_alt by done.
    by rewrite Nat.sub_diag.
Qed.

(** * The program of [main]: wiring and cancellation *)

Lemma main_printing :
  edges_ok (fun w ev w' =>
              bool_decide (main_printed w' =
                           main_printed w + length (sent_on main_out [ev])))
           main_states = true.
Proof. vm_compute. reflexivity. Qed.

Lemma main_printed_trace tr w :
  steps (run main) tr w -> main_printed w = length (sent_on main_out tr).
Proof.
  apply (explored_ghost (run main) main_states main_init main_closed
           (fun tr => length (sent_on main_out tr)) main_printed
           (fun o ev => o + length (sent_on main_out [ev]))).
  - intros tr' ev. by rewrite sent_on_app, length_app.
  - reflexivity.
  - exact main_printing.
Qed.

Lemma main_counter :
  forallb (fun w => match pool w !! main_tid with
                    | Some (MainRecv _ _ i) => (i <? 3)%Z && (0 <=? i)%Z
                    | _ => true
                    end) main_states = true.
Proof. vm_compute. reflexivity. Qed.

Lemma main_pool_size :
  forallb (fun w => bool_decide (length (pool w) = 7)) main_states = true.
Proof. vm_compute. reflexivity. Qed.

Lemma main_after_cancel :
  forallb (fun w => if bool_decide (tokens w = [true])
                    then bool_decide (energy w <= 27) else true)
          main_states = true.
Proof. vm_compute. reflexivity. Qed.

(** C7, as the code has it.  [main] creates the token, then starts, in
    this order, the source over 15, 2, 9, 23, 91, two transform workers
    that both read the source's channel, and a merge over their two
    channels; it starts no sink, and reads the merged channel itself.
    Whatever the schedule, no sink ever runs, nothing panics, [main] has
    read at most three values, and when [main] has returned the token is
    set; every run is bounded, and a run that cannot go on has [main]
    returned after exactly three values, the token set, and every
    goroutine returned. *)
Theorem main_wires_three_stages_and_cancels :
  run main =
    World [GenSelect (WithCancel 0) 0 15 [2; 9; 23; 91]%Z;
           PowRange (WithCancel 0) 0 1; PowRange (WithCancel 0) 0 2;
           FwdRange (WithCancel 0) 1 3 0; FwdRange (WithCancel 0) 2 3 0;
           MergeWait 0 3; MainRecv 0 3 0]
          [false; false; false; false] [false] [2%Z] false /\
  (forall tr w,
      steps (run main) tr w ->
      panicked w = false /\
      (forall t g, pool w !! t = Some g -> is_sink g = false) /\
      length (sent_on main_out tr) <= 3 /\
      (pool w !! main_tid = Some Exited -> tokens w = [true]) /\
      (stuck w ->
       pool w !! main_tid = Some Exited /\ tokens w = [true] /\
       length (sent_on main_out tr) = 3 /\ all_exited w = true) /\
      length tr + energy w <= energy (run main)).
Proof.
  split; [reflexivity|]. intros tr w Hs.
  pose proof (explored_all _ _ main_init main_closed _ tr w main_safe Hs)
    as Hsafe.
  pose proof (explored_all _ _ main_init main_closed _ tr w main_final Hs)
    as Hfin.
  pose proof (main_printed_trace tr w Hs) as Hpr.
  cbv beta in Hsafe, Hfin.
  apply andb_true_iff in Hsafe as [Hsafe Hex].
  apply andb_true_iff in Hsafe as [Hp Hsink]. apply negb_true_iff in Hp.
  assert (Hexit : pool w !! main_tid = Some Exited -> tokens w = [true]).
  { intros E. rewrite E in Hex. by apply bool_decide_eq_true in Hex. }
  split; [done|]. split; [|split; [|split; [done|split]]].
  - intros t g Ht. rewrite forallb_forall in Hsink.
    apply negb_true_iff, Hsink. rewrite <- list_elem_of_In.
    by eapply list_elem_of_lookup_2.
  - rewrite <- Hpr. unfold main_printed.
    destruct (pool w !! main_tid) as [[]|] eqn:E; try lia.
    pose proof (explored_all _ _ main_init main_closed _ tr w
                  main_counter Hs) as Hall.
    cbv beta in Hall. rewrite E in Hall.
    apply andb_true_iff in Hall as [Hall _]. apply Z.ltb_lt in Hall. lia.
  - intros Hst. apply stuck_successors in Hst. rewrite Hst in Hfin.
    apply andb_true_iff in Hfin as [Ha Ht].
    apply bool_decide_eq_true in Ht.
    assert (pool w !! main_tid = Some Exited) as E.
    { unfold all_exited in Ha. rewrite forallb_forall in Ha.
      destruct (pool w !! main_tid) as [g|] eqn:E.
      - f_equal. eapply bool_decide_eq_true, Ha.
        rewrite <- list_elem_of_In. by eapply list_elem_of_lookup_2.
      - apply lookup_ge_None in E.
        pose proof (explored_all _ _ main_init main_closed _ tr w
                      main_pool_size Hs) as Hl.
        apply bool_decide_eq_true in Hl. unfold main_tid in E. lia. }
    split; [done|]. split; [done|]. split; [|done].
    rewrite <- Hpr. unfold main_printed. by rewrite E.
  - by apply (explored_bound (run main) main_states main_init main_closed
                tr w main_energy).
Qed.

Lemma main_wires_three_stages_and_cancels_witness :
  stuck main_first_run.2 /\
  tokens main_first_run.2 = [true] /\
  sent_on main_out main_first_run.1 = [225; 81; 8281]%Z.
Proof.
  assert (Hst : stuck main_first_run.2).
  { apply stuck_successors. vm_compute. reflexivity. }
  destruct main_wires_three_stages_and_cancels as [_ H].
  destruct (H _ _ main_first_run_steps) as (_ & _ & _ & _ & Hend & _).
  destruct (Hend Hst) as (_ & Htok & _ & _).
  split; [exact Hst|]. split; [exact Htok|]. vm_compute. reflexivity.
Defined.

(** C7, as the claim has it, fails: of the goroutines that [main] starts,
    none belongs to a sink. *)
Lemma main_starts_no_sink :
  ~ (exists t g, pool (run main) !! t = Some g /\ is_sink g = true).
Proof.
  intros (t & g & Ht & Hg).
  do 7 (destruct t as [|t]; [injection Ht as <-; discriminate Hg|]).
  discriminate Ht.
Qed.

(** * Which blocking operations race against the token *)

(** C2, as the code has it.  A source, transform or forwarding worker
    that stands at a send stands in a select whose other case is the
    [Done] channel of its context: once the token is set it can always
    move.  A worker that stands at a receive, and the sink anywhere, has
    no such case: only its inbound channel, or its reader, can release
    it.  In the program of [main], where the source closes its channel
    when it takes the cancellation case and each closure releases the
    receivers downstream, nothing panics, every run is bounded, once the
    token is set at most 27 steps remain, and a run that cannot go on has
    every goroutine returned. *)
Theorem sends_race_the_token_receives_wait_for_close :
  (forall w t g ctx,
      panicked w = false -> pool w !! t = Some g ->
      worker_send g = true -> worker_ctx g = Some ctx ->
      done_case g = Some ctx /\
      (ctx_done w ctx = true ->
       exists w', step w (EvDone ctx t) w' /\ moves t (EvDone ctx t) = true)) /\
  (forall g, worker_recv g = true \/ is_sink g = true -> done_case g = None) /\
  (forall tr w,
      steps (run main) tr w ->
      panicked w = false /\
      (stuck w -> all_exited w = true) /\
      length tr + energy w <= energy (run main) /\
      (tokens w = [true] ->
       forall tr' w', steps w tr' w' -> length tr' <= 27)).
Proof.
  split; [|split].
  - intros w t g ctx Hp Ht Hsend Hctx.
    destruct g; try discriminate Hsend; injection Hctx as ->;
      (split; [reflexivity|]); intros Hd; eexists;
      (split; [eapply step_done; eauto; simpl; auto
              |unfold moves, view; by case_decide]).
  - intros g [H|H]; by destruct g.
  - intros tr w Hs.
    pose proof (explored_all _ _ main_init main_closed _ tr w main_safe Hs)
      as Hsafe.
    pose proof (explored_all _ _ main_init main_closed _ tr w main_final Hs)
      as Hfin.
    pose proof (explored_all _ _ main_init main_closed _ tr w
                  main_after_cancel Hs) as Hac.
    cbv beta in Hsafe, Hfin, Hac.
    apply andb_true_iff in Hsafe as [Hsafe _].
    apply andb_true_iff in Hsafe as [Hp _]. apply negb_true_iff in Hp.
    split; [done|]. split; [|split].
    + intros Hst. apply stuck_successors in Hst. rewrite Hst in Hfin.
      by apply andb_true_iff in Hfin as [Ha _].
    + by apply (explored_bound (run main) main_states main_init main_closed
                  tr w main_energy).
    + intros Htk tr' w' Hs'. rewrite bool_decide_true in Hac by done.
      apply bool_decide_eq_true in Hac.
      pose proof (explored _ _ main_init main_closed tr w Hs) as Hin.
      pose proof (explored_bound_from main_states main_closed w tr' w'
                    main_energy Hin Hs'). lia.
Qed.

Lemma sends_race_the_token_receives_wait_for_close_witness :
  (exists w', step blocked_sender (EvDone (WithCancel 0) 0) w') /\
  all_exited main_first_run.2 = true.
Proof.
  destruct sends_race_the_token_receives_wait_for_close as (Hsend & _ & Hmain).
  assert (Hp : panicked blocked_sender = false) by reflexivity.
  assert (Ht : pool blocked_sender !! 0 = Some (PowSelect (WithCancel 0) 0 1 2))
    by reflexivity.
  assert (Hs : worker_send (PowSelect (WithCancel 0) 0 1 2) = true)
    by reflexivity.
  assert (Hc : worker_ctx (PowSelect (WithCancel 0) 0 1 2) =
               Some (WithCancel 0)) by reflexivity.
  assert (Hd : ctx_done blocked_sender (WithCancel 0) = true) by reflexivity.
  destruct (Hsend _ _ _ _ Hp Ht Hs Hc) as [_ Hmove].
  destruct (Hmove Hd) as (w' & Hstep & _).
  split; [by exists w'|].
  assert (Hst : stuck main_first_run.2).
  { apply stuck_successors. vm_compute. reflexivity. }
  destruct (Hmain _ _ main_first_run_steps) as (_ & Hend & _).
  exact (Hend Hst).
Defined.

(** C2, as the claim has it, fails: a transform worker at its receive,
    with the token set and an inbound channel that nobody closes, cannot
    move. *)
Lemma receive_does_not_race :
  ~ (forall w t g ctx,
        panicked w = false -> pool w !! t = Some g ->
        worker_send g || worker_recv g = true ->
        worker_ctx g = Some ctx -> ctx_done w ctx = true ->
        exists ev w', step w ev w' /\ moves t ev = true).
Proof.
  intros H.
  destruct (H blocked_receiver 0 (PowRange (WithCancel 0) 0 1) (WithCancel 0))
    as (ev & w' & Hs & _); try reflexivity.
  apply step_successors in Hs. vm_compute in Hs. destruct Hs.
Qed.

(** * Which constructors take the token *)

Lemma sink_never_watches inp out ctx : ~ watches (SumRange inp out 0) ctx.
Proof.
  intros (acts & g & k & Hl & Hin).
  destruct (sum_local _ _ _ _ Hl) as (xs & n & _ & _ & ->).
  destruct n as [|[|[|n]]]; simpl in Hin; intuition discriminate.
Qed.

Lemma generate_watches ctx out n rest :
  watches (generate_loop ctx out (n :: rest)) ctx.
Proof.
  exists [], (GenSelect ctx out n rest), (GenClose out).
  split; [constructor|]. simpl. auto.
Qed.

Lemma power_watches ctx inp out : watches (PowRange ctx inp out) ctx.
Proof.
  exists ([] ++ [ARecv inp (Some 0%Z)]), (PowSelect ctx inp out 0),
         (PowClose out).
  split; [|simpl; auto].
  eapply lsteps_snoc; [constructor|].
  eapply lstep_offer; [by left|]. simpl. by rewrite decide_True.
Qed.

Lemma forward_watches ctx ch out wg : watches (FwdRange ctx ch out wg) ctx.
Proof.
  exists ([] ++ [ARecv ch (Some 0%Z)]), (FwdSelect ctx ch out wg 0),
         (FwdDone wg).
  split; [|simpl; auto].
  eapply lsteps_snoc; [constructor|].
  eapply lstep_offer; [by left|]. simpl. by rewrite decide_True.
Qed.

(** C8, as the code has it.  [generate], [power] and [merge] take the
    context and hand it to the workers they start, which select on its
    [Done] channel (the source only when it has a number to send).  [sum]
    takes its inbound channel only, and the worker it starts never
    selects on any context. *)
Theorem all_stages_but_the_sink_take_the_token :
  (forall ctx numbers w,
      numbers <> [] ->
      exists g, pool (generate ctx numbers w).2 = pool w ++ [g] /\
                watches g ctx) /\
  (forall ctx inp w,
      exists g, pool (power ctx inp w).2 = pool w ++ [g] /\ watches g ctx) /\
  (forall ctx channels w,
      exists fwds closer,
        pool (merge ctx channels w).2 = pool w ++ fwds ++ [closer] /\
        length fwds = length channels /\
        Forall (fun g => watches g ctx) fwds) /\
  (forall inp w,
      exists g, pool (sum inp w).2 = pool w ++ [g] /\
                forall ctx, ~ watches g ctx).
Proof.
  split; [|split; [|split]].
  - intros ctx numbers w Hne. rewrite generate_spec. simpl.
    eexists. split; [reflexivity|].
    destruct numbers as [|n rest]; [done|]. apply generate_watches.
  - intros ctx inp w. rewrite power_spec. simpl.
    eexists. split; [reflexivity|]. apply power_watches.
  - intros ctx channels w. rewrite merge_spec. simpl.
    eexists _, _. split; [reflexivity|]. split; [by rewrite length_map|].
    apply Forall_forall. intros g Hg.
    apply in_map_iff in Hg as (ch & <- & _). apply forward_watches.
  - intros inp w. rewrite sum_spec. simpl.
    eexists. split; [reflexivity|]. intros ctx. apply sink_never_watches.
Qed.

Lemma all_stages_but_the_sink_take_the_token_witness :
  exists g, pool (generate (WithCancel 0) [15%Z] empty_world).2 = [g] /\
            watches g (WithCancel 0).
Proof.
  destruct all_stages_but_the_sink_take_the_token as (Hgen & _).
  assert (Hne : [15%Z] <> []) by discriminate.
  exact (Hgen (WithCancel 0) [15%Z] empty_world Hne).
Defined.

(** C8, as the claim has it, fails: the worker that [sum] starts selects
    on no context at any point. *)
Lemma sink_takes_no_token :
  ~ (forall inp w,
        exists g ctx, pool (sum inp w).2 = pool w ++ [g] /\ watches g ctx).
Proof.
  intros H. destruct (H 0 empty_world) as (g & ctx & Hg & Hw).
  rewrite sum_spec in Hg. simpl in Hg. injection Hg as <-.
  by apply sink_never_watches in Hw.
Qed.

(** * The merge stage taken alone *)

Lemma total_insert f (l : list goroutine) i g g' :
  l !! i = Some g -> total f (<[i := g']> l) + f g = total f l + f g'.
Proof.
  unfold total. revert i. induction l as [|a l IH]; intros i H; [done|].
  destruct i as [|i]; simpl in H.
  - injection H as ->. change (<[0 := g']> (g :: l)) with (g' :: l).
    rewrite !fmap_cons. cbn [sum_list sum_list_with]. unfold id. lia.
  - change (<[S i := g']> (a :: l)) with (a :: <[i := g']> l).
    rewrite !fmap_cons. cbn [sum_list sum_list_with].
    specialize (IH i H). unfold id in *. lia.
Qed.

Lemma total_zero f (l : list goroutine) i g :
  total f l = 0 -> l !! i = Some g -> f g = 0.
Proof.
  unfold total. revert i. induction l as [|a l IH]; intros i H0 H; [done|].
  rewrite fmap_cons in H0. cbn [sum_list sum_list_with] in H0.
  unfold id in *.
  destruct i as [|i]; simpl in H.
  - injection H as ->. lia.
  - apply (IH i); [lia|done].
Qed.

Lemma total_pos f (l : list goroutine) :
  0 < total f l -> exists i g, l !! i = Some g /\ 0 < f g.
Proof.
  unfold total. induction l as [|a l IH]; [simpl; lia|].
  rewrite fmap_cons. cbn [sum_list sum_list_with].
  unfold id in *. intros H.
  destruct (decide (0 < f a)) as [Ha|Ha].
  - by exists 0, a.
  - destruct IH as (i & g & Hi & Hg); [lia|]. by exists (S i), g.
Qed.

Lemma total_app f (l1 l2 : list goroutine) :
  total f (l1 ++ l2) = total f l1 + total f l2.
Proof. unfold total. by rewrite fmap_app, sum_list_with_app. Qed.

Lemma energy_put w i g g' :
  pool w !! i = Some g -> energy (put i g' w) + weight g = energy w + weight g'.
Proof. intros H. unfold energy, put. simpl. by apply (total_insert weight). Qed.

Lemma live_put w i g g' :
  pool w !! i = Some g ->
  live (pool (put i g' w)) + is_live g = live (pool w) + is_live g'.
Proof. intros H. unfold live, put. simpl. by apply total_insert. Qed.

Lemma live_put_chans w cs i g g' :
  pool w !! i = Some g ->
  live (pool (put i g' (set_chans cs w))) + is_live g =
  live (pool w) + is_live g'.
Proof. intros H. unfold live, put. simpl. by apply total_insert. Qed.

Lemma live_put_wgs w ws i g g' :
  pool w !! i = Some g ->
  live (pool (put i g' (set_wgs ws w))) + is_live g =
  live (pool w) + is_live g'.
Proof. intros H. unfold live, put. simpl. by apply total_insert. Qed.

Lemma live_put_tokens w ts i g g' :
  pool w !! i = Some g ->
  live (pool (put i g' (set_tokens ts w))) + is_live g =
  live (pool w) + is_live g'.
Proof. intros H. unfold live, put. simpl. by apply total_insert. Qed.

(** In its role, a thread offers what its role says. *)
Ltac role_cases Hok Ho :=
  inversion Hok; subst; simpl in Ho;
  repeat match type of Ho with
         | _ \/ _ => destruct Ho as [Ho|Ho]
         | False => destruct Ho
         end;
  try discriminate Ho.

(** Two hypotheses say of one channel that it is closed and open. *)
Ltac clash :=
  exfalso;
  match goal with
  | H1 : ?a = Some true, H2 : ?b = Some false |- _ =>
      unify a b;
      let E := fresh in
      assert (E : Some true = Some false)
        by exact (eq_trans (eq_sym H1) H2);
      discriminate E
  end.

Lemma merge_step_of_step owner N tk w ev w' :
  roles owner N tk w -> step w ev w' -> merge_step N w ev w'.
Proof.
  intros [Hp Htk Hown Hwg Hcs Hpl Hth] Hs.
  assert (Hlive : forall t g, pool w !! t = Some g -> is_live g = 1 ->
                              0 < live (pool w)).
  { intros t g Ht Hg. destruct (live (pool w)) eqn:E; [|lia].
    pose proof (total_zero is_live _ _ _ E Ht). lia. }
  destruct Hs as
      [w i j gi gj c v k kr _ Hi Ho Hj Hr Hne Hc
      |w i gi c v k _ Hi Ho Hc
      |w i gi c kr _ Hi Ho Hc
      |w i gi ctx k _ Hi Ho Hd
      |w i gi c k _ Hi Ho Hc
      |w i gi c k _ Hi Ho Hc
      |w i gi wg k n _ Hi Ho Hw Hn
      |w i gi wg k n _ Hi Ho Hw Hn
      |w i gi wg k _ Hi Ho Hw
      |w i gi tok k _ Hi Ho Ht'].
  - pose proof (Hth _ _ Hi) as Hoki. pose proof (Hth _ _ Hj) as Hokj.
    role_cases Hoki Ho; simplify_eq;
      role_cases Hokj Hr; simplify_eq; try lia.
    + by apply ms_feed.
    + by apply ms_forward.
  - exfalso. pose proof (Hth _ _ Hi) as Hoki.
    role_cases Hoki Ho; simplify_eq; try clash.
    pose proof (Hlive _ _ Hi eq_refl) as Hl.
    destruct (pool w !! (2 * c)) as [gc|] eqn:E.
    + pose proof (Hth _ _ E) as Hcl.
      inversion Hcl; subst; try lia; clash.
    + apply lookup_ge_None in E. lia.
  - pose proof (Hth _ _ Hi) as Hoki.
    role_cases Hoki Ho; simplify_eq; try clash.
    + by apply ms_input_closed.
    + by apply ms_drained.
  - pose proof (Hth _ _ Hi) as Hoki.
    role_cases Hoki Ho; simplify_eq; try clash.
    eapply ms_cancelled; [done..|].
    unfold ctx_done in Hd. rewrite Htk in Hd. simpl in Hd. by subst.
  - pose proof (Hth _ _ Hi) as Hoki.
    role_cases Hoki Ho; simplify_eq; try clash.
    + by apply ms_input_close.
    + by apply ms_close.
  - exfalso. pose proof (Hth _ _ Hi) as Hoki.
    role_cases Hoki Ho; simplify_eq; try clash.
  - pose proof (Hth _ _ Hi) as Hoki.
    role_cases Hoki Ho; simplify_eq; try clash.
    replace (<[0 := (n - 1)%Z]> (wgs w)) with [(n - 1)%Z]
      by (by rewrite Hwg).
    rewrite Hwg in Hw. simpl in Hw. simplify_eq.
    by eapply ms_done.
  - exfalso. pose proof (Hth _ _ Hi) as Hoki.
    role_cases Hoki Ho; simplify_eq; try clash.
    rewrite Hwg in Hw. simpl in Hw. simplify_eq.
    pose proof (Hlive _ _ Hi eq_refl). lia.
  - pose proof (Hth _ _ Hi) as Hoki.
    role_cases Hoki Ho; simplify_eq; try clash.
    apply ms_wait; [done|]. rewrite Hwg in Hw |- *. simpl in Hw.
    injection Hw as Hw. by rewrite Hw.
  - pose proof (Hth _ _ Hi) as Hoki.
    role_cases Hoki Ho; simplify_eq; try clash.
    replace (<[0 := true]> (tokens w)) with [true] by (by rewrite Htk).
    apply ms_cancel; [done|]. by rewrite Htk.
Qed.

Lemma merge_step_is_step N w ev w' :
  panicked w = false -> merge_step N w ev w' -> step w ev w'.
Proof.
  intros Hp Hs. destruct Hs as
      [i v rest Hi Hprod Hfwd Hc
      |i n Hi Hfwd Hdr Hc
      |i Hi Hprod Hc
      |i Hi Hfwd Hc
      |i n Hi Hfwd Htk
      |i n Hi Hfwd Hwg Hn
      |Hcl Hwg
      |Hcl Hc
      |Hdr Hc
      |Hcan Htk].
  - eapply (step_send w i (N + i) _ _ i v (Producer i rest)
              (fun r => match r with
                        | Some n => FwdSelect (WithCancel 0) i N 0 n
                        | None => FwdDone 0
                        end)); eauto; [by left|by left|lia].
  - eapply (step_send w (N + i) (2 * N + 1) _ _ N n
              (FwdRange (WithCancel 0) i N 0)
              (fun r => match r with
                        | Some _ => Drain N
                        | None => Exited
                        end)); eauto; [by left|by left|lia].
  - eapply step_close; eauto. by left.
  - eapply (step_recv_closed w (N + i) _ i
              (fun r => match r with
                        | Some n => FwdSelect (WithCancel 0) i N 0 n
                        | None => FwdDone 0
                        end)); eauto. by left.
  - eapply step_done; eauto; [by right; left|].
    unfold ctx_done. by rewrite Htk.
  - replace [(n - 1)%Z] with (<[0 := (n - 1)%Z]> (wgs w)) by (by rewrite Hwg).
    eapply step_wg_done; eauto; [by left|by rewrite Hwg].
  - eapply step_wg_wait; eauto; [by left|by rewrite Hwg].
  - eapply step_close; eauto. by left.
  - eapply (step_recv_closed w (2 * N + 1) _ N
              (fun r => match r with
                        | Some _ => Drain N
                        | None => Exited
                        end)); eauto. by left.
  - replace [true] with (<[0 := true]> (tokens w)) by (by rewrite Htk).
    eapply step_cancel; eauto; [by left|]. rewrite Htk. simpl. lia.
Qed.

Lemma merge_step_energy N w ev w' :
  merge_step N w ev w' -> energy w' < energy w.
Proof.
  intros Hs. destruct Hs as
      [i v rest Hi Hprod Hfwd Hc
      |i n Hi Hfwd Hdr Hc
      |i Hi Hprod Hc
      |i Hi Hfwd Hc
      |i n Hi Hfwd Htk
      |i n Hi Hfwd Hwg Hn
      |Hcl Hwg
      |Hcl Hc
      |Hdr Hc
      |Hcan Htk].
  - assert (pool (put i (Producer i rest) w) !! (N + i) =
            Some (FwdRange (WithCancel 0) i N 0)) as H2
      by (rewrite put_lookup_ne by lia; done).
    pose proof (energy_put _ _ _ (FwdSelect (WithCancel 0) i N 0 v) H2).
    pose proof (energy_put _ _ _ (Producer i rest) Hprod).
    unfold energy in *; simpl in *. lia.
  - assert (pool (put (N + i) (FwdRange (WithCancel 0) i N 0) w)
              !! (2 * N + 1) = Some (Drain N)) as H2
      by (rewrite put_lookup_ne by lia; done).
    pose proof (energy_put _ _ _ (Drain N) H2).
    pose proof (energy_put _ _ _ (FwdRange (WithCancel 0) i N 0) Hfwd).
    unfold energy in *; simpl in *. lia.
  - pose proof (energy_put (set_chans (<[i := true]> (chans w)) w)
                  _ _ Exited Hprod). unfold energy in *; simpl in *. lia.
  - pose proof (energy_put _ _ _ (FwdDone 0) Hfwd). unfold energy in *; simpl in *. lia.
  - pose proof (energy_put _ _ _ (FwdDone 0) Hfwd). unfold energy in *; simpl in *. lia.
  - pose proof (energy_put (set_wgs [(n - 1)%Z] w) _ _ Exited Hfwd).
    unfold energy in *; simpl in *. lia.
  - pose proof (energy_put _ _ _ (MergeClose N) Hcl). unfold energy in *; simpl in *. lia.
  - pose proof (energy_put (set_chans (<[N := true]> (chans w)) w)
                  _ _ Exited Hcl). unfold energy in *; simpl in *. lia.
  - pose proof (energy_put _ _ _ Exited Hdr). unfold energy in *; simpl in *. lia.
  - pose proof (energy_put (set_tokens [true] w) _ _ Exited Hcan).
    unfold energy in *; simpl in *. lia.
Qed.

Lemma thread_ok_frame N cs cs' lv lv' tk tk' t g :
  thread_ok N cs lv tk t g ->
  (forall c, cs !! c = Some true -> cs' !! c = Some true) ->
  (forall c, cs !! c = Some false -> c <= N -> opener N c = t ->
             cs' !! c = Some false) ->
  lv' <= lv ->
  (tk = true -> tk' = true) ->
  (t = 2 * N + 2 -> tk' = tk) ->
  thread_ok N cs' lv' tk' t g.
Proof.
  intros Hok Hclosed Hopen Hlv Htk Hown.
  assert (Hor : forall i, cs !! i = Some true \/ tk = true ->
                          cs' !! i = Some true \/ tk' = true)
    by (intros i [H|H]; auto).
  assert (Hop : forall c, c < N -> cs !! c = Some false -> c = t ->
                          cs' !! c = Some false).
  { intros c Hc H Ht. apply Hopen; [done|lia|].
    unfold opener. rewrite decide_False by lia. done. }
  assert (HopN : cs !! N = Some false -> 2 * N = t -> cs' !! N = Some false).
  { intros H Ht. apply Hopen; [done|lia|].
    unfold opener. by rewrite decide_True. }
  destruct Hok;
    [apply ok_prod_send|apply ok_prod_close|apply ok_prod_exit
    |apply ok_fwd_range|apply ok_fwd_select|apply ok_fwd_done
    |apply ok_fwd_exit|apply ok_wait|apply ok_close|apply ok_closed
    |apply ok_drain|apply ok_drained|apply ok_owner|apply ok_owner_exit];
    auto; try lia; try (rewrite Hown by done; done).
Qed.

Lemma roles_frame owner N tk tk' w w' :
  roles owner N tk w ->
  panicked w' = false -> tokens w' = [tk'] -> (owner = false -> tk' = false) ->
  wgs w' = [Z.of_nat (live (pool w'))] ->
  length (chans w') = S N -> length (pool w') = length (pool w) ->
  live (pool w') <= live (pool w) ->
  (tk = true -> tk' = true) ->
  (forall c, chans w !! c = Some true -> chans w' !! c = Some true) ->
  (forall t g,
      pool w' !! t = Some g ->
      thread_ok N (chans w') (live (pool w')) tk' t g \/
      pool w !! t = Some g /\
      (forall c, chans w !! c = Some false -> c <= N -> opener N c = t ->
                 chans w' !! c = Some false) /\
      (t = 2 * N + 2 -> tk' = tk)) ->
  roles owner N tk' w'.
Proof.
  intros [Hp Htk Hown Hwg Hcs Hpl Hth] Hp' Htk' Hown' Hwg' Hcs' Hpl' Hlv Hmono
         Hclosed Hthreads.
  split; try done; [by rewrite Hpl'|].
  intros t g Ht. destruct (Hthreads t g Ht) as [Hnew|(Hold & Hopen & Ho)];
    [done|].
  eapply thread_ok_frame; eauto.
Qed.

Lemma put2_lookup w i j gi gj t g :
  pool (put j gj (put i gi w)) !! t = Some g ->
  j = t /\ g = gj \/ j <> t /\ i = t /\ g = gi \/
  j <> t /\ i <> t /\ pool w !! t = Some g.
Proof.
  unfold put. simpl. rewrite list_lookup_insert_Some.
  intros [(-> & <- & _)|[Hne H]]; [auto|].
  apply list_lookup_insert_Some in H as [(-> & <- & _)|[Hne' H]]; auto.
Qed.

Lemma put1_lookup w i gi t g :
  pool (put i gi w) !! t = Some g ->
  i = t /\ g = gi \/ i <> t /\ pool w !! t = Some g.
Proof.
  unfold put. simpl. rewrite list_lookup_insert_Some.
  intros [(-> & <- & _)|[Hne H]]; auto.
Qed.

Lemma closed_insert (cs : list bool) c x :
  cs !! x = Some true -> <[c := true]> cs !! x = Some true.
Proof.
  intros H. destruct (decide (c = x)) as [->|Hne].
  - apply list_lookup_insert_eq. by eapply lookup_lt_Some.
  - by rewrite list_lookup_insert_ne.
Qed.

Lemma roles_step owner N tk w ev w' :
  roles owner N tk w -> merge_step N w ev w' ->
  exists tk', roles owner N tk' w' /\ (tk = true -> tk' = true).
Proof.
  intros Hr Hs. pose proof Hr as [Hp Htk Hown Hwg Hcs Hpl Hth].
  assert (Hlen : forall i g (w0 : world),
             length (pool w0) = length (pool w) ->
             length (pool (put i g w0)) = length (pool w))
    by (intros; unfold put; simpl; by rewrite length_insert).
  destruct Hs as
      [i v rest Hi Hprod Hfwd Hc
      |i n Hi Hfwd Hdr Hc
      |i Hi Hprod Hc
      |i Hi Hfwd Hc
      |i n Hi Hfwd Htk1
      |i n Hi Hfwd Hwg1 Hn
      |Hcl Hwg1
      |Hcl Hc
      |Hdr Hc
      |Hcan Htk1].
  - (* a producer hands a value to its forwarding worker *)
    assert (pool (put i (Producer i rest) w) !! (N + i) =
            Some (FwdRange (WithCancel 0) i N 0)) as H2
      by (rewrite put_lookup_ne by lia; done).
    pose proof (live_put _ _ _ (FwdSelect (WithCancel 0) i N 0 v) H2) as L2.
    pose proof (live_put _ _ _ (Producer i rest) Hprod) as L1.
    cbn [is_live] in L1, L2.
    assert (live (pool (put (N + i) (FwdSelect (WithCancel 0) i N 0 v)
                            (put i (Producer i rest) w))) = live (pool w))
      as HL by lia.
    exists tk. split; [|done].
    apply (roles_frame owner N tk tk w _ Hr);
      [exact Hp|exact Htk|exact Hown|rewrite HL; exact Hwg|exact Hcs
      |by apply Hlen, Hlen|lia|done|done|].
    intros t g Ht. apply put2_lookup in Ht
      as [[<- ->]|[(_ & <- & ->)|(Hn1 & Hn2 & Ht)]].
    + left. by apply ok_fwd_select.
    + left. destruct rest; [by apply ok_prod_close|by apply ok_prod_send].
    + right. auto.
  - (* the worker hands the value to the consumer *)
    assert (pool (put (N + i) (FwdRange (WithCancel 0) i N 0) w)
              !! (2 * N + 1) = Some (Drain N)) as H2
      by (rewrite put_lookup_ne by lia; done).
    pose proof (live_put _ _ _ (Drain N) H2) as L2.
    pose proof (live_put _ _ _ (FwdRange (WithCancel 0) i N 0) Hfwd) as L1.
    cbn [is_live] in L1, L2.
    assert (live (pool (put (2 * N + 1) (Drain N)
                            (put (N + i) (FwdRange (WithCancel 0) i N 0) w)))
            = live (pool w)) as HL by lia.
    exists tk. split; [|done].
    apply (roles_frame owner N tk tk w _ Hr);
      [exact Hp|exact Htk|exact Hown|rewrite HL; exact Hwg|exact Hcs
      |by apply Hlen, Hlen|lia|done|done|].
    intros t g Ht. apply put2_lookup in Ht
      as [[<- ->]|[(_ & <- & ->)|(Hn1 & Hn2 & Ht)]].
    + left. apply ok_drain.
    + left. by apply ok_fwd_range.
    + right. auto.
  - (* a producer closes its channel *)
    pose proof (live_put_chans w (<[i := true]> (chans w))
                  _ _ Exited Hprod) as L1. cbn [is_live] in L1.
    assert (live (pool (put i Exited (set_chans (<[i := true]> (chans w)) w)))
            = live (pool w)) as HL by lia.
    exists tk. split; [|done].
    apply (roles_frame owner N tk tk w _ Hr);
      [exact Hp|exact Htk|exact Hown|rewrite HL; exact Hwg
      |simpl; by rewrite length_insert|by apply Hlen|lia|done
      |intros c Hc'; simpl; by apply closed_insert|].
    intros t g Ht. apply put1_lookup in Ht as [[<- ->]|[Hne Ht]].
    + left. apply ok_prod_exit; [done|]. simpl.
      apply list_lookup_insert_eq. by eapply lookup_lt_Some.
    + right. split; [done|]. split; [|done].
      intros c Hc' Hle Hop. simpl.
      rewrite list_lookup_insert_ne; [done|].
      intros <-. unfold opener in Hop.
      rewrite decide_False in Hop by lia. done.
  - (* the worker finds its channel closed *)
    pose proof (live_put _ _ _ (FwdDone 0) Hfwd) as L1. cbn [is_live] in L1.
    assert (live (pool (put (N + i) (FwdDone 0) w)) = live (pool w))
      as HL by lia.
    exists tk. split; [|done].
    apply (roles_frame owner N tk tk w _ Hr);
      [exact Hp|exact Htk|exact Hown|rewrite HL; exact Hwg|exact Hcs
      |by apply Hlen|lia|done|done|].
    intros t g Ht. apply put1_lookup in Ht as [[<- ->]|[Hne Ht]].
    + left. apply ok_fwd_done; auto.
    + right. auto.
  - (* the worker takes the cancellation case *)
    pose proof (live_put _ _ _ (FwdDone 0) Hfwd) as L1. cbn [is_live] in L1.
    assert (live (pool (put (N + i) (FwdDone 0) w)) = live (pool w))
      as HL by lia.
    assert (tk = true) as Etk by (rewrite Htk in Htk1; by injection Htk1).
    exists tk. split; [|done].
    apply (roles_frame owner N tk tk w _ Hr);
      [exact Hp|exact Htk|exact Hown|rewrite HL; exact Hwg|exact Hcs
      |by apply Hlen|lia|done|done|].
    intros t g Ht. apply put1_lookup in Ht as [[<- ->]|[Hne Ht]].
    + left. apply ok_fwd_done; auto.
    + right. auto.
  - (* the worker calls wg.Done() *)
    pose proof (live_put_wgs w [(n - 1)%Z] _ _ Exited Hfwd) as L1.
    cbn [is_live] in L1. rewrite Hwg in Hwg1. injection Hwg1 as <-.
    pose proof (Hth _ _ Hfwd) as Hok.
    exists tk. split; [|done].
    apply (roles_frame owner N tk tk w _ Hr);
      [exact Hp|exact Htk|exact Hown
      |change (wgs (put (N + i) Exited
                        (set_wgs [(Z.of_nat (live (pool w)) - 1)%Z] w)))
         with [(Z.of_nat (live (pool w)) - 1)%Z]; f_equal; lia
      |exact Hcs|by apply Hlen|lia|done|done|].
    intros t g Ht. apply put1_lookup in Ht as [[<- ->]|[Hne Ht]].
    + left. inversion Hok; subst; try lia.
      match goal with
      | H : N + ?j = N + i |- _ => assert (j = i) as -> by lia
      end.
      by apply ok_fwd_exit.
    + right. auto.
  - (* wg.Wait() returns *)
    pose proof (live_put _ _ _ (MergeClose N) Hcl) as L1. cbn [is_live] in L1.
    assert (live (pool (put (2 * N) (MergeClose N) w)) = live (pool w))
      as HL by lia.
    pose proof (Hth _ _ Hcl) as Hok.
    rewrite Hwg in Hwg1. injection Hwg1 as Hz.
    exists tk. split; [|done].
    apply (roles_frame owner N tk tk w _ Hr);
      [exact Hp|exact Htk|exact Hown|rewrite HL; exact Hwg|exact Hcs
      |by apply Hlen|lia|done|done|].
    intros t g Ht. apply put1_lookup in Ht as [[<- ->]|[Hne Ht]].
    + left. apply ok_close; [|lia].
      inversion Hok; subst; try lia; done.
    + right. auto.
  - (* the closing goroutine closes the merged channel *)
    pose proof (live_put_chans w (<[N := true]> (chans w))
                  _ _ Exited Hcl) as L1. cbn [is_live] in L1.
    assert (live (pool (put (2 * N) Exited
                            (set_chans (<[N := true]> (chans w)) w)))
            = live (pool w)) as HL by lia.
    pose proof (Hth _ _ Hcl) as Hok.
    exists tk. split; [|done].
    apply (roles_frame owner N tk tk w _ Hr);
      [exact Hp|exact Htk|exact Hown|rewrite HL; exact Hwg
      |simpl; by rewrite length_insert|by apply Hlen|lia|done
      |intros c Hc'; simpl; by apply closed_insert|].
    intros t g Ht. apply put1_lookup in Ht as [[<- ->]|[Hne Ht]].
    + left. apply ok_closed.
      * simpl. apply list_lookup_insert_eq. by eapply lookup_lt_Some.
      * rewrite HL. inversion Hok; subst; try lia.
    + right. split; [done|]. split; [|done].
      intros c Hc' Hle Hop. simpl.
      rewrite list_lookup_insert_ne; [done|].
      intros <-. unfold opener in Hop.
      rewrite decide_True in Hop by done. done.
  - (* the consumer finds the merged channel closed *)
    pose proof (live_put _ _ _ Exited Hdr) as L1. cbn [is_live] in L1.
    assert (live (pool (put (2 * N + 1) Exited w)) = live (pool w))
      as HL by lia.
    exists tk. split; [|done].
    apply (roles_frame owner N tk tk w _ Hr);
      [exact Hp|exact Htk|exact Hown|rewrite HL; exact Hwg|exact Hcs
      |by apply Hlen|lia|done|done|].
    intros t g Ht. apply put1_lookup in Ht as [[<- ->]|[Hne Ht]].
    + left. by apply ok_drained.
    + right. auto.
  - (* the owner triggers the token *)
    pose proof (live_put_tokens w [true] _ _ Exited Hcan) as L1.
    cbn [is_live] in L1.
    assert (live (pool (put (2 * N + 2) Exited (set_tokens [true] w)))
            = live (pool w)) as HL by lia.
    assert (owner = true) as Ho.
    { destruct owner; [done|]. apply lookup_lt_Some in Hcan. lia. }
    exists true. split; [|done].
    apply (roles_frame owner N tk true w _ Hr);
      [exact Hp|reflexivity|by rewrite Ho|rewrite HL; exact Hwg|exact Hcs
      |by apply Hlen|lia|done|done|].
    intros t g Ht. apply put1_lookup in Ht as [[<- ->]|[Hne Ht]].
    + left. by apply ok_owner_exit.
    + right. split; [done|]. split; [done|]. intros ->. done.
Qed.

(** ** Progress: while the merged channel is open, some step is enabled *)

Lemma merge_progress owner N tk w :
  roles owner N tk w -> chans w !! N = Some false ->
  exists ev w', merge_step N w ev w'.
Proof.
  intros [Hp Htk Hown Hwg Hcs Hpl Hth] Hopen.
  assert (Hget : forall t, t < 2 * N + 2 -> exists g, pool w !! t = Some g).
  { intros t Ht. apply lookup_lt_is_Some. lia. }
  destruct (Hget (2 * N)) as [gc Hgc]; [lia|].
  destruct (Hget (2 * N + 1)) as [gd Hgd]; [lia|].
  pose proof (Hth _ _ Hgc) as Hokc. pose proof (Hth _ _ Hgd) as Hokd.
  inversion Hokc; subst; try lia; try clash.
  2: { eexists _, _. by apply ms_close. }
  destruct (decide (live (pool w) = 0)) as [Hz|Hnz].
  { eexists _, _. apply ms_wait; [done|]. by rewrite Hwg, Hz. }
  destruct (total_pos is_live (pool w)) as (t & g & Ht & Hg);
    [unfold live in Hnz; lia|].
  pose proof (Hth _ _ Ht) as Hokt.
  inversion Hokt; subst; simpl in Hg; try lia.
  - (* at its range *)
    destruct (Hget i) as [gp Hgp]; [lia|].
    pose proof (Hth _ _ Hgp) as Hokp.
    inversion Hokp; subst; try lia.
    + eexists _, _. by eapply ms_feed.
    + eexists _, _. by eapply ms_input_close.
    + eexists _, _. by eapply ms_input_closed.
  - (* at its select *)
    inversion Hokd; subst; try lia; try clash.
    eexists _, _. by eapply ms_forward.
  - (* at its deferred wg.Done() *)
    eexists _, _. eapply ms_done; [done|done|exact Hwg|].
    unfold live in *. lia.
Qed.

Lemma merge_stuck_closed owner N tk w :
  roles owner N tk w -> stuck w -> is_closed w N = true.
Proof.
  intros Hr Hst. pose proof Hr as [Hp Htk Hown Hwg Hcs Hpl Hth].
  change (default false (chans w !! N) = true).
  destruct (chans w !! N) as [[]|] eqn:E; [reflexivity| |].
  - destruct (merge_progress _ _ _ _ Hr E) as (ev & w' & Hs).
    exfalso. apply (Hst ev w'). by apply merge_step_is_step with (N := N).
  - apply lookup_ge_None in E. lia.
Qed.

(** ** The start of the merge stage *)

Lemma feed_all_spec valss w :
  feed_all valss w =
  (seq (length (chans w)) (length valss),
   World (pool w ++
          imap (fun i vals => Producer (length (chans w) + i) vals) valss)
         (chans w ++ replicate (length valss) false)
         (tokens w) (wgs w) (panicked w)).
Proof.
  revert w. induction valss as [|vals valss IH]; intros w.
  - destruct w. simpl. unfold ret. simpl. by rewrite !app_nil_r.
  - cbn [feed_all]. unfold bind at 1.
    change (feed vals w) with
      (length (chans w),
       World (pool w ++ [Producer (length (chans w)) vals])
             (chans w ++ [false]) (tokens w) (wgs w) (panicked w)).
    cbv beta iota. unfold bind. rewrite IH. unfold ret. cbn [fst snd].
    cbn [pool chans tokens wgs panicked length imap replicate seq].
    rewrite length_app. simpl length. f_equal.
    + f_equal. by rewrite Nat.add_1_r.
    + f_equal; [|by rewrite <- app_assoc].
      rewrite <- app_assoc. f_equal. simpl. rewrite Nat.add_0_r. f_equal.
      apply imap_ext. intros i x _. simpl. f_equal. lia.
Qed.

Lemma merge_stage_run owner valss :
  run (merge_stage owner valss) = merge_start owner valss.
Proof.
  unfold run, merge_stage, bind, with_cancel. cbn [fst snd].
  rewrite feed_all_spec. cbv beta iota. rewrite merge_spec.
  cbv beta iota. unfold go, ret, set_pool. cbn [fst snd].
  cbn [pool chans tokens wgs panicked empty_world set_tokens app length].
  rewrite length_replicate, length_seq.
  unfold merge_start. destruct owner; simpl; rewrite <- ?app_assoc; simpl;
    f_equal.
Qed.

Lemma total_all f (l : list goroutine) k :
  (forall i g, l !! i = Some g -> f g = k) -> total f l = k * length l.
Proof.
  unfold total. induction l as [|a l IH]; intros H; [simpl; lia|].
  rewrite fmap_cons. cbn [sum_list_with length]. unfold id in *.
  rewrite IH by (intros i g Hi; apply (H (S i)); done).
  rewrite (H 0 a) by done. lia.
Qed.

Lemma map_fmap {A B} (f : A -> B) (l : list A) : map f l = f <$> l.
Proof. induction l as [|a l IH]; [done|]. simpl. by rewrite IH. Qed.

Lemma merge_start_lookup owner valss t g :
  pool (merge_start owner valss) !! t = Some g ->
  let N := length valss in
  (exists vals, valss !! t = Some vals /\ g = Producer t vals) \/
  (exists i, i < N /\ t = N + i /\ g = FwdRange (WithCancel 0) i N 0) \/
  (t = 2 * N /\ g = MergeWait 0 N) \/
  (t = 2 * N + 1 /\ g = Drain N) \/
  (t = 2 * N + 2 /\ g = Canceller 0 /\ owner = true).
Proof.
  intros H N. unfold merge_start in H. cbn [pool] in H. fold N in H.
  apply lookup_app_Some in H as [H|[Hge H]].
  { left. rewrite list_lookup_imap in H.
    apply fmap_Some in H as (vals & Hv & ->). by exists vals. }
  rewrite length_imap in Hge. fold N in Hge.
  rewrite length_imap in H. fold N in H.
  apply lookup_app_Some in H as [H|[Hge2 H]].
  { right. left. rewrite map_fmap, list_lookup_fmap in H.
    apply fmap_Some in H as (c & E & ->).
    apply lookup_seq in E as [-> Hlt]. exists (t - N).
    split; [done|]. split; [lia|done]. }
  rewrite length_map, length_seq in Hge2, H.
  right. right.
  destruct (t - N - N) as [|[|[|k]]] eqn:E; simpl in H.
  - left. injection H as <-. split; [lia|done].
  - right. left. injection H as <-. split; [lia|done].
  - right. right. destruct owner; [|discriminate].
    injection H as <-. split; [lia|done].
  - destruct owner; discriminate.
Qed.

Lemma merge_start_live owner valss :
  live (pool (merge_start owner valss)) = length valss.
Proof.
  unfold merge_start, live. cbn [pool]. rewrite !total_app.
  rewrite (total_all is_live (imap _ _) 0).
  2: { intros i g H. rewrite list_lookup_imap in H.
       by apply fmap_Some in H as (vals & _ & ->). }
  rewrite (total_all is_live (map _ _) 1).
  2: { intros i g H. rewrite map_fmap, list_lookup_fmap in H.
       by apply fmap_Some in H as (c & _ & ->). }
  rewrite length_map, length_seq.
  assert (total is_live [MergeWait 0 (length valss); Drain (length valss)] = 0)
    as -> by reflexivity.
  assert (total is_live (if owner then [Canceller 0] else []) = 0) as ->
    by (by destruct owner).
  lia.
Qed.

Lemma roles_init owner valss :
  roles owner (length valss) false (merge_start owner valss).
Proof.
  split.
  - reflexivity.
  - reflexivity.
  - done.
  - rewrite merge_start_live. reflexivity.
  - unfold merge_start. cbn [chans].
    rewrite length_app, length_replicate. simpl. lia.
  - unfold merge_start. cbn [pool].
    rewrite !length_app, length_imap, length_map, length_seq.
    destruct owner; simpl; lia.
  - intros t g Ht. rewrite merge_start_live.
    assert (Hopen : forall c, c <= length valss ->
                              chans (merge_start owner valss) !! c = Some false).
    { intros c Hc. unfold merge_start. cbn [chans].
      destruct (decide (c < length valss)) as [Hlt|Hge].
      - rewrite lookup_app_l by (by rewrite length_replicate).
        by apply lookup_replicate_2.
      - rewrite lookup_app_r by (rewrite length_replicate; lia).
        rewrite length_replicate.
        by replace (c - length valss) with 0 by lia. }
    apply merge_start_lookup in Ht
      as [(vals & Hv & ->)|[(i & Hi & -> & ->)|[[-> ->]|[[-> ->]|(-> & -> & _)]]]].
    + apply lookup_lt_Some in Hv as Hlt.
      destruct vals; [apply ok_prod_close|apply ok_prod_send];
        auto; apply Hopen; lia.
    + by apply ok_fwd_range.
    + apply ok_wait. by apply Hopen.
    + apply ok_drain.
    + by apply ok_owner.
Qed.

Lemma roles_steps owner valss tr w :
  steps (run (merge_stage owner valss)) tr w ->
  (exists tk, roles owner (length valss) tk w) /\
  length tr + energy w <= energy (run (merge_stage owner valss)).
Proof.
  induction 1 as [|tr w1 ev w2 _ [[tk IH] Hb] Hs].
  - split; [|simpl; lia]. exists false. rewrite merge_stage_run.
    apply roles_init.
  - pose proof (merge_step_of_step _ _ _ _ _ _ IH Hs) as Hm.
    destruct (roles_step _ _ _ _ _ _ IH Hm) as (tk' & Hr & _).
    pose proof (merge_step_energy _ _ _ _ Hm).
    split; [by exists tk'|]. rewrite length_app. simpl. lia.
Qed.

(** ** The values that flow through the merge stage *)

Lemma merge_step_event N w ev w' : merge_step N w ev w' -> event_ok N ev.
Proof.
  destruct 1; simpl; unfold opener; try case_decide; try lia; auto.
Qed.

Lemma hold_ok_mono g tk tk' h :
  hold_ok g tk h -> (tk = true -> tk' = true) -> hold_ok g tk' h.
Proof.
  intros H Hm. destruct g as [[]|]; simpl in *; try done;
    destruct H; auto.
Qed.

Lemma flow_frame N tk tk' tr w w' ev j vals :
  flow N tk tr w j vals ->
  sent_by (N + j) [ev] = [] ->
  pending (pool w' !! j) = pending (pool w !! j) ->
  (forall h, hold_ok (pool w !! (N + j)) tk h ->
             hold_ok (pool w' !! (N + j)) tk' h) ->
  flow N tk' (tr ++ [ev]) w' j vals.
Proof.
  intros (h & Hv & Hh) Hs Hp Hk. exists h.
  rewrite sent_by_app, Hs, app_nil_r, Hp. auto.
Qed.

Lemma lookup_put_eq w i g g0 :
  pool w !! i = Some g0 -> pool (put i g w) !! i = Some g.
Proof. intros H. apply put_lookup_eq. by eapply lookup_lt_Some. Qed.

Lemma sent_by_other t c v a b : a <> t -> sent_by t [EvSend c v a b] = [].
Proof. intros H. simpl. by rewrite decide_False. Qed.

Lemma flows_step owner valss tk tk' tr w ev w' :
  roles owner (length valss) tk w ->
  (forall i vals, valss !! i = Some vals ->
                  flow (length valss) tk tr w i vals) ->
  merge_step (length valss) w ev w' ->
  (tk = true -> tk' = true) ->
  forall i vals, valss !! i = Some vals ->
                 flow (length valss) tk' (tr ++ [ev]) w' i vals.
Proof.
  intros Hr Hfl Hs Hm j vals Hv.
  pose proof (Hfl j vals Hv) as Hj.
  apply lookup_lt_Some in Hv as Hlt.
  pose proof Hr as [Hp Htk Hown Hwg Hcs Hpl Hth].
  set (N := length valss) in *.
  destruct Hs as
      [i v rest Hi Hprod Hfwd Hc
      |i n Hi Hfwd Hdr Hc
      |i Hi Hprod Hc
      |i Hi Hfwd Hc
      |i n Hi Hfwd Htk1
      |i n Hi Hfwd Hwg1 Hn
      |Hcl Hwg1
      |Hcl Hc
      |Hdr Hc
      |Hcan Htk1].
  - (* a producer hands a value to its forwarding worker *)
    destruct (decide (j = i)) as [->|Hne].
    + destruct Hj as (h & Hvals & Hh). rewrite Hfwd in Hh. simpl in Hh.
      subst h. rewrite Hprod in Hvals. simpl in Hvals.
      exists [v]. rewrite sent_by_app, sent_by_other by lia.
      rewrite app_nil_r.
      rewrite (put_lookup_ne (N + i) i) by lia.
      rewrite (lookup_put_eq _ _ _ _ Hprod).
      rewrite (lookup_put_eq (put i (Producer i rest) w) (N + i) _
                 (FwdRange (WithCancel 0) i N 0))
        by (rewrite put_lookup_ne by lia; done).
      split; [done|]. reflexivity.
    + eapply flow_frame; [exact Hj|by apply sent_by_other; lia|..].
      * by rewrite !put_lookup_ne by lia.
      * intros h Hh. rewrite !put_lookup_ne by lia.
        by eapply hold_ok_mono.
  - (* the worker hands the value to the consumer *)
    destruct (decide (j = i)) as [->|Hne].
    + destruct Hj as (h & Hvals & Hh). rewrite Hfwd in Hh. simpl in Hh.
      subst h. exists [].
      rewrite sent_by_app. simpl sent_by at 2.
      rewrite decide_True by done.
      rewrite !put_lookup_ne by lia.
      rewrite (lookup_put_eq _ _ _ _ Hfwd).
      split; [by rewrite <- app_assoc|reflexivity].
    + eapply flow_frame; [exact Hj|by apply sent_by_other; lia|..].
      * by rewrite !put_lookup_ne by lia.
      * intros h Hh. rewrite !put_lookup_ne by lia.
        by eapply hold_ok_mono.
  - (* a producer closes its channel *)
    eapply flow_frame; [exact Hj|reflexivity|..].
    + destruct (decide (j = i)) as [->|Hne].
      * rewrite (lookup_put_eq (set_chans _ w) _ _ _ Hprod).
        by rewrite Hprod.
      * by rewrite put_lookup_ne by lia.
    + intros h Hh. rewrite put_lookup_ne by lia. by eapply hold_ok_mono.
  - (* the worker finds its channel closed *)
    eapply flow_frame; [exact Hj|reflexivity|..].
    + by rewrite put_lookup_ne by lia.
    + intros h Hh. destruct (decide (j = i)) as [->|Hne].
      * rewrite (lookup_put_eq _ _ _ _ Hfwd). rewrite Hfwd in Hh.
        simpl in *. auto.
      * rewrite put_lookup_ne by lia. by eapply hold_ok_mono.
  - (* the worker takes the cancellation case *)
    assert (tk = true) as Etk by (rewrite Htk in Htk1; by injection Htk1).
    eapply flow_frame; [exact Hj|reflexivity|..].
    + by rewrite put_lookup_ne by lia.
    + intros h Hh. destruct (decide (j = i)) as [->|Hne].
      * rewrite (lookup_put_eq _ _ _ _ Hfwd). simpl. auto.
      * rewrite put_lookup_ne by lia. by eapply hold_ok_mono.
  - (* the worker calls wg.Done() *)
    eapply flow_frame; [exact Hj|reflexivity|..].
    + by rewrite put_lookup_ne by lia.
    + intros h Hh. destruct (decide (j = i)) as [->|Hne].
      * rewrite (lookup_put_eq (set_wgs _ w) _ _ _ Hfwd).
        rewrite Hfwd in Hh. simpl in *. destruct Hh; auto.
      * rewrite put_lookup_ne by lia. by eapply hold_ok_mono.
  - eapply flow_frame; [exact Hj|reflexivity|..].
    + by rewrite put_lookup_ne by lia.
    + intros h Hh. rewrite put_lookup_ne by lia. by eapply hold_ok_mono.
  - eapply flow_frame; [exact Hj|reflexivity|..].
    + by rewrite put_lookup_ne by lia.
    + intros h Hh. rewrite put_lookup_ne by lia. by eapply hold_ok_mono.
  - eapply flow_frame; [exact Hj|reflexivity|..].
    + by rewrite put_lookup_ne by lia.
    + intros h Hh. rewrite put_lookup_ne by lia. by eapply hold_ok_mono.
  - eapply flow_frame; [exact Hj|reflexivity|..].
    + by rewrite put_lookup_ne by lia.
    + intros h Hh. rewrite put_lookup_ne by lia. by eapply hold_ok_mono.
Qed.

Lemma merge_start_producer owner valss i vals :
  valss !! i = Some vals ->
  pool (merge_start owner valss) !! i = Some (Producer i vals).
Proof.
  intros H. unfold merge_start. cbn [pool].
  rewrite lookup_app_l by (rewrite length_imap; by eapply lookup_lt_Some).
  rewrite list_lookup_imap. apply fmap_Some. by exists vals.
Qed.

Lemma merge_start_forwarder owner valss i :
  i < length valss ->
  pool (merge_start owner valss) !! (length valss + i) =
  Some (FwdRange (WithCancel 0) i (length valss) 0).
Proof.
  intros H. unfold merge_start. cbn [pool].
  rewrite lookup_app_r by (rewrite length_imap; lia).
  rewrite length_imap.
  rewrite lookup_app_l by (rewrite length_map, length_seq; lia).
  rewrite map_fmap, list_lookup_fmap.
  replace (length valss + i - length valss) with i by lia.
  by rewrite lookup_seq_lt.
Qed.

Lemma merge_inv_steps owner valss tr w :
  steps (run (merge_stage owner valss)) tr w -> merge_inv owner valss tr w.
Proof.
  induction 1 as [|tr w1 ev w2 _ (tk & Hr & Hfl & Hev) Hs].
  - exists false. rewrite merge_stage_run.
    split; [apply roles_init|]. split; [|constructor].
    intros i vals Hv. exists [].
    rewrite (merge_start_producer _ _ _ _ Hv).
    rewrite merge_start_forwarder by (by eapply lookup_lt_Some).
    by split.
  - pose proof (merge_step_of_step _ _ _ _ _ _ Hr Hs) as Hm.
    destruct (roles_step _ _ _ _ _ _ Hr Hm) as (tk' & Hr' & Hmono).
    exists tk'. split; [done|]. split.
    + exact (flows_step owner valss tk tk' tr w1 ev w2 Hr Hfl Hm Hmono).
    + apply Forall_app. split; [done|]. constructor; [|constructor].
      by eapply merge_step_event.
Qed.

(** ** What the merge stage guarantees *)

Lemma closed_forwarders_exited owner N tk w :
  roles owner N tk w -> chans w !! N = Some true ->
  live (pool w) = 0 /\ forall i, i < N -> pool w !! (N + i) = Some Exited.
Proof.
  intros [Hp Htk Hown Hwg Hcs Hpl Hth] Hclosed.
  assert (live (pool w) = 0) as Hz.
  { destruct (lookup_lt_is_Some_2 (pool w) (2 * N)) as [gc Hgc]; [lia|].
    pose proof (Hth _ _ Hgc) as Hok.
    inversion Hok; subst; try lia; try clash; done. }
  split; [done|]. intros i Hi.
  destruct (lookup_lt_is_Some_2 (pool w) (N + i)) as [g Hg]; [lia|].
  pose proof (Hth _ _ Hg) as Hok.
  pose proof (total_zero is_live _ _ _ Hz Hg) as Hl.
  assert (g = Exited) as ->; [|done].
  inversion Hok; subst; try lia; try discriminate Hl; reflexivity.
Qed.

Lemma merge_start_open owner valss c :
  c <= length valss -> chans (merge_start owner valss) !! c = Some false.
Proof.
  intros Hc. unfold merge_start. cbn [chans].
  destruct (decide (c < length valss)) as [Hlt|Hge].
  - rewrite lookup_app_l by (by rewrite length_replicate).
    by apply lookup_replicate_2.
  - rewrite lookup_app_r by (rewrite length_replicate; lia).
    rewrite length_replicate.
    by replace (c - length valss) with 0 by lia.
Qed.

Lemma is_closed_lookup w c :
  is_closed w c = true <-> chans w !! c = Some true.
Proof.
  unfold is_closed. destruct (chans w !! c) as [[]|]; simpl; split; done.
Qed.

(** X1.  The merged channel is closed at most once, only by the closing
    goroutine, only when the wait group's counter, which starts at the
    number of inbound channels and counts the forwarding workers that
    have not called [wg.Done()], is zero and every forwarding worker has
    returned; no run panics. *)
Theorem merge_closes_once_behind_the_barrier owner valss tr w :
  steps (run (merge_stage owner valss)) tr w ->
  wgs (run (merge_stage owner valss)) = [Z.of_nat (length valss)] /\
  live (pool (run (merge_stage owner valss))) = length valss /\
  panicked w = false /\
  Forall (event_ok (length valss)) tr /\
  closes (length valss) tr = (if is_closed w (length valss) then 1 else 0) /\
  wgs w = [Z.of_nat (live (pool w))] /\
  (is_closed w (length valss) = true ->
   live (pool w) = 0 /\
   forall i, i < length valss ->
             pool w !! (length valss + i) = Some Exited).
Proof.
  intros Hs. pose proof (merge_inv_steps _ _ _ _ Hs) as (tk & Hr & Hfl & Hev).
  pose proof Hr as [Hp Htk Hown Hwg Hcs Hpl Hth].
  split; [by rewrite merge_stage_run|].
  split; [rewrite merge_stage_run; apply merge_start_live|].
  split; [done|]. split; [done|]. split; [|split; [done|]].
  - assert (chans (run (merge_stage owner valss)) !! length valss = Some false)
      as H0 by (rewrite merge_stage_run; by apply merge_start_open).
    destruct (steps_closes _ _ _ _ Hs H0) as [[Hc ->]|[Hc ->]];
      unfold is_closed; by rewrite Hc.
  - intros Hc. apply is_closed_lookup in Hc.
    by eapply closed_forwarders_exited.
Qed.

Lemma merge_closes_once_behind_the_barrier_witness :
  closes 2 merge_first_run.1 = 1 /\
  wgs merge_first_run.2 = [0%Z].
Proof.
  assert (Hrun : steps (run (merge_stage false [[1; 2]; [3]]%Z))
                       merge_first_run.1 merge_first_run.2).
  { apply run_sched_steps with (sched := repeat 0 15).
    vm_compute. reflexivity. }
  destruct (merge_closes_once_behind_the_barrier _ _ _ _ Hrun)
    as (_ & _ & _ & _ & Hc & Hw & _).
  split; [exact Hc|exact Hw].
Defined.

(** X2.  Each forwarding worker sends on a prefix of its own input, in
    order; and when the merged channel is closed with the token untriggered,
    every input was sent on whole, every inbound channel is closed and
    every producer has returned: the merged channel is never closed
    while an input has values left. *)
Theorem merge_forwards_every_input_in_order owner valss tr w :
  steps (run (merge_stage owner valss)) tr w ->
  (forall i vals,
      valss !! i = Some vals ->
      sent_by (length valss + i) tr `prefix_of` vals) /\
  (owner = false -> tokens w = [false]) /\
  (is_closed w (length valss) = true -> tokens w = [false] ->
   forall i vals,
     valss !! i = Some vals ->
     sent_by (length valss + i) tr = vals /\
     is_closed w i = true /\ pool w !! i = Some Exited).
Proof.
  intros Hs. pose proof (merge_inv_steps _ _ _ _ Hs) as (tk & Hr & Hfl & Hev).
  pose proof Hr as [Hp Htk Hown Hwg Hcs Hpl Hth].
  split; [|split].
  - intros i vals Hv. destruct (Hfl i vals Hv) as (h & -> & _).
    by eexists.
  - intros Ho. by rewrite Htk, Hown.
  - intros Hc Htok i vals Hv. apply is_closed_lookup in Hc.
    rewrite Htk in Htok. injection Htok as ->.
    apply lookup_lt_Some in Hv as Hlt.
    destruct (closed_forwarders_exited _ _ _ _ Hr Hc) as [_ Hex].
    specialize (Hex i Hlt).
    destruct (Hfl i vals Hv) as (h & Hvals & Hh).
    rewrite Hex in Hh. simpl in Hh. destruct Hh as [Hh| ->]; [done|].
    pose proof (Hth _ _ Hex) as Hokf.
    assert (chans w !! i = Some true) as Hci.
    { inversion Hokf; subst; try lia.
      match goal with
      | H : length valss + ?j = length valss + i |- _ =>
          assert (j = i) as -> by lia
      end.
      match goal with H : _ \/ false = true |- _ => by destruct H end. }
    destruct (lookup_lt_is_Some_2 (pool w) i) as [gp Hgp]; [lia|].
    pose proof (Hth _ _ Hgp) as Hokp.
    assert (gp = Exited) as ->
      by (inversion Hokp; subst; try lia; try clash; done).
    rewrite Hgp in Hvals. simpl in Hvals. rewrite !app_nil_r in Hvals.
    split; [done|]. split; [by apply is_closed_lookup|done].
Qed.

Lemma merge_forwards_every_input_in_order_witness :
  sent_by 2 merge_first_run.1 = [1; 2]%Z /\
  sent_by 3 merge_first_run.1 = [3%Z].
Proof.
  assert (Hrun : steps (run (merge_stage false [[1; 2]; [3]]%Z))
                       merge_first_run.1 merge_first_run.2).
  { apply run_sched_steps with (sched := repeat 0 15).
    vm_compute. reflexivity. }
  destruct (merge_forwards_every_input_in_order _ _ _ _ Hrun)
    as (_ & _ & Hall).
  assert (Hc : is_closed merge_first_run.2 2 = true) by reflexivity.
  assert (Ht : tokens merge_first_run.2 = [false]) by reflexivity.
  split.
  - exact (proj1 (Hall Hc Ht 0 [1; 2]%Z eq_refl)).
  - exact (proj1 (Hall Hc Ht 1 [3%Z] eq_refl)).
Defined.

(** X3.  Whatever the inputs and the schedule, with a consumer that keeps
    reading, a run of the merge stage takes at most as many steps as the
    energy of its start, and when no goroutine can move the merged
    channel is closed: the closing goroutine is never left waiting. *)
Theorem merge_runs_end_with_the_channel_closed owner valss tr w :
  steps (run (merge_stage owner valss)) tr w ->
  length tr + energy w <= energy (run (merge_stage owner valss)) /\
  (stuck w -> is_closed w (length valss) = true).
Proof.
  intros Hs. destruct (roles_steps _ _ _ _ Hs) as [[tk Hr] Hb].
  split; [done|]. by apply merge_stuck_closed with (owner := owner) (tk := tk).
Qed.

Lemma merge_runs_end_with_the_channel_closed_witness :
  length merge_first_run.1 = 15 /\ is_closed merge_first_run.2 2 = true.
Proof.
  assert (Hrun : steps (run (merge_stage false [[1; 2]; [3]]%Z))
                       merge_first_run.1 merge_first_run.2).
  { apply run_sched_steps with (sched := repeat 0 15).
    vm_compute. reflexivity. }
  assert (Hst : stuck merge_first_run.2).
  { apply stuck_successors. vm_compute. reflexivity. }
  destruct (merge_runs_end_with_the_channel_closed _ _ _ _ Hrun) as [_ Hc].
  split; [reflexivity|exact (Hc Hst)].
Defined.

Lemma no_sends_without_inputs tr c :
  Forall (event_ok 0) tr -> sent_on c tr = [].
Proof.
  induction 1 as [|ev tr Hev _ IH]; [done|].
  destruct ev; simpl in *; try done. lia.
Qed.

(** X4.  Over no inbound channel, [merge] starts no forwarding worker and a
    wait group at zero: no value ever appears on the merged channel, the
    closing goroutine closes it by its own two steps from the start,
    whatever the owner of the token does, every run has at most four
    steps and a run that cannot go on has the channel closed. *)
Theorem merge_of_nothing_closes_at_once owner tr w :
  steps (run (merge_stage owner [])) tr w ->
  pool (run (merge_stage owner [])) =
    [MergeWait 0 0; Drain 0] ++ (if owner then [Canceller 0] else []) /\
  wgs (run (merge_stage owner [])) = [0%Z] /\
  steps (run (merge_stage owner [])) [EvWgWait 0 0; EvClose 0 0]
        (merge_empty_run owner).2 /\
  is_closed (merge_empty_run owner).2 0 = true /\
  (forall c, sent_on c tr = []) /\
  closes 0 tr = (if is_closed w 0 then 1 else 0) /\
  (stuck w -> is_closed w 0 = true) /\
  length tr <= 4.
Proof.
  intros Hs. pose proof (merge_inv_steps _ _ _ _ Hs) as (tk & Hr & Hfl & Hev).
  destruct (roles_steps _ _ _ _ Hs) as [_ Hb].
  split; [by destruct owner|]. split; [by destruct owner|].
  split.
  { apply run_sched_steps with (sched := [0; 0]). by destruct owner. }
  split; [by destruct owner|].
  split; [intros c; by apply no_sends_without_inputs|].
  split.
  { assert (chans (run (merge_stage owner [])) !! 0 = Some false) as H0
      by (by destruct owner).
    destruct (steps_closes _ _ _ _ Hs H0) as [[Hc ->]|[Hc ->]];
      unfold is_closed; by rewrite Hc. }
  split; [by apply (merge_stuck_closed owner 0 tk)|].
  assert (energy (run (merge_stage owner [])) <= 4)
    by (destruct owner; vm_compute; lia).
  lia.
Qed.

Lemma merge_of_nothing_closes_at_once_witness :
  is_closed (merge_empty_run true).2 0 = true /\
  sent_on 0 (merge_empty_run true).1 = [].
Proof.
  assert (Hrun : steps (run (merge_stage true []))
                       (merge_empty_run true).1 (merge_empty_run true).2).
  { apply run_sched_steps with (sched := [0; 0]). vm_compute. reflexivity. }
  destruct (merge_of_nothing_closes_at_once _ _ _ Hrun)
    as (_ & _ & _ & Hc & Hnone & _).
  split; [exact Hc|exact (Hnone 0)].
Defined.

(** ** The goroutines of [merge] in any program *)

Lemma fwd_local ctx ch out wg acts g :
  lsteps (FwdRange ctx ch out wg) acts g ->
  exists xs e,
    acts = fwd_trace ctx ch out wg xs e /\ g = fwd_state ctx ch out wg e.
Proof.
  induction 1 as [|acts g1 a g2 _ IH Hl].
  - by exists [], FEloop.
  - destruct IH as (xs & e & -> & ->). unfold fwd_trace.
    destruct e as [|x|[]|x []]; simpl in Hl; lstep_cases Hl.
    + destruct r as [n|].
      * exists xs, (FEheld n). by rewrite app_nil_r.
      * exists xs, (FEdrained false). by rewrite app_nil_r.
    + eexists (xs ++ [_]), FEloop. unfold fwd_body.
      by rewrite flat_map_app, <- app_assoc, app_nil_r.
    + eexists xs, (FEdropped _ false). by rewrite <- app_assoc.
    + exists xs, (FEdrained true). by rewrite <- app_assoc.
    + eexists xs, (FEdropped _ true). by rewrite <- app_assoc.
Qed.

Lemma sends_fwd_trace ctx ch out wg xs e :
  sends (fwd_trace ctx ch out wg xs e) = xs.
Proof.
  unfold fwd_trace, sends. rewrite omap_app.
  assert (omap (fun a => match a with ASend _ v => Some v | _ => None end)
               (fwd_tail ctx ch wg e) = []) as ->
    by (by destruct e as [|x|[]|x []]).
  rewrite app_nil_r. induction xs as [|x xs IH]; [done|].
  cbn. f_equal. exact IH.
Qed.

Lemma recvs_fwd_trace ctx ch out wg xs e :
  recvs (fwd_trace ctx ch out wg xs e) = xs ++ fwd_pending e.
Proof.
  unfold fwd_trace, recvs. rewrite omap_app. f_equal.
  - induction xs as [|x xs IH]; [done|]. cbn. f_equal. exact IH.
  - by destruct e as [|x|[]|x []].
Qed.

Lemma fwd_trace_never_closes ctx ch out wg xs e c :
  ~ In (AClose c) (fwd_trace ctx ch out wg xs e).
Proof.
  unfold fwd_trace. rewrite in_app_iff. intros [H|H].
  - unfold fwd_body in H. apply in_flat_map in H as (x & _ & H).
    simpl in H. intuition discriminate.
  - destruct e as [|x|[]|x []]; simpl in H; intuition discriminate.
Qed.

(** X5.  In any program, a forwarding worker of [merge] receives from its
    channel and sends each value on unchanged, in the order received;
    it stops when it finds its channel closed or when the token, being
    set, makes it drop the value it holds; on both paths its last action
    is one [wg.Done()], and it never closes a channel. *)
Theorem forwarder_forwards_in_order_then_signals
    w0 t ctx ch out wg tr w :
  pool w0 !! t = Some (FwdRange ctx ch out wg) ->
  steps w0 tr w ->
  exists xs e,
    local_trace t tr = fwd_trace ctx ch out wg xs e /\
    recvs (local_trace t tr) = xs ++ fwd_pending e /\
    sends (local_trace t tr) = xs /\
    pool w !! t = Some (fwd_state ctx ch out wg e) /\
    (forall x s, e = FEdropped x s -> ctx_done w ctx = true) /\
    (forall s, e = FEdrained s -> chans w !! ch = Some true) /\
    (forall c, ~ In (AClose c) (local_trace t tr)).
Proof.
  intros Ht Hs.
  destruct (steps_local _ _ _ _ _ Hs Ht) as (g & Hg & Hl).
  destruct (fwd_local _ _ _ _ _ _ Hl) as (xs & e & Hacts & ->).
  exists xs, e. split; [done|].
  split; [by rewrite Hacts, recvs_fwd_trace|].
  split; [by rewrite Hacts, sends_fwd_trace|].
  split; [done|]. split; [|split].
  - intros x s ->. eapply done_by_thread; [exact Hs|]. rewrite Hacts.
    unfold fwd_trace. rewrite in_app_iff. right. simpl. auto.
  - intros s ->. eapply recv_closed_by_thread; [exact Hs|]. rewrite Hacts.
    unfold fwd_trace. rewrite in_app_iff. right. simpl. auto.
  - intros c. rewrite Hacts. apply fwd_trace_never_closes.
Qed.

Lemma forwarder_forwards_in_order_then_signals_witness :
  exists xs e,
    local_trace 2 merge_first_run.1 =
      fwd_trace (WithCancel 0) 0 2 0 xs e /\
    sends (local_trace 2 merge_first_run.1) = xs /\
    pool merge_first_run.2 !! 2 = Some (fwd_state (WithCancel 0) 0 2 0 e).
Proof.
  assert (Hrun : steps (run (merge_stage false [[1; 2]; [3]]%Z))
                       merge_first_run.1 merge_first_run.2).
  { apply run_sched_steps with (sched := repeat 0 15).
    vm_compute. reflexivity. }
  assert (Ht : pool (run (merge_stage false [[1; 2]; [3]]%Z)) !! 2 =
               Some (FwdRange (WithCancel 0) 0 2 0)) by reflexivity.
  destruct (forwarder_forwards_in_order_then_signals _ _ _ _ _ _ _ _ Ht Hrun)
    as (xs & e & H1 & _ & H3 & H4 & _).
  exists xs, e. split; [exact H1|]. split; [exact H3|exact H4].
Defined.

Lemma closer_local wg out acts g :
  lsteps (MergeWait wg out) acts g ->
  exists k, k <= 2 /\ acts = take k [AWgWait wg; AClose out] /\
            g = closer_state wg out k.
Proof.
  induction 1 as [|acts g1 a g2 _ IH Hl].
  - exists 0. by repeat split; try lia.
  - destruct IH as (k & Hk & -> & ->).
    destruct k as [|[|[|k]]]; simpl in Hl; lstep_cases Hl.
    + exists 1. by repeat split; try lia.
    + exists 2. by repeat split; try lia.
Qed.

Lemma steps_split w0 tr w :
  steps w0 tr w ->
  forall tr1 ev tr2, tr = tr1 ++ ev :: tr2 ->
  exists w1 w2, steps w0 tr1 w1 /\ step w1 ev w2 /\ steps w2 tr2 w.
Proof.
  induction 1 as [|tr w1 e w2 Hs IH Hstep]; intros tr1 ev tr2 Heq.
  - by destruct tr1.
  - destruct tr2 as [|e2 tr2 _] using rev_ind.
    + apply app_inj_tail in Heq as [-> ->].
      exists w1, w2. split; [done|]. split; [done|constructor].
    + change (ev :: tr2 ++ [e2]) with ((ev :: tr2) ++ [e2]) in Heq.
      rewrite app_assoc in Heq. apply app_inj_tail in Heq as [-> ->].
      destruct (IH _ _ _ eq_refl) as (wa & wb & Ha & Hb & Hc).
      exists wa, wb. split; [done|]. split; [done|]. by eapply steps_snoc.
Qed.

(** X6.  In any program, the closing goroutine of [merge] does at most two
    things, in this order: it returns from [wg.Wait()], which it can only
    do in a state where the counter of its wait group is zero, and it
    closes the merged channel, which is closed from then on. *)
Theorem closer_waits_for_zero_then_closes w0 t wg out tr w :
  pool w0 !! t = Some (MergeWait wg out) ->
  steps w0 tr w ->
  (exists k, k <= 2 /\
             local_trace t tr = take k [AWgWait wg; AClose out] /\
             pool w !! t = Some (closer_state wg out k) /\
             (k = 2 -> chans w !! out = Some true)) /\
  (forall tr1 tr2,
      tr = tr1 ++ EvWgWait wg t :: tr2 ->
      exists w1, steps w0 tr1 w1 /\ wgs w1 !! wg = Some 0%Z).
Proof.
  intros Ht Hs. split.
  - destruct (steps_local _ _ _ _ _ Hs Ht) as (g & Hg & Hl).
    destruct (closer_local _ _ _ _ Hl) as (k & Hk & Hacts & ->).
    exists k. split; [done|]. split; [done|]. split; [done|].
    intros ->. eapply closed_by_thread; [exact Hs|]. rewrite Hacts.
    simpl. auto.
  - intros tr1 tr2 Heq.
    destruct (steps_split _ _ _ Hs _ _ _ Heq) as (w1 & w2 & H1 & Hstep & _).
    exists w1. split; [done|]. by inversion Hstep; subst.
Qed.

Lemma closer_waits_for_zero_then_closes_witness :
  exists k, k <= 2 /\
            local_trace 4 merge_first_run.1 =
              take k [AWgWait 0; AClose 2] /\
            pool merge_first_run.2 !! 4 = Some (closer_state 0 2 k).
Proof.
  assert (Hrun : steps (run (merge_stage false [[1; 2]; [3]]%Z))
                       merge_first_run.1 merge_first_run.2).
  { apply run_sched_steps with (sched := repeat 0 15).
    vm_compute. reflexivity. }
  assert (Ht : pool (run (merge_stage false [[1; 2]; [3]]%Z)) !! 4 =
               Some (MergeWait 0 2)) by reflexivity.
  destruct (closer_waits_for_zero_then_closes _ _ _ _ _ _ Ht Hrun)
    as [(k & Hk & H1 & H2 & _) _].
  exists k. split; [exact Hk|]. split; [exact H1|exact H2].
Defined.

(** * What [main] prints *)

Lemma main_prints_edges : edges_ok prints_ok main_states = true.
Proof. vm_compute. reflexivity. Qed.

Lemma main_in_flight :
  in_flight (run main) = [225; 4; 81; 529; 8281]%Z.
Proof. reflexivity. Qed.

Lemma main_prints_inv tr w :
  steps (run main) tr w ->
  In w main_states /\
  NoDup (sent_on main_out tr) /\
  (forall v, v ∈ sent_on main_out tr ->
             (v ∉ in_flight w) /\ v ∈ in_flight (run main)) /\
  (forall v, v ∈ in_flight w -> v ∈ in_flight (run main)).
Proof.
  induction 1 as [|tr w1 ev w2 Hs (Hin & Hnd & Hpr & Hfl) Hstep].
  - split; [exact (explored _ _ main_init main_closed [] _ (steps_nil _))|].
    split; [constructor|]. split; [|done].
    intros v Hv. by apply elem_of_nil in Hv.
  - pose proof (explored_edge _ prints_ok w1 ev w2
                  main_prints_edges Hin Hstep) as Hok.
    unfold prints_ok in Hok. apply andb_true_iff in Hok as [Hsub Hev].
    assert (Hmono : forall v, v ∈ in_flight w2 -> v ∈ in_flight w1).
    { intros v Hv. rewrite forallb_forall in Hsub.
      apply list_elem_of_In in Hv.
      exact (proj1 (bool_decide_eq_true _) (Hsub v Hv)). }
    split; [exact (explored_step _ main_closed w1 ev w2 Hin Hstep)|].
    rewrite sent_on_app.
    assert (Hkeep : forall v, v ∈ sent_on main_out tr ->
                              (v ∉ in_flight w2) /\ v ∈ in_flight (run main)).
    { intros v Hv. destruct (Hpr v Hv) as [Hn Hi]. split; [|done].
      intros Hv2. by apply Hn, Hmono. }
    destruct ev as [c v i j| | | | | | |]; simpl;
      rewrite ?app_nil_r; try (split; [done|split; [done|auto]]).
    destruct (decide (c = main_out)) as [->|Hc];
      rewrite ?app_nil_r; [|split; [done|split; [done|auto]]].
    apply andb_true_iff in Hev as [Hv1 Hv2].
    apply bool_decide_eq_true in Hv1, Hv2.
    split; [|split; [|auto]].
    + apply list.NoDup_app. split; [done|]. split; [|apply NoDup_singleton].
      intros x Hx Hx'. apply list_elem_of_singleton in Hx' as ->.
      by destruct (Hpr v Hx).
    + intros x Hx. apply elem_of_app in Hx as [Hx|Hx]; [auto|].
      apply list_elem_of_singleton in Hx as ->. auto.
Qed.

(** X7.  Whatever the schedule, the values [main] has printed are pairwise
    different and each is the square of one of the five numbers given to
    [generate]: no number is squared twice by the two workers, and none
    is invented. *)
Theorem main_prints_different_squares tr w :
  steps (run main) tr w ->
  NoDup (sent_on main_out tr) /\
  (forall v, v ∈ sent_on main_out tr ->
             exists n, n ∈ [15; 2; 9; 23; 91]%Z /\ v = (n * n)%Z /\
                       v = square n).
Proof.
  intros Hs. destruct (main_prints_inv _ _ Hs) as (_ & Hnd & Hpr & _).
  split; [done|]. intros v Hv. destruct (Hpr v Hv) as [_ Hi].
  rewrite main_in_flight in Hi.
  repeat (apply elem_of_cons in Hi as [->|Hi]);
    [exists 15%Z|exists 2%Z|exists 9%Z|exists 23%Z|exists 91%Z|
     by apply elem_of_nil in Hi];
    (split; [repeat constructor|split; reflexivity]).
Qed.

Lemma main_prints_different_squares_witness :
  NoDup (sent_on main_out main_first_run.1) /\
  sent_on main_out main_first_run.1 = [225; 81; 8281]%Z.
Proof.
  split; [|reflexivity].
  exact (proj1 (main_prints_different_squares _ _ main_first_run_steps)).
Defined.

(** * The three stages in a row *)

Lemma chain_run owner numbers :
  run (chain owner numbers) =
  chain_world owner SrcLoop numbers PwRange SkRange 0 false false.
Proof. by destruct owner. Qed.

Lemma chain_inv_init owner numbers :
  chain_inv owner numbers [] (run (chain owner numbers)).
Proof.
  exists SrcLoop, numbers, PwRange, SkRange, false, false.
  rewrite chain_run. by repeat split.
Qed.

Lemma chain_inv_step owner numbers tr w ev w' :
  chain_inv owner numbers tr w -> step w ev w' ->
  chain_inv owner numbers (tr ++ [ev]) w' /\ energy w' < energy w.
Proof.
  intros (sph & rest & pph & kph & dr & tk & -> &
          (Hd & Hc & Ho & He & Hx & Hk) & Hn & Hsq & Hres & Hcl) Hs.
  unfold chain_inv. rewrite !sent_on_app, closes_app, map_app, Hsq, Hres, Hcl.
  destruct sph, pph as [|n|[d|]|[d|]], kph, owner, dr, tk, rest as [|m rest];
    rewrite ?app_nil_r in Hn; simpl in Hx;
    try (discriminate (Hd eq_refl)); try (discriminate (Hc eq_refl));
    try (discriminate (Ho eq_refl)); try (discriminate (He eq_refl eq_refl));
    try discriminate Hx; try (discriminate (Hk ltac:(discriminate)));
    unfold chain_world, pow_goroutine, sink_goroutine in Hs;
    cbn [generate_loop] in Hs; step_cases Hs;
    (split; [|unfold energy; simpl; rewrite ?weight_generate_loop; lia]);
    simpl; rewrite ?app_nil_r, ?int_sum_snoc;
    solve [(exists SrcLoop + exists SrcCancelled + exists SrcExited);
           (exists rest + exists (m :: rest) + exists []);
           (exists PwRange + exists (PwSelect n) + exists (PwSelect m)
            + exists (PwClose None) + exists (PwClose (Some n))
            + exists (PwClose (Some d)) + exists (PwExited None)
            + exists (PwExited (Some d)));
           (exists SkRange + exists SkSend + exists SkClose + exists SkExited);
           (exists true + exists false);
           (exists true + exists false);
           (split; [reflexivity|]);
           (split; [unfold chain_ok; simpl; intuition congruence|]);
           (split; [rewrite ?app_nil_r, <- ?app_assoc; done|]);
           (split; [simpl; rewrite ?app_nil_r, <- ?app_assoc; done|]);
           (split; [by subst|done])].
Qed.

Lemma chain_inv_steps owner numbers tr w :
  steps (run (chain owner numbers)) tr w ->
  chain_inv owner numbers tr w /\
  length tr + energy w <= energy (run (chain owner numbers)).
Proof.
  induction 1 as [|tr w1 ev w2 _ [IH Hb] Hs].
  - split; [apply chain_inv_init|simpl; lia].
  - destruct (chain_inv_step _ _ _ _ _ _ IH Hs) as [Hi He].
    split; [done|]. rewrite length_app. simpl. lia.
Qed.

Lemma chain_inv_stuck owner numbers tr w :
  chain_inv owner numbers tr w -> stuck w ->
  all_exited w = true /\ is_closed w 2 = true.
Proof.
  intros (sph & rest & pph & kph & dr & tk & -> &
          (Hd & Hc & Ho & He & Hx & Hk) & _) Hst.
  apply stuck_successors in Hst.
  destruct sph, pph as [|n|[d|]|[d|]], kph, owner, dr, tk, rest as [|m rest];
    simpl in Hx;
    try (discriminate (Hd eq_refl)); try (discriminate (Hc eq_refl));
    try (discriminate (Ho eq_refl)); try (discriminate (He eq_refl eq_refl));
    try discriminate Hx; try (discriminate (Hk ltac:(discriminate)));
    try (split; reflexivity); discriminate Hst.
Qed.

Lemma squares_of_a_prefix s0 s1 h rest :
  map square s0 = s1 ++ map square h ->
  s1 = map square (take (length s1) (s0 ++ rest)).
Proof.
  intros H.
  assert (length s1 <= length s0) as Hl.
  { apply (f_equal length) in H. rewrite length_app, !length_map in H. lia. }
  rewrite take_app_le by done. rewrite <- firstn_map, H.
  by rewrite take_app_length.
Qed.

(** X8.  Chained, the three stages deliver the sum of the squares.  For
    any numbers and any schedule, with a consumer of the result: nothing
    panics and every run is bounded; the worker has sent the squares of a
    prefix of the numbers, in order; the result channel carries nothing
    or one value, the sum of what the worker sent, and is closed once; a
    run that cannot go on has every goroutine returned and has delivered
    the sum of the squares of a prefix of the numbers, which is all of
    them when nobody can trigger the token. *)
Theorem chain_delivers_the_sum_of_squares owner numbers tr w :
  steps (run (chain owner numbers)) tr w ->
  panicked w = false /\
  sent_on 0 tr `prefix_of` numbers /\
  sent_on 1 tr = map square (take (length (sent_on 1 tr)) numbers) /\
  (sent_on 2 tr = [] \/
   sent_on 2 tr = [int_sum (sent_on 1 tr)] /\ is_closed w 1 = true) /\
  closes 2 tr = (if is_closed w 2 then 1 else 0) /\
  (owner = false -> tokens w = [false]) /\
  (tokens w = [false] -> is_closed w 1 = true ->
   sent_on 1 tr = map square numbers) /\
  (stuck w ->
   all_exited w = true /\ is_closed w 2 = true /\
   sent_on 2 tr =
     [int_sum (map square (take (length (sent_on 1 tr)) numbers))] /\
   (owner = false -> sent_on 2 tr = [int_sum (map square numbers)])) /\
  length tr + energy w <= energy (run (chain owner numbers)).
Proof.
  intros Hs. destruct (chain_inv_steps _ _ _ _ Hs) as [Hinv Hb].
  pose proof (chain_inv_stuck _ _ _ _ Hinv) as Hst.
  destruct Hinv as (sph & rest & pph & kph & dr & tk & -> &
                    (Hd & Hc & Ho & He & Hx & Hk) & Hn & Hsq & Hres & Hcl).
  pose proof (squares_of_a_prefix _ _ _ rest Hsq) as Hpre.
  rewrite <- Hn in Hpre.
  assert (Hfull : tk = false -> pow_exited pph = true ->
                  sent_on 1 tr = map square numbers).
  { intros -> Hp. destruct pph as [|n|[d|]|[d|]]; try discriminate Hp;
      simpl in Hx; [done|].
    destruct sph; try discriminate Hx. rewrite (He eq_refl eq_refl) in Hn.
    rewrite app_nil_r in Hn, Hsq. by rewrite Hn, Hsq. }
  assert (Htk : owner = false -> tk = false).
  { intros ->. destruct tk; [by discriminate Ho|done]. }
  split; [done|]. split; [by exists rest|]. split; [done|].
  split.
  { rewrite Hres. destruct kph; auto; right; split; try done;
      unfold is_closed; simpl; apply Hk; discriminate. }
  split; [rewrite Hcl; by destruct kph|].
  split; [intros E; simpl; by rewrite (Htk E)|].
  split.
  { simpl. intros [= ->] Hp. apply Hfull; [done|].
    unfold is_closed in Hp. exact Hp. }
  split; [|done].
  intros Hstuck. destruct (Hst Hstuck) as [Hall Hclosed].
  split; [done|]. split; [done|].
  assert (kph = SkExited) as -> by (by destruct kph).
  rewrite Hres. split; [by rewrite <- Hpre|].
  intros E. rewrite Hfull; [done|by apply Htk|apply Hk; discriminate].
Qed.

Lemma chain_delivers_the_sum_of_squares_witness :
  stuck chain_first_run.2 /\
  sent_on 2 chain_first_run.1 = [int_sum (map square [1; 2; 3]%Z)] /\
  all_exited chain_first_run.2 = true.
Proof.
  assert (Hrun : steps (run (chain false [1; 2; 3]%Z))
                       chain_first_run.1 chain_first_run.2).
  { apply run_sched_steps with (sched := repeat 0 13).
    vm_compute. reflexivity. }
  assert (Hst : stuck chain_first_run.2).
  { apply stuck_successors. vm_compute. reflexivity. }
  destruct (chain_delivers_the_sum_of_squares _ _ _ _ Hrun)
    as (_ & _ & _ & _ & _ & _ & _ & Hend & _).
  destruct (Hend Hst) as (Hall & _ & _ & Hsum).
  split; [exact Hst|]. split; [exact (Hsum eq_refl)|exact Hall].
Defined.

(** * Values through any wiring of the stages *)

Lemma load_generate_loop k ctx out rest :
  load k (generate_loop ctx out rest) = flat_map (carried k out) rest.
Proof. by destruct rest. Qed.

Lemma wired_generate_loop k ctx out rest :
  wired k (generate_loop ctx out rest) = true.
Proof. by destruct rest. Qed.

Lemma offers_load k g o :
  wired k g = true -> In o (offers g) ->
  match o with
  | OSend c v g' =>
      load k g = carried k c v ++ load k g' /\ wired k g' = true
  | ORecv c kr =>
      load k g = [] /\
      (forall v, carried k c v =
                 (if decide (k c = Fin) then [v] else []) ++
                 load k (kr (Some v)) /\
                 wired k (kr (Some v)) = true) /\
      load k (kr None) = [] /\ wired k (kr None) = true
  | ODone _ g' => load k g' = [] /\ wired k g' = true
  | OClose _ g' | OWgDone _ g' | OWgWait _ g' | OCancel _ g' =>
      load k g = [] /\ load k g' = [] /\ wired k g' = true
  end.
Proof.
  intros Hw Hin.
  destruct g as [ctx out n rest|out|ctx inp out|ctx inp out n|out
                |inp out total|out total|out|ctx ch out wg|ctx ch out wg n
                |wg|wg out|out|tok out i|tok|c vals|c|tok|];
    try destruct vals as [|x vals]; simpl in Hin;
    repeat (destruct Hin as [<-|Hin]); try destruct Hin;
    cbn [wired] in Hw;
    rewrite ?andb_true_iff, ?bool_decide_eq_true in Hw; destruct_and?;
    cbn [load flat_map]; rewrite ?load_generate_loop, ?wired_generate_loop;
    try done.
  - (* the worker at its range *)
    split; [done|]. split; [|done]. intros v. unfold carried.
    rewrite H. split; [by rewrite decide_False|].
    simpl. rewrite andb_true_iff, bool_decide_eq_true. done.
  - (* the worker sends the square *)
    split; [|simpl; rewrite andb_true_iff, bool_decide_eq_true; done].
    unfold carried, square. by destruct (k out).
  - (* the sink at its range *)
    split; [done|]. split; [|simpl; by rewrite bool_decide_eq_true].
    intros v. unfold carried. split.
    + destruct (k inp); try done; by rewrite ?decide_True, ?decide_False.
    + simpl. rewrite andb_true_iff, bool_decide_eq_true. done.
  - (* the sink sends its total *)
    split; [|done]. unfold carried. by rewrite Hw.
  - (* the forwarding worker at its range *)
    split; [done|]. split; [|done]. intros v. unfold carried.
    rewrite H. split; [by rewrite decide_False|].
    simpl. rewrite andb_true_iff, bool_decide_eq_true. done.
  - (* the forwarding worker sends *)
    split; [|simpl; rewrite andb_true_iff, bool_decide_eq_true; done].
    unfold carried. by destruct (k out).
  - (* main receives *)
    split; [done|]. unfold main_loop.
    assert (forall r : option Z,
               load k (if (i + 1 <? 3)%Z then MainRecv tok out (i + 1)
                       else MainCancel tok) = [] /\
               wired k (if (i + 1 <? 3)%Z then MainRecv tok out (i + 1)
                        else MainCancel tok) = true) as Hl
      by (intros _; by destruct (i + 1 <? 3)%Z).
    split; [|exact (Hl None)]. intros v. split; [|exact (proj2 (Hl None))].
    rewrite (proj1 (Hl None)), app_nil_r. unfold carried.
    destruct (k out); try done; by rewrite ?decide_True, ?decide_False.
  - (* the consumer *)
    split; [done|]. split; [|done]. intros v. split; [|done].
    unfold carried.
    destruct (k c); try done; by rewrite ?decide_True, ?decide_False.
Qed.

Lemma flat_map_insert {A B} (f : A -> list B) (l : list A) i x y :
  l !! i = Some x ->
  flat_map f l ++ f y ≡ₚ f x ++ flat_map f (<[i := y]> l).
Proof.
  revert i. induction l as [|a l IH]; intros [|i] H; try done; simpl in *.
  - injection H as ->. rewrite <- app_assoc.
    apply Permutation_app_head, Permutation_app_comm.
  - rewrite <- app_assoc, (IH _ H), !app_assoc.
    apply Permutation_app_tail, Permutation_app_comm.
Qed.

Lemma in_transit_put k i g g0 w :
  pool w !! i = Some g0 ->
  in_transit k w ++ load k g ≡ₚ load k g0 ++ in_transit k (put i g w).
Proof. intros H. by apply flat_map_insert. Qed.

Lemma in_transit_put_same k i g g0 w :
  pool w !! i = Some g0 -> load k g0 = [] -> load k g = [] ->
  in_transit k (put i g w) ≡ₚ in_transit k w.
Proof.
  intros H H0 Hg. pose proof (in_transit_put k i g g0 w H) as E.
  rewrite H0, Hg, app_nil_r in E. by rewrite <- E.
Qed.

Lemma wired_lookup k w i g :
  forallb (wired k) (pool w) = true -> pool w !! i = Some g ->
  wired k g = true.
Proof.
  intros Hall Hi. rewrite forallb_forall in Hall. apply Hall.
  rewrite <- list_elem_of_In. by eapply list_elem_of_lookup_2.
Qed.

Lemma wired_put k w i g :
  forallb (wired k) (pool w) = true -> wired k g = true ->
  forallb (wired k) (pool (put i g w)) = true.
Proof.
  intros Hall Hg. simpl. revert i.
  induction (pool w) as [|a l IH]; intros [|i]; simpl in *; try done.
  - apply andb_true_iff in Hall as [_ Hl]. by rewrite Hg.
  - apply andb_true_iff in Hall as [-> Hl]. simpl. by apply IH.
Qed.

Lemma delivered_app k tr1 tr2 :
  delivered k (tr1 ++ tr2) = delivered k tr1 ++ delivered k tr2.
Proof.
  induction tr1 as [|[] tr1 IH]; simpl; try done.
  by rewrite IH, app_assoc.
Qed.

Lemma untriggered_step w ev w' :
  step w ev w' -> untriggered w' = true ->
  untriggered w = true /\ forall ctx i, ev <> EvDone ctx i.
Proof.
  intros Hs Hu. destruct Hs; simpl in *; try done.
  - (* a cancellation case was taken *)
    exfalso. destruct ctx as [|tok]; [done|]. unfold ctx_done in *.
    destruct (tokens w !! tok) as [[]|] eqn:E; try done.
    unfold untriggered in Hu. rewrite forallb_forall in Hu.
    assert (In true (tokens w)) as Hin.
    { rewrite <- list_elem_of_In. by eapply list_elem_of_lookup_2. }
    by specialize (Hu _ Hin).
  - (* the token is triggered *)
    exfalso. unfold untriggered in Hu. simpl in Hu.
    rewrite forallb_forall in Hu.
    assert (In true (<[tok := true]> (tokens w))) as Hin.
    { rewrite <- list_elem_of_In.
      eapply list_elem_of_lookup_2. by apply list_lookup_insert_eq. }
    by specialize (Hu _ Hin).
Qed.

(** One step: the goroutines stay wired, and what was in transit is what
    the step delivered, what is in transit after it, and what a goroutine
    leaving on its cancellation case dropped. *)
Lemma step_conserves k w ev w' :
  forallb (wired k) (pool w) = true -> step w ev w' ->
  forallb (wired k) (pool w') = true /\
  exists lost,
    in_transit k w ≡ₚ delivered k [ev] ++ in_transit k w' ++ lost /\
    ((forall ctx i, ev <> EvDone ctx i) -> lost = []).
Proof.
  intros Hall Hs.
  destruct Hs as [w i j gi gj c v ki kr _ Hi Hoi Hj Hoj Hij _
                 |w i gi c v ki _ Hi Hoi _
                 |w j gj c kr _ Hj Hoj _
                 |w i gi ctx ki _ Hi Hoi _
                 |w i gi c ki _ Hi Hoi _
                 |w i gi c ki _ Hi Hoi _
                 |w i gi wg ki n _ Hi Hoi _ _
                 |w i gi wg ki n _ Hi Hoi _ _
                 |w i gi wg ki _ Hi Hoi _
                 |w i gi tok ki _ Hi Hoi _].
  - (* a value changes hands *)
    pose proof (offers_load k gi _ (wired_lookup _ _ _ _ Hall Hi) Hoi)
      as [Hli Hwi].
    pose proof (offers_load k gj _ (wired_lookup _ _ _ _ Hall Hj) Hoj)
      as (Hlj & Hv & _).
    destruct (Hv v) as [Hc Hwj].
    split; [by apply wired_put; [apply wired_put|]|].
    exists []. split; [|done]. rewrite app_nil_r. simpl. rewrite app_nil_r.
    assert (Hj' : pool (put i ki w) !! j = Some gj).
    { simpl. by rewrite list_lookup_insert_ne. }
    pose proof (in_transit_put k i ki gi w Hi) as E1.
    pose proof (in_transit_put k j (kr (Some v)) gj _ Hj') as E2.
    rewrite Hli, Hc in E1. rewrite Hlj in E2. simpl in E2.
    apply (Permutation_app_inv_r (load k ki)).
    rewrite E1, <- E2, <- !app_assoc.
    apply Permutation_app_head.
    rewrite (app_assoc (load k (kr (Some v))) (load k ki)).
    apply Permutation_app_comm.
  - split; [done|]. exists []. by rewrite app_nil_r.
  - pose proof (offers_load k gj _ (wired_lookup _ _ _ _ Hall Hj) Hoj)
      as (Hlj & _ & Hn & Hwn).
    split; [by apply wired_put|]. exists []. split; [|done].
    rewrite app_nil_r. simpl. by rewrite (in_transit_put_same k j _ gj).
  - pose proof (offers_load k gi _ (wired_lookup _ _ _ _ Hall Hi) Hoi)
      as [Hl Hw].
    split; [by apply wired_put|]. exists (load k gi). split.
    + simpl. pose proof (in_transit_put k i ki gi w Hi) as E.
      rewrite Hl, app_nil_r in E. rewrite E. apply Permutation_app_comm.
    + intros Hne. by destruct (Hne ctx i).
  - pose proof (offers_load k gi _ (wired_lookup _ _ _ _ Hall Hi) Hoi)
      as (Hl & Hl' & Hw).
    split; [by apply (wired_put k (set_chans _ w))|]. exists [].
    split; [|done]. rewrite app_nil_r. simpl.
    by rewrite (in_transit_put_same k i _ gi (set_chans _ w)).
  - split; [done|]. exists []. by rewrite app_nil_r.
  - pose proof (offers_load k gi _ (wired_lookup _ _ _ _ Hall Hi) Hoi)
      as (Hl & Hl' & Hw).
    split; [by apply (wired_put k (set_wgs _ w))|]. exists [].
    split; [|done]. rewrite app_nil_r. simpl.
    by rewrite (in_transit_put_same k i _ gi (set_wgs _ w)).
  - split; [done|]. exists []. by rewrite app_nil_r.
  - pose proof (offers_load k gi _ (wired_lookup _ _ _ _ Hall Hi) Hoi)
      as (Hl & Hl' & Hw).
    split; [by apply wired_put|]. exists [].
    split; [|done]. rewrite app_nil_r. simpl.
    by rewrite (in_transit_put_same k i _ gi).
  - pose proof (offers_load k gi _ (wired_lookup _ _ _ _ Hall Hi) Hoi)
      as (Hl & Hl' & Hw).
    split; [by apply (wired_put k (set_tokens _ w))|]. exists [].
    split; [|done]. rewrite app_nil_r. simpl.
    by rewrite (in_transit_put_same k i _ gi (set_tokens _ w)).
Qed.

Lemma steps_conserve k w0 tr w :
  forallb (wired k) (pool w0) = true -> steps w0 tr w ->
  forallb (wired k) (pool w) = true /\
  exists lost,
    in_transit k w0 ≡ₚ delivered k tr ++ in_transit k w ++ lost /\
    (untriggered w = true -> lost = []).
Proof.
  intros Hall. induction 1 as [|tr w1 ev w2 _ (Hw1 & lost1 & E1 & Hu1) Hs].
  - split; [done|]. exists []. by rewrite app_nil_r.
  - destruct (step_conserves k _ _ _ Hw1 Hs) as (Hw2 & lost2 & E2 & Hu2).
    split; [done|]. exists (lost2 ++ lost1). split.
    + rewrite delivered_app, E1, E2, <- !app_assoc. done.
    + intros Hu. destruct (untriggered_step _ _ _ Hs Hu) as [Hu' Hne].
      by rewrite (Hu1 Hu'), (Hu2 Hne).
Qed.

(** X9.  However [generate], [power], [merge], [sum] and consumers are
    wired together, as long as each squaring worker reads numbers and
    each forwarding worker reads results: whatever the schedule, the
    goroutines stay so wired, and the results handed to the consumers,
    with those still held or to be emitted, are among the squares of the
    numbers the sources started with, each as often as it was there;
    nothing is duplicated, altered or invented.  As long as no token is
    triggered they are exactly those: nothing is lost. *)
Theorem wiring_loses_and_invents_nothing k w0 tr w :
  forallb (wired k) (pool w0) = true ->
  steps w0 tr w ->
  forallb (wired k) (pool w) = true /\
  delivered k tr ++ in_transit k w ⊆+ in_transit k w0 /\
  (untriggered w = true ->
   delivered k tr ++ in_transit k w ≡ₚ in_transit k w0).
Proof.
  intros Hall Hs.
  destruct (steps_conserve k _ _ _ Hall Hs) as (Hw & lost & E & Hu).
  split; [done|]. split.
  - rewrite E, app_assoc. by apply submseteq_inserts_r.
  - intros H. rewrite E, (Hu H). by rewrite app_nil_r.
Qed.

Lemma wiring_loses_and_invents_nothing_witness :
  delivered main_kinds main_first_run.1 ++
    in_transit main_kinds main_first_run.2 ⊆+
  [225; 4; 81; 529; 8281]%Z.
Proof.
  assert (Hall : forallb (wired main_kinds) (pool (run main)) = true)
    by reflexivity.
  exact (proj1 (proj2 (wiring_loses_and_invents_nothing
                         main_kinds _ _ _ Hall main_first_run_steps))).
Defined.

(** ** Fan-out and fan-in, as [main] wires them *)

Lemma powers_spec ctx inp n w :
  powers ctx inp n w =
  (seq (length (chans w)) n,
   World (pool w ++ map (PowRange ctx inp) (seq (length (chans w)) n))
         (chans w ++ replicate n false) (tokens w) (wgs w) (panicked w)).
Proof.
  revert w. induction n as [|n IH]; intros w.
  - destruct w. simpl. unfold ret. simpl. by rewrite !app_nil_r.
  - cbn [powers]. unfold bind at 1. rewrite power_spec. cbv beta iota.
    unfold bind. rewrite IH. unfold ret.
    cbn [pool chans tokens wgs panicked seq map replicate].
    rewrite length_app. simpl length. rewrite Nat.add_1_r.
    by rewrite <- !app_assoc.
Qed.

Lemma fan_run owner workers numbers :
  run (fan owner workers numbers) = fan_start owner workers numbers.
Proof.
  unfold run, fan, bind, with_cancel. cbn [fst snd].
  rewrite generate_spec. cbv beta iota. rewrite powers_spec.
  cbv beta iota. rewrite merge_spec. cbv beta iota.
  unfold go, ret, set_pool. cbn [fst snd].
  cbn [pool chans tokens wgs panicked empty_world set_tokens app length].
  rewrite length_replicate, length_seq.
  unfold fan_start. destruct owner; simpl; rewrite <- ?app_assoc; simpl;
    f_equal; rewrite <- ?app_assoc; try done;
    f_equal; clear; induction workers as [|n IH]; simpl; congruence.
Qed.

Lemma flat_map_nil {A B} (f : A -> list B) (l : list A) :
  (forall a, In a l -> f a = []) -> flat_map f l = [].
Proof.
  induction l as [|a l IH]; intros H; [done|]. simpl.
  rewrite (H a) by (by left). apply IH. intros b Hb. apply H. by right.
Qed.

Lemma fan_kinds_raw workers : fan_kinds workers 0 = Raw.
Proof. reflexivity. Qed.

Lemma fan_kinds_mid workers c :
  In c (seq 1 workers) -> fan_kinds workers c = Mid.
Proof.
  intros H. apply in_seq in H. unfold fan_kinds.
  rewrite decide_False by lia. by rewrite decide_True by lia.
Qed.

Lemma fan_kinds_fin workers c :
  fan_kinds workers c = Fin <-> c = S workers.
Proof.
  unfold fan_kinds. repeat case_decide; split; intros; try done; lia.
Qed.

Lemma fan_wired owner workers numbers :
  forallb (wired (fan_kinds workers))
          (pool (fan_start owner workers numbers)) = true.
Proof.
  unfold fan_start. cbn [pool]. rewrite !forallb_app.
  apply andb_true_iff; split;
    [|apply andb_true_iff; split;
      [|apply andb_true_iff; split; [|apply andb_true_iff; split]]].
  - simpl. by rewrite wired_generate_loop.
  - apply forallb_forall. intros g Hg. apply in_map_iff in Hg as (c & <- & Hc).
    simpl. by rewrite (fan_kinds_mid _ _ Hc).
  - apply forallb_forall. intros g Hg. apply in_map_iff in Hg as (c & <- & Hc).
    simpl. rewrite (fan_kinds_mid _ _ Hc).
    by rewrite (proj2 (fan_kinds_fin workers (S workers)) eq_refl).
  - simpl. by rewrite (proj2 (fan_kinds_fin workers (S workers)) eq_refl).
  - by destruct owner.
Qed.

Lemma fan_in_transit owner workers numbers :
  in_transit (fan_kinds workers) (fan_start owner workers numbers) =
  map square numbers.
Proof.
  unfold in_transit, fan_start. cbn [pool]. rewrite !flat_map_app.
  rewrite (flat_map_nil _ (map (PowRange _ _) _)),
          (flat_map_nil _ (map (fun ch => FwdRange _ ch _ _) _)).
  - cbn [flat_map]. rewrite load_generate_loop.
    assert (flat_map (load (fan_kinds workers))
                     (if owner then [Canceller 0] else []) = []) as ->
      by (by destruct owner).
    simpl. rewrite !app_nil_r.
    induction numbers as [|n numbers IH]; [done|]. simpl. by rewrite IH.
  - intros g Hg. by apply in_map_iff in Hg as (c & <- & _).
  - intros g Hg. by apply in_map_iff in Hg as (c & <- & _).
Qed.

Lemma delivered_sent_on k c0 tr :
  (forall c, k c = Fin <-> c = c0) -> delivered k tr = sent_on c0 tr.
Proof.
  intros Hk. induction tr as [|[c v i j| | | | | | |] tr IH]; simpl; try done.
  rewrite IH. destruct (decide (k c = Fin)) as [E|E].
  - rewrite decide_True by (by apply Hk). done.
  - rewrite decide_False; [done|]. intros ->. by apply E, Hk.
Qed.

Lemma offers_no_cancel g o :
  may_cancel g = false -> In o (offers g) ->
  match o with
  | OSend _ _ g' | ODone _ g' | OClose _ g' | OWgDone _ g' | OWgWait _ g' =>
      may_cancel g' = false
  | ORecv _ kr => forall r, may_cancel (kr r) = false
  | OCancel _ _ => False
  end.
Proof.
  intros Hg Hin.
  destruct g; try discriminate Hg; try destruct vals; try destruct rest;
    simpl in Hin; repeat (destruct Hin as [<-|Hin]); try destruct Hin;
    try done; by intros [].
Qed.

Lemma no_cancel_lookup w i g :
  forallb (fun g => negb (may_cancel g)) (pool w) = true ->
  pool w !! i = Some g -> may_cancel g = false.
Proof.
  intros Hall Hi. rewrite forallb_forall in Hall. apply negb_true_iff, Hall.
  rewrite <- list_elem_of_In. by eapply list_elem_of_lookup_2.
Qed.

Lemma no_cancel_put w i g :
  forallb (fun g => negb (may_cancel g)) (pool w) = true ->
  may_cancel g = false ->
  forallb (fun g => negb (may_cancel g)) (pool (put i g w)) = true.
Proof.
  intros Hall Hg. simpl. revert i.
  induction (pool w) as [|a l IH]; intros [|i]; simpl in *; try done.
  - apply andb_true_iff in Hall as [_ Hl]. by rewrite Hg.
  - apply andb_true_iff in Hall as [-> Hl]. simpl. by apply IH.
Qed.

(** The stages never trigger a token: without a goroutine that holds a
    [cancel] function, the tokens stay as they are. *)
Lemma steps_no_cancel w0 tr w :
  forallb (fun g => negb (may_cancel g)) (pool w0) = true ->
  steps w0 tr w ->
  forallb (fun g => negb (may_cancel g)) (pool w) = true /\
  tokens w = tokens w0.
Proof.
  intros Hall. induction 1 as [|tr w1 ev w2 _ [Hn Ht] Hs]; [done|].
  rewrite <- Ht. clear Ht.
  destruct Hs as [w i j gi gj c v ki kr _ Hi Hoi Hj Hoj Hij _
                 |w i gi c v ki _ Hi Hoi _
                 |w j gj c kr _ Hj Hoj _
                 |w i gi ctx ki _ Hi Hoi _
                 |w i gi c ki _ Hi Hoi _
                 |w i gi c ki _ Hi Hoi _
                 |w i gi wg ki n _ Hi Hoi _ _
                 |w i gi wg ki n _ Hi Hoi _ _
                 |w i gi wg ki _ Hi Hoi _
                 |w i gi tok ki _ Hi Hoi _];
    try (split; [|reflexivity]); try done;
    try pose proof (offers_no_cancel _ _ (no_cancel_lookup _ _ _ Hn Hi) Hoi)
      as Hki;
    try pose proof (offers_no_cancel _ _ (no_cancel_lookup _ _ _ Hn Hj) Hoj)
      as Hkj;
    cbv beta iota in *; try done; try exact Hn.
  - apply no_cancel_put; [by apply no_cancel_put|done].
  - by apply no_cancel_put.
  - by apply no_cancel_put.
  - by apply (no_cancel_put (set_chans _ w)).
  - by apply (no_cancel_put (set_wgs _ w)).
  - by apply no_cancel_put.
Qed.

Lemma fan_no_cancel workers numbers :
  forallb (fun g => negb (may_cancel g))
          (pool (fan_start false workers numbers)) = true.
Proof.
  unfold fan_start. cbn [pool]. rewrite !forallb_app.
  apply andb_true_iff; split;
    [|apply andb_true_iff; split;
      [|apply andb_true_iff; split; [|apply andb_true_iff; split]]];
    try done.
  - simpl. by destruct numbers.
  - apply forallb_forall. intros g Hg.
    by apply in_map_iff in Hg as (c & <- & Hc).
  - apply forallb_forall. intros g Hg.
    by apply in_map_iff in Hg as (c & <- & Hc).
Qed.

(** ** Every wiring comes to an end *)

Lemma fits_generate_loop k ctx out rest :
  fits k (generate_loop ctx out rest) = true.
Proof. by destruct rest. Qed.

Lemma offers_weight k g o :
  fits k g = true -> In o (offers g) ->
  match o with
  | OSend c _ g' => weight g' + gain (k c) < weight g /\ fits k g' = true
  | ORecv c kr =>
      (forall v, weight (kr (Some v)) <= weight g + gain (k c) /\
                 fits k (kr (Some v)) = true) /\
      weight (kr None) < weight g /\ fits k (kr None) = true
  | ODone _ g' | OClose _ g' | OWgDone _ g' | OWgWait _ g' | OCancel _ g' =>
      weight g' < weight g /\ fits k g' = true
  end.
Proof.
  intros Hw Hin.
  destruct g as [ctx out n rest|out|ctx inp out|ctx inp out n|out
                |inp out total|out total|out|ctx ch out wg|ctx ch out wg n
                |wg|wg out|out|tok out i|tok|c vals|c|tok|];
    try destruct vals as [|x vals]; simpl in Hin;
    repeat (destruct Hin as [<-|Hin]); try destruct Hin;
    rewrite ?weight_generate_loop, ?fits_generate_loop;
    unfold main_loop, fits in *;
    try destruct (i + 1 <? 3)%Z eqn:Ei; try apply Z.ltb_lt in Ei;
    cbn [wired unnested] in Hw;
    repeat match type of Hw with
           | context [k ?c] => destruct (k c) eqn:?
           end;
    try discriminate Hw;
    repeat match goal with
           | |- context [k ?c] => destruct (k c) eqn:?
           end;
    cbn [weight wired unnested gain andb length squared_kind consumed_kind];
    repeat split; intros; try done; try lia;
    repeat match goal with
           | H : k ?c = _ |- context [k ?c] => rewrite H
           end;
    done.
Qed.

Lemma fits_lookup k w i g :
  forallb (fits k) (pool w) = true -> pool w !! i = Some g ->
  fits k g = true.
Proof.
  intros Hall Hi. rewrite forallb_forall in Hall. apply Hall.
  rewrite <- list_elem_of_In. by eapply list_elem_of_lookup_2.
Qed.

Lemma fits_put k w i g :
  forallb (fits k) (pool w) = true -> fits k g = true ->
  forallb (fits k) (pool (put i g w)) = true.
Proof.
  intros Hall Hg. simpl. revert i.
  induction (pool w) as [|a l IH]; intros [|i]; simpl in *; try done.
  - apply andb_true_iff in Hall as [_ Hl]. by rewrite Hg.
  - apply andb_true_iff in Hall as [-> Hl]. simpl. by apply IH.
Qed.

(** One step: the goroutines still fit, and the energy goes down, unless
    the step is a panic, which leaves it as it is and ends the run. *)
Lemma step_spends k w ev w' :
  forallb (fits k) (pool w) = true -> step w ev w' ->
  forallb (fits k) (pool w') = true /\
  (panicked w' = false /\ energy w' < energy w \/
   panicked w' = true /\ energy w' = energy w).
Proof.
  intros Hall Hs.
  destruct Hs as [w i j gi gj c v ki kr Hp Hi Hoi Hj Hoj Hij _
                 |w i gi c v ki Hp Hi Hoi _
                 |w j gj c kr Hp Hj Hoj _
                 |w i gi ctx ki Hp Hi Hoi _
                 |w i gi c ki Hp Hi Hoi _
                 |w i gi c ki Hp Hi Hoi _
                 |w i gi wg ki n Hp Hi Hoi _ _
                 |w i gi wg ki n Hp Hi Hoi _ _
                 |w i gi wg ki Hp Hi Hoi _
                 |w i gi tok ki Hp Hi Hoi _];
    try (split; [done|right; by split]);
    try pose proof (offers_weight k _ _ (fits_lookup _ _ _ _ Hall Hi) Hoi)
      as Hki;
    try pose proof (offers_weight k _ _ (fits_lookup _ _ _ _ Hall Hj) Hoj)
      as Hkj;
    cbv beta iota in *.
  - destruct Hki as [Hlt Hfi]. destruct Hkj as (Hv & _).
    destruct (Hv v) as [Hle Hfj].
    split; [by apply fits_put; [apply fits_put|]|]. left. split; [done|].
    assert (Hj' : pool (put i ki w) !! j = Some gj).
    { simpl. by rewrite list_lookup_insert_ne. }
    pose proof (energy_put w i gi ki Hi).
    pose proof (energy_put _ j gj (kr (Some v)) Hj'). lia.
  - destruct Hkj as (_ & Hlt & Hf).
    split; [by apply fits_put|]. left. split; [done|].
    pose proof (energy_put w j gj (kr None) Hj). lia.
  - destruct Hki as [Hlt Hf].
    split; [by apply fits_put|]. left. split; [done|].
    pose proof (energy_put w i gi ki Hi). lia.
  - destruct Hki as [Hlt Hf].
    split; [by apply (fits_put k (set_chans _ w))|]. left. split; [done|].
    pose proof (energy_put (set_chans (<[c := true]> (chans w)) w)
                  i gi ki Hi) as E.
    change (energy (set_chans (<[c := true]> (chans w)) w))
      with (energy w) in E. lia.
  - destruct Hki as [Hlt Hf].
    split; [by apply (fits_put k (set_wgs _ w))|]. left. split; [done|].
    pose proof (energy_put (set_wgs (<[wg := (n - 1)%Z]> (wgs w)) w)
                  i gi ki Hi) as E.
    change (energy (set_wgs (<[wg := (n - 1)%Z]> (wgs w)) w))
      with (energy w) in E. lia.
  - destruct Hki as [Hlt Hf].
    split; [by apply fits_put|]. left. split; [done|].
    pose proof (energy_put w i gi ki Hi). lia.
  - destruct Hki as [Hlt Hf].
    split; [by apply (fits_put k (set_tokens _ w))|]. left. split; [done|].
    pose proof (energy_put (set_tokens (<[tok := true]> (tokens w)) w)
                  i gi ki Hi) as E.
    change (energy (set_tokens (<[tok := true]> (tokens w)) w))
      with (energy w) in E. lia.
Qed.

Lemma steps_spend k w0 tr w :
  forallb (fits k) (pool w0) = true ->
  steps w0 tr w ->
  forallb (fits k) (pool w) = true /\
  length tr + energy w <= energy w0 + (if panicked w then 1 else 0).
Proof.
  intros Hall Hs.
  induction Hs as [|tr w1 ev w2 _ [Hf Hb] Hstep];
    [split; [done|destruct (panicked w0); simpl; lia]|].
  pose proof (step_not_panicked _ _ _ Hstep) as Hp. rewrite Hp in Hb.
  cbv iota in Hb.
  destruct (step_spends k _ _ _ Hf Hstep) as [Hf' [[Hp' Hlt]|[Hp' He]]];
    (split; [done|]); rewrite Hp', length_app; cbn [length]; lia.
Qed.

(** X10.  Any wiring of the stages comes to an end.  When each squaring
    worker reads numbers, each forwarding worker reads results and writes
    to a channel read by a consumer, every run is bounded by the energy
    of the start, which counts eight steps for each number still to be
    emitted and a few for each goroutine; a panic, if any, is the last
    step. *)
Theorem wiring_comes_to_an_end k w0 tr w :
  forallb (fits k) (pool w0) = true ->
  steps w0 tr w ->
  forallb (fits k) (pool w) = true /\
  length tr + energy w <= energy w0 + (if panicked w then 1 else 0) /\
  (panicked w = true -> stuck w).
Proof.
  intros Hall Hs.
  destruct (steps_spend k _ _ _ Hall Hs) as [Hf Hb].
  split; [done|]. split; [done|].
  intros Hp ev w' Hstep.
  pose proof (step_not_panicked _ _ _ Hstep). congruence.
Qed.

Lemma wiring_comes_to_an_end_witness :
  length main_first_run.1 + energy main_first_run.2 <= energy (run main) + 0.
Proof.
  assert (Hall : forallb (fits main_kinds) (pool (run main)) = true)
    by reflexivity.
  exact (proj1 (proj2 (wiring_comes_to_an_end
                         main_kinds _ _ _ Hall main_first_run_steps))).
Defined.

Lemma fan_fits owner workers numbers :
  forallb (fits (fan_kinds workers))
          (pool (fan_start owner workers numbers)) = true.
Proof.
  unfold fan_start. cbn [pool]. rewrite !forallb_app.
  apply andb_true_iff; split;
    [|apply andb_true_iff; split;
      [|apply andb_true_iff; split; [|apply andb_true_iff; split]]].
  - simpl. by rewrite fits_generate_loop.
  - apply forallb_forall. intros g Hg. apply in_map_iff in Hg as (c & <- & Hc).
    unfold fits. simpl. by rewrite (fan_kinds_mid _ _ Hc).
  - apply forallb_forall. intros g Hg. apply in_map_iff in Hg as (c & <- & Hc).
    unfold fits. simpl. rewrite (fan_kinds_mid _ _ Hc).
    by rewrite (proj2 (fan_kinds_fin workers (S workers)) eq_refl).
  - unfold fits. simpl.
    by rewrite (proj2 (fan_kinds_fin workers (S workers)) eq_refl).
  - by destruct owner.
Qed.

Lemma fan_energy owner workers numbers :
  energy (fan_start owner workers numbers) =
  8 * length numbers + 4 * workers + 4 + (if owner then 1 else 0).
Proof.
  unfold energy, fan_start. cbn [pool].
  rewrite !fmap_app, !sum_list_with_app.
  change (sum_list_with id (weight <$> ?l)) with (total weight l).
  rewrite (total_all weight (map (PowRange _ _) _) 2),
          (total_all weight (map (fun ch => FwdRange _ ch _ _) _) 2).
  - rewrite !length_map, !length_seq. unfold total.
    rewrite !fmap_cons. cbn [sum_list_with fmap list_fmap]. unfold id.
    rewrite weight_generate_loop.
    destruct owner; simpl; lia.
  - intros i g Hg. rewrite map_fmap in Hg. apply list_lookup_fmap_Some in Hg.
    by destruct Hg as (c & -> & _).
  - intros i g Hg. rewrite map_fmap in Hg. apply list_lookup_fmap_Some in Hg.
    by destruct Hg as (c & -> & _).
Qed.

(** X11.  Fan-out and fan-in as [main] wires them, over any numbers and
    any number of workers that share the source's channel: whatever the
    schedule, what the consumer has read from the merged channel, with
    what the goroutines still hold or have to emit, is among the squares
    of the numbers, each as often as it is there, so no number is squared
    twice by two workers and none is invented; as long as the token is
    not triggered it is exactly the squares of the numbers, so none is
    lost; without an owner the token is never triggered; and every run
    comes to an end, within eight steps for each number and four for
    each worker, and six more. *)
Theorem fan_squares_each_number_once owner workers numbers tr w :
  steps (run (fan owner workers numbers)) tr w ->
  sent_on (S workers) tr ++ in_transit (fan_kinds workers) w ⊆+
    map square numbers /\
  (untriggered w = true ->
   sent_on (S workers) tr ++ in_transit (fan_kinds workers) w ≡ₚ
     map square numbers) /\
  (owner = false -> untriggered w = true) /\
  length tr <= 8 * length numbers + 4 * workers + 6.
Proof.
  rewrite fan_run. intros Hs.
  destruct (steps_conserve (fan_kinds workers) _ _ _
              (fan_wired owner workers numbers) Hs) as (_ & lost & E & Hu).
  rewrite fan_in_transit in E.
  rewrite (delivered_sent_on _ (S workers)) in E
    by apply fan_kinds_fin.
  split; [|split; [|split]].
  - rewrite E, app_assoc. by apply submseteq_inserts_r.
  - intros H. rewrite E, (Hu H). by rewrite app_nil_r.
  - intros ->.
    destruct (steps_no_cancel _ _ _ (fan_no_cancel workers numbers) Hs)
      as [_ Ht].
    unfold untriggered. by rewrite Ht.
  - destruct (steps_spend _ _ _ _ (fan_fits owner workers numbers) Hs)
      as [_ Hb].
    rewrite fan_energy in Hb.
    destruct owner, (panicked w); simpl in Hb; lia.
Qed.

Lemma fan_squares_each_number_once_witness :
  sent_on 3 fan_first_run.1 ++ in_transit (fan_kinds 2) fan_first_run.2 ≡ₚ
    map square [1; 2; 3]%Z /\
  sent_on 3 fan_first_run.1 = [1; 9; 4]%Z.
Proof.
  assert (Hrun : steps (run (fan false 2 [1; 2; 3]%Z))
                       fan_first_run.1 fan_first_run.2).
  { apply run_sched_steps with (sched := repeat 0 21).
    vm_compute. reflexivity. }
  destruct (fan_squares_each_number_once _ _ _ _ _ Hrun)
    as (_ & Heq & Hu & _).
  split; [exact (Heq (Hu eq_refl))|reflexivity].
Defined.


(** * The square in machine integers *)

Lemma wrap_range z : in_int (wrap z).
Proof.
  unfold in_int, wrap, int_min, int_max, int_bits.
  pose proof (Z.mod_pos_bound (z - - 2 ^ (64 - 1)) (2 ^ 64) ltac:(lia)). lia.
Qed.

Lemma wrap_fixed z : wrap z = z <-> in_int z.
Proof.
  split; [|apply wrap_in_int]. intros <-. apply wrap_range.
Qed.

(** X12.  The [n * n] of the squaring worker is a machine integer: it is
    the square of [n] exactly when [n] lies between -3037000499 and
    3037000499; beyond, the product wraps around and the worker sends
    another value. *)
Theorem square_is_exact_up_to_the_root n :
  in_int (square n) /\
  (square n = (n * n)%Z <-> (-3037000499 <= n <= 3037000499)%Z).
Proof.
  unfold square, int_mul. split; [apply wrap_range|].
  rewrite wrap_fixed. unfold in_int, int_min, int_max, int_bits.
  change (- 2 ^ (64 - 1))%Z with (-9223372036854775808)%Z.
  change (2 ^ (64 - 1) - 1)%Z with 9223372036854775807%Z.
  split; intros H; nia.
Qed.

(** ** The fan never deadlocks *)

Lemma own_role_of workers t c :
  own workers (role_of workers t) = Some c ->
  c = 0 /\ t = 0 \/ 1 <= c <= workers /\ t = c \/
  c = S workers /\ t = 2 * workers + 1.
Proof.
  unfold role_of. repeat case_decide; simpl; intros [= <-]; lia.
Qed.

(** What a goroutine in its role offers, and where each offer leads. *)
Lemma fan_offers workers cs lv tk r g o :
  role_ok workers cs lv tk r g -> In o (offers g) ->
  match o with
  | OSend c _ g' =>
      cs !! c = Some false /\ role_ok workers cs lv tk r g' /\
      is_live g' = is_live g
  | ORecv c kr =>
      (forall v, role_ok workers cs lv tk r (kr (Some v)) /\
                 is_live (kr (Some v)) = is_live g) /\
      (cs !! c = Some true -> role_ok workers cs lv tk r (kr None)) /\
      is_live (kr None) = is_live g
  | ODone ctx g' =>
      ctx = WithCancel 0 /\ (tk = true -> role_ok workers cs lv tk r g') /\
      is_live g' = is_live g
  | OClose c g' =>
      cs !! c = Some false /\ own workers r = Some c /\
      role_ok workers (<[c := true]> cs) lv tk r g' /\
      is_live g = 0 /\ is_live g' = 0 /\ (r = RCloser -> lv = 0)
  | OWgDone wg g' =>
      wg = 0 /\ is_live g = 1 /\ is_live g' = 0 /\
      forall lv', role_ok workers cs lv' tk r g'
  | OWgWait wg g' =>
      wg = 0 /\ is_live g = 0 /\ is_live g' = 0 /\
      (lv = 0 -> role_ok workers cs lv tk r g')
  | OCancel tok g' =>
      tok = 0 /\ r = ROwner /\ is_live g = 0 /\ is_live g' = 0 /\
      forall cs' lv', role_ok workers cs' lv' true r g'
  end.
Proof.
  intros Hok Hin.
  destruct r, g; simpl in Hok; try (exfalso; exact Hok); destruct_and?; subst;
    try destruct rest; try destruct vals;
    simpl in Hin; repeat (destruct Hin as [<-|Hin]); try destruct Hin;
    simpl; repeat split; intros; subst; auto; try done;
    try (apply list_lookup_insert_eq; by eapply lookup_lt_Some);
    try (by apply closed_insert);
    try (match goal with
         | H : _ \/ _ |- _ => destruct H as [H|H]; [left|right]; auto
         end; by apply closed_insert).
Qed.

Lemma role_frame workers cs cs' lv lv' tk tk' r g c :
  role_ok workers cs lv tk r g ->
  (forall x, cs !! x = Some true -> cs' !! x = Some true) ->
  (forall x, cs !! x = Some false -> x <> c -> cs' !! x = Some false) ->
  own workers r <> Some c ->
  (c = S workers -> is_live g = 0) ->
  lv' <= lv -> (tk = true -> tk' = true) -> (r = ROwner -> tk' = tk) ->
  role_ok workers cs' lv' tk' r g.
Proof.
  intros Hok Hclosed Hopen Hown Hout Hlv Htk Hmine.
  assert (Hor : forall x, cs !! x = Some true \/ tk = true ->
                          cs' !! x = Some true \/ tk' = true)
    by (intros x [H|H]; auto).
  destruct r, g; simpl in *; try done; destruct_and?; subst;
    repeat split; auto; try lia;
    try (apply Hopen; [done|]; intros ->; by apply Hown);
    try (apply Hopen; [done|]; intros E; by specialize (Hout (eq_sym E)));
    try (rewrite Hmine by done; done).
Qed.

Lemma role_mono workers cs lv lv' tk tk' r g :
  role_ok workers cs lv tk r g ->
  lv' <= lv -> (tk = true -> tk' = true) -> (r = ROwner -> tk' = tk) ->
  role_ok workers cs lv' tk' r g.
Proof.
  intros Hok Hlv Htk Hmine.
  assert (Hor : forall x, cs !! x = Some true \/ tk = true ->
                          cs !! x = Some true \/ tk' = true)
    by (intros x [H|H]; auto).
  destruct r, g; simpl in *; try done; destruct_and?; subst;
    repeat split; auto; try lia;
    try (rewrite Hmine by done; done).
Qed.

Lemma live_some w t g :
  pool w !! t = Some g -> is_live g = 1 -> 0 < live (pool w).
Proof.
  intros Ht Hg. destruct (live (pool w)) eqn:E; [|lia].
  pose proof (total_zero is_live _ _ _ E Ht). lia.
Qed.

Lemma live_none w t g :
  pool w !! t = Some g -> live (pool w) = 0 -> is_live g = 0.
Proof. intros Ht E. exact (total_zero is_live _ _ _ E Ht). Qed.

Lemma fan_roles_step owner workers tk w ev w' :
  fan_roles owner workers tk w -> step w ev w' ->
  exists tk', fan_roles owner workers tk' w' /\ (tk = true -> tk' = true).
Proof.
  intros [Hp Htk Hown Hwg Hcs Hpl Hth] Hs.
  destruct Hs as
      [w i j gi gj c v k kr _ Hi Ho Hj Hr Hne Hc
      |w i gi c v k _ Hi Ho Hc
      |w i gi c kr _ Hi Ho Hc
      |w i gi ctx k _ Hi Ho Hd
      |w i gi c k _ Hi Ho Hc
      |w i gi c k _ Hi Ho Hc
      |w i gi wg k n _ Hi Ho Hw Hn
      |w i gi wg k n _ Hi Ho Hw Hn
      |w i gi wg k _ Hi Ho Hw
      |w i gi tok k _ Hi Ho Ht'];
    pose proof (fan_offers _ _ _ _ _ _ _ (Hth _ _ Hi) Ho) as Hfi;
    cbv beta iota in Hfi.
  - (* a value changes hands *)
    destruct Hfi as (_ & Hoki & Hli).
    pose proof (fan_offers _ _ _ _ _ _ _ (Hth _ _ Hj) Hr) as (Hv & _).
    destruct (Hv v) as [Hokj Hlj].
    assert (Hj' : pool (put i k w) !! j = Some gj)
      by (rewrite put_lookup_ne by done; done).
    pose proof (live_put _ _ _ k Hi) as L1.
    pose proof (live_put _ _ _ (kr (Some v)) Hj') as L2.
    assert (live (pool (put j (kr (Some v)) (put i k w))) = live (pool w))
      as HL by lia.
    exists tk. split; [|done]. split; try done.
    + rewrite HL. exact Hwg.
    + unfold put. simpl. by rewrite !length_insert.
    + intros t g Ht. rewrite HL.
      apply put2_lookup in Ht as [[<- ->]|[(_ & <- & ->)|(_ & _ & Ht)]];
        auto.
  - (* no send on a closed channel *)
    destruct Hfi as (Hopen & _). clash.
  - (* a receiver finds its channel closed *)
    destruct Hfi as (_ & Hn & Hl).
    pose proof (live_put _ _ _ (kr None) Hi) as L1.
    assert (live (pool (put i (kr None) w)) = live (pool w)) as HL by lia.
    exists tk. split; [|done]. split; try done.
    + rewrite HL. exact Hwg.
    + unfold put. simpl. by rewrite length_insert.
    + intros t g Ht. rewrite HL.
      apply put1_lookup in Ht as [[<- ->]|[_ Ht]]; auto.
  - (* a cancellation case is taken *)
    destruct Hfi as (-> & Hok & Hl).
    assert (tk = true) as ->.
    { unfold ctx_done in Hd. rewrite Htk in Hd. exact Hd. }
    pose proof (live_put _ _ _ k Hi) as L1.
    assert (live (pool (put i k w)) = live (pool w)) as HL by lia.
    exists true. split; [|done]. split; try done.
    + rewrite HL. exact Hwg.
    + unfold put. simpl. by rewrite length_insert.
    + intros t g Ht. rewrite HL.
      apply put1_lookup in Ht as [[<- ->]|[_ Ht]]; auto.
  - (* a channel is closed by the role that owns it *)
    destruct Hfi as (_ & Hmine & Hok & Hl & Hl' & Hz).
    pose proof (live_put_chans w (<[c := true]> (chans w)) _ _ k Hi) as L1.
    assert (live (pool (put i k (set_chans (<[c := true]> (chans w)) w)))
            = live (pool w)) as HL by lia.
    exists tk. split; [|done]. split; try done.
    + rewrite HL. exact Hwg.
    + simpl. by rewrite length_insert.
    + unfold put. simpl. by rewrite length_insert.
    + intros t g Ht. rewrite HL.
      apply put1_lookup in Ht as [[<- ->]|[Hti Ht]]; [exact Hok|].
      apply (role_frame workers (chans w) _ _ _ tk tk _ _ c (Hth _ _ Ht));
        try done.
      * intros x Hx. simpl. by apply closed_insert.
      * intros x Hx Hxc. simpl. by rewrite list_lookup_insert_ne.
      * intros Ht'. apply own_role_of in Ht'. apply own_role_of in Hmine.
        lia.
      * intros ->. apply (live_none _ _ _ Ht). apply Hz.
        apply own_role_of in Hmine. unfold role_of.
        repeat case_decide; try lia; done.
  - (* no channel is closed twice *)
    destruct Hfi as (Hopen & _). clash.
  - (* a forwarding worker calls wg.Done() *)
    destruct Hfi as (-> & Hl & Hl' & Hok).
    pose proof (live_put_wgs w (<[0 := (n - 1)%Z]> (wgs w)) _ _ k Hi) as L1.
    rewrite Hwg in Hw. injection Hw as <-.
    exists tk. split; [|done]. split; try done.
    + simpl. rewrite Hwg. simpl. f_equal. unfold live, put in *. simpl in *.
      lia.
    + unfold put. simpl. by rewrite length_insert.
    + intros t g Ht.
      apply put1_lookup in Ht as [[<- ->]|[_ Ht]]; [apply Hok|].
      apply (role_mono _ _ _ _ tk tk _ _ (Hth _ _ Ht)); try done.
      unfold live, put in *. simpl in *. lia.
  - (* the counter never goes below zero *)
    exfalso. destruct Hfi as (-> & Hl & _).
    rewrite Hwg in Hw. injection Hw as <-.
    pose proof (live_some _ _ _ Hi Hl). lia.
  - (* wg.Wait() returns *)
    destruct Hfi as (-> & Hl & Hl' & Hok).
    rewrite Hwg in Hw. injection Hw as Hz.
    pose proof (live_put _ _ _ k Hi) as L1.
    assert (live (pool (put i k w)) = live (pool w)) as HL by lia.
    exists tk. split; [|done]. split; try done.
    + rewrite HL. exact Hwg.
    + unfold put. simpl. by rewrite length_insert.
    + intros t g Ht. rewrite HL.
      apply put1_lookup in Ht as [[<- ->]|[_ Ht]]; [apply Hok; lia|auto].
  - (* the owner triggers the token *)
    destruct Hfi as (-> & Hrole & Hl & Hl' & Hok).
    pose proof (live_put_tokens w (<[0 := true]> (tokens w)) _ _ k Hi)
      as L1.
    assert (live (pool (put i k (set_tokens (<[0 := true]> (tokens w)) w)))
            = live (pool w)) as HL by lia.
    assert (Hlast : forall t, t < length (pool w) ->
                              role_of workers t = ROwner ->
                              t = 2 * workers + 3 /\ owner = true).
    { intros t Hlt. unfold role_of. repeat case_decide; try done.
      destruct owner; simpl in Hpl; intros _; lia. }
    destruct (Hlast i (lookup_lt_Some _ _ _ Hi) Hrole) as [-> ->].
    exists true. split; [|done]. split; try done.
    + simpl. by rewrite Htk.
    + rewrite HL. exact Hwg.
    + unfold put. simpl. by rewrite length_insert.
    + intros t g Ht. rewrite HL.
      apply put1_lookup in Ht as [[<- ->]|[Hti Ht]]; [apply Hok|].
      apply (role_mono _ _ _ _ tk true _ _ (Hth _ _ Ht)); try done.
      intros Hr'.
      destruct (Hlast t (lookup_lt_Some _ _ _ Ht) Hr') as [-> _]. done.
Qed.

(** ** The start of the fan *)

Lemma fan_start_lookup owner workers numbers t g :
  pool (fan_start owner workers numbers) !! t = Some g ->
  t = 0 /\ g = generate_loop (WithCancel 0) 0 numbers \/
  1 <= t <= workers /\ g = PowRange (WithCancel 0) 0 t \/
  (exists c, 1 <= c <= workers /\ t = workers + c /\
             g = FwdRange (WithCancel 0) c (S workers) 0) \/
  t = 2 * workers + 1 /\ g = MergeWait 0 (S workers) \/
  t = 2 * workers + 2 /\ g = Drain (S workers) \/
  t = 2 * workers + 3 /\ g = Canceller 0 /\ owner = true.
Proof.
  intros H. unfold fan_start in H. cbn [pool] in H.
  destruct t as [|t]; [left; simpl in H; by injection H as <-|].
  right. simpl in H.
  apply lookup_app_Some in H as [H|[Hge H]].
  { left. rewrite map_fmap, list_lookup_fmap in H.
    apply fmap_Some in H as (c & E & ->).
    apply lookup_seq in E as [-> Hlt]. split; [lia|done]. }
  rewrite length_map, length_seq in Hge, H. right.
  apply lookup_app_Some in H as [H|[Hge2 H]].
  { left. rewrite map_fmap, list_lookup_fmap in H.
    apply fmap_Some in H as (c & E & ->).
    apply lookup_seq in E as [-> Hlt]. exists (1 + (t - workers)).
    split; [lia|]. split; [lia|done]. }
  rewrite length_map, length_seq in Hge2, H. right.
  destruct (t - workers - workers) as [|[|[|k]]] eqn:E; simpl in H.
  - left. injection H as <-. split; [lia|done].
  - right. left. injection H as <-. split; [lia|done].
  - right. right. destruct owner; [|discriminate].
    injection H as <-. split; [lia|done].
  - destruct owner; discriminate.
Qed.

Lemma fan_start_live owner workers numbers :
  live (pool (fan_start owner workers numbers)) = workers.
Proof.
  unfold fan_start, live. cbn [pool]. rewrite !total_app.
  rewrite (total_all is_live (map (PowRange _ _) _) 0).
  2: { intros i g H. rewrite map_fmap, list_lookup_fmap in H.
       by apply fmap_Some in H as (c & _ & ->). }
  rewrite (total_all is_live (map (fun ch => FwdRange _ ch _ _) _) 1).
  2: { intros i g H. rewrite map_fmap, list_lookup_fmap in H.
       by apply fmap_Some in H as (c & _ & ->). }
  rewrite !length_map, !length_seq.
  assert (total is_live [generate_loop (WithCancel 0) 0 numbers] = 0) as ->
    by (by destruct numbers).
  assert (total is_live [MergeWait 0 (S workers); Drain (S workers)] = 0)
    as -> by reflexivity.
  assert (total is_live (if owner then [Canceller 0] else []) = 0) as ->
    by (by destruct owner).
  lia.
Qed.

Lemma fan_roles_init owner workers numbers :
  fan_roles owner workers false (fan_start owner workers numbers).
Proof.
  split.
  - reflexivity.
  - reflexivity.
  - done.
  - rewrite fan_start_live. reflexivity.
  - unfold fan_start. cbn [chans]. by rewrite length_replicate.
  - unfold fan_start. cbn [pool].
    rewrite !length_app, !length_map, !length_seq.
    destruct owner; simpl; lia.
  - intros t g Ht.
    assert (Hopen : forall c, c <= S workers ->
               chans (fan_start owner workers numbers) !! c = Some false).
    { intros c Hc. unfold fan_start. cbn [chans].
      apply lookup_replicate. split; [done|lia]. }
    set (cs := chans (fan_start owner workers numbers)) in *.
    set (lv := live (pool (fan_start owner workers numbers))).
    clearbody cs lv.
    apply fan_start_lookup in Ht
      as [[-> ->]|[[Hc ->]|[(c & Hc & -> & ->)|[[-> ->]|[[-> ->]
         |(-> & -> & ->)]]]]];
      unfold role_of; repeat case_decide; try lia; simpl.
    + destruct numbers; simpl; repeat split; try done; apply Hopen; lia.
    + repeat split; try done. apply Hopen; lia.
    + repeat split; try done; [f_equal; lia|apply Hopen; lia].
    + repeat split; try done. apply Hopen; lia.
    + done.
    + done.
Qed.

Lemma fan_roles_steps owner workers numbers tr w :
  steps (fan_start owner workers numbers) tr w ->
  exists tk, fan_roles owner workers tk w.
Proof.
  induction 1 as [|tr w1 ev w2 _ [tk IH] Hs].
  - exists false. apply fan_roles_init.
  - destruct (fan_roles_step _ _ _ _ _ _ IH Hs) as (tk' & H & _).
    by exists tk'.
Qed.

(** ** What a world that cannot move excludes *)

Lemma stuck_no_close w i g c k b :
  panicked w = false -> stuck w ->
  pool w !! i = Some g -> In (OClose c k) (offers g) ->
  chans w !! c = Some b -> False.
Proof.
  intros Hp Hst Hi Ho Hc. destruct b.
  - exact (Hst _ _ (step_close_closed w i g c k Hp Hi Ho Hc)).
  - exact (Hst _ _ (step_close w i g c k Hp Hi Ho Hc)).
Qed.

Lemma stuck_no_send w i j gi gj c v k kr b :
  panicked w = false -> stuck w ->
  pool w !! i = Some gi -> In (OSend c v k) (offers gi) ->
  pool w !! j = Some gj -> In (ORecv c kr) (offers gj) ->
  i <> j -> chans w !! c = Some b -> False.
Proof.
  intros Hp Hst Hi Ho Hj Hr Hne Hc. destruct b.
  - exact (Hst _ _ (step_send_closed w i gi c v k Hp Hi Ho Hc)).
  - exact (Hst _ _ (step_send w i j gi gj c v k kr Hp Hi Ho Hj Hr Hne Hc)).
Qed.

Lemma stuck_no_recv_closed w j gj c kr :
  panicked w = false -> stuck w ->
  pool w !! j = Some gj -> In (ORecv c kr) (offers gj) ->
  chans w !! c = Some true -> False.
Proof.
  intros Hp Hst Hj Hr Hc.
  exact (Hst _ _ (step_recv_closed w j gj c kr Hp Hj Hr Hc)).
Qed.

Lemma stuck_no_done w i g ctx k :
  panicked w = false -> stuck w ->
  pool w !! i = Some g -> In (ODone ctx k) (offers g) ->
  ctx_done w ctx = true -> False.
Proof.
  intros Hp Hst Hi Ho Hd.
  exact (Hst _ _ (step_done w i g ctx k Hp Hi Ho Hd)).
Qed.

Lemma stuck_no_wg_done w i g wg k n :
  panicked w = false -> stuck w ->
  pool w !! i = Some g -> In (OWgDone wg k) (offers g) ->
  wgs w !! wg = Some n -> False.
Proof.
  intros Hp Hst Hi Ho Hw. destruct (decide (0 < n)%Z) as [Hn|Hn].
  - exact (Hst _ _ (step_wg_done w i g wg k n Hp Hi Ho Hw Hn)).
  - assert (n <= 0)%Z as Hn' by lia.
    exact (Hst _ _ (step_wg_negative w i g wg k n Hp Hi Ho Hw Hn')).
Qed.

Lemma stuck_no_wait w i g wg k :
  panicked w = false -> stuck w ->
  pool w !! i = Some g -> In (OWgWait wg k) (offers g) ->
  wgs w !! wg = Some 0%Z -> False.
Proof.
  intros Hp Hst Hi Ho Hw.
  exact (Hst _ _ (step_wg_wait w i g wg k Hp Hi Ho Hw)).
Qed.

Lemma stuck_no_cancel w i g tok k :
  panicked w = false -> stuck w ->
  pool w !! i = Some g -> In (OCancel tok k) (offers g) ->
  tok < length (tokens w) -> False.
Proof.
  intros Hp Hst Hi Ho Ht.
  exact (Hst _ _ (step_cancel w i g tok k Hp Hi Ho Ht)).
Qed.

Lemma role_of_spec workers t :
  match role_of workers t with
  | RGen => t = 0
  | RPow c => c = t /\ 1 <= t <= workers
  | RFwd c => t = workers + c /\ 1 <= c <= workers
  | RCloser => t = 2 * workers + 1
  | RDrain => t = 2 * workers + 2
  | ROwner => 2 * workers + 3 <= t
  end.
Proof. unfold role_of. repeat case_decide; lia. Qed.

Lemma role_of_pow workers c :
  1 <= c <= workers -> role_of workers c = RPow c.
Proof. intros H. unfold role_of. repeat case_decide; try lia; done. Qed.

Lemma role_of_fwd workers c :
  1 <= c <= workers -> role_of workers (workers + c) = RFwd c.
Proof.
  intros H. unfold role_of. repeat case_decide; try lia. f_equal. lia.
Qed.

Lemma role_of_closer workers : role_of workers (2 * workers + 1) = RCloser.
Proof. unfold role_of. repeat case_decide; try lia; done. Qed.

Lemma role_of_drain workers : role_of workers (2 * workers + 2) = RDrain.
Proof. unfold role_of. repeat case_decide; try lia; done. Qed.

(** ** A fan that cannot move has finished *)

Lemma fan_stuck_exited owner workers tk w :
  0 < workers -> fan_roles owner workers tk w -> stuck w ->
  (forall t g, pool w !! t = Some g -> g = Exited) /\
  (forall c, c <= S workers -> chans w !! c = Some true).
Proof.
  intros HW [Hp Htk Hown Hwg Hcs Hpl Hth] Hst.
  assert (Hget : forall t, t < 2 * workers + 3 ->
                           exists g, pool w !! t = Some g).
  { intros t Ht. apply lookup_lt_is_Some. lia. }
  assert (Hdone : tk = true -> ctx_done w (WithCancel 0) = true).
  { intros ->. unfold ctx_done. by rewrite Htk. }
  assert (Hwg0 : wgs w !! 0 = Some (Z.of_nat (live (pool w))))
    by (by rewrite Hwg).
  destruct (Hget 0) as [g0 Hg0]; [lia|].
  pose proof (Hth _ _ Hg0) as Hok0.
  change (role_of workers 0) with RGen in Hok0.
  destruct (Hget (2 * workers + 1)) as [gc Hgc]; [lia|].
  pose proof (Hth _ _ Hgc) as Hokc. rewrite role_of_closer in Hokc.
  destruct (Hget (2 * workers + 2)) as [gd Hgd]; [lia|].
  pose proof (Hth _ _ Hgd) as Hokd. rewrite role_of_drain in Hokd.
  (* a worker at its range can take a number or find the channel closed *)
  assert (Hpow_range : forall c,
             1 <= c <= workers ->
             pool w !! c = Some (PowRange (WithCancel 0) 0 c) -> False).
  { intros c Hc Hpc.
    destruct g0; simpl in Hok0; try done; destruct_and?; subst.
    - eapply (stuck_no_send w 0 c _ _ 0); eauto; [by left|by left|lia].
    - eapply (stuck_no_close w 0 _ 0); eauto. by left.
    - eapply (stuck_no_recv_closed w c _ 0); eauto. by left. }
  (* the closing goroutine has closed the merged channel *)
  assert (Hclosed : chans w !! S workers = Some true /\ live (pool w) = 0).
  { destruct gc; simpl in Hokc; try done; destruct_and?; subst.
    - exfalso. destruct (decide (live (pool w) = 0)) as [Hz|Hnz].
      { eapply (stuck_no_wait w (2 * workers + 1) _ 0); eauto;
          [by left|by rewrite Hwg, Hz]. }
      destruct (total_pos is_live (pool w)) as (t & g & Ht & Hg);
        [unfold live in Hnz; lia|].
      pose proof (Hth _ _ Ht) as Hokt.
      pose proof (role_of_spec workers t) as Hrt.
      destruct (role_of workers t) as [|c|c| | |] eqn:Er, g;
        simpl in Hokt; try done; simpl in Hg; try lia;
        destruct_and?; subst.
      + (* at its range *)
        destruct (Hget c) as [gp Hgp]; [lia|].
        pose proof (Hth _ _ Hgp) as Hokp.
        rewrite role_of_pow in Hokp by lia.
        destruct gp; simpl in Hokp; try done; destruct_and?; subst.
        * by eapply Hpow_range.
        * eapply (stuck_no_send w c (workers + c) _ _ c); eauto;
            [by left|by left|lia].
        * eapply (stuck_no_close w c _ c); eauto. by left.
        * eapply (stuck_no_recv_closed w (workers + c) _ c); eauto.
          by left.
      + (* at its select *)
        destruct gd; simpl in Hokd; try done; subst.
        * eapply (stuck_no_send w (workers + c) (2 * workers + 2)
                    _ _ (S workers)); eauto; [by left|by left|lia].
        * clash.
      + (* at its deferred wg.Done() *)
        eapply (stuck_no_wg_done w (workers + c) _ 0); eauto. by left.
    - exfalso. eapply (stuck_no_close w (2 * workers + 1) _ (S workers));
        eauto. by left. }
  destruct Hclosed as [Hout Hlv].
  assert (Hfwd : forall c,
             1 <= c <= workers ->
             pool w !! (workers + c) = Some Exited /\
             (chans w !! c = Some true \/ tk = true)).
  { intros c Hc. destruct (Hget (workers + c)) as [g Hg]; [lia|].
    pose proof (Hth _ _ Hg) as Hok. rewrite role_of_fwd in Hok by lia.
    pose proof (live_none _ _ _ Hg Hlv) as Hl.
    destruct g; simpl in Hok; try done; simpl in Hl; lia. }
  assert (Hpow : forall c,
             1 <= c <= workers ->
             pool w !! c = Some Exited /\ chans w !! c = Some true /\
             (chans w !! 0 = Some true \/ tk = true)).
  { intros c Hc. destruct (Hget c) as [g Hg]; [lia|].
    pose proof (Hth _ _ Hg) as Hok. rewrite role_of_pow in Hok by lia.
    destruct g; simpl in Hok; try done; destruct_and?; subst.
    - exfalso. eapply (Hpow_range c); [lia|done].
    - exfalso. destruct (Hfwd c) as [_ [Hcl|Ht]]; [lia|clash|].
      eapply (stuck_no_done w c); eauto. by right; left.
    - exfalso. eapply (stuck_no_close w c _ c); eauto. by left. }
  assert (Hgen : g0 = Exited /\ chans w !! 0 = Some true).
  { destruct g0; simpl in Hok0; try done; destruct_and?; subst.
    - exfalso. destruct (Hpow 1) as (_ & _ & [Hcl|Ht]); [lia|clash|].
      eapply (stuck_no_done w 0); eauto. by right; left.
    - exfalso. eapply (stuck_no_close w 0 _ 0); eauto. by left. }
  split.
  - intros t g Ht. pose proof (Hth _ _ Ht) as Hok.
    pose proof (role_of_spec workers t) as Hrt.
    destruct (role_of workers t) as [|c|c| | |] eqn:Er.
    + subst t. rewrite Hg0 in Ht. injection Ht as <-. apply Hgen.
    + destruct Hrt as [-> Hc]. destruct (Hpow t Hc) as [E _]. congruence.
    + destruct Hrt as [-> Hc]. destruct (Hfwd c Hc) as [E _]. congruence.
    + subst t. rewrite Hgc in Ht. injection Ht as <-.
      destruct gc; simpl in Hokc; try done; destruct_and?; clash.
    + subst t. rewrite Hgd in Ht. injection Ht as <-.
      destruct gd; simpl in Hokd; try done. exfalso. subst.
      eapply (stuck_no_recv_closed w (2 * workers + 2) _ (S workers));
        eauto. by left.
    + destruct g; simpl in Hok; try done. destruct_and?; subst. exfalso.
      eapply (stuck_no_cancel w t _ 0); eauto; [by left|].
      rewrite Htk. simpl. lia.
  - intros c Hc. destruct (decide (c = 0)) as [->|]; [apply Hgen|].
    destruct (decide (c = S workers)) as [->|]; [done|].
    apply (Hpow c). lia.
Qed.

Lemma in_transit_exited k w :
  (forall t g, pool w !! t = Some g -> g = Exited) -> in_transit k w = [].
Proof.
  intros H. unfold in_transit. apply flat_map_nil. intros g Hg.
  apply list_elem_of_In, list_elem_of_lookup_1 in Hg as [t Ht].
  by rewrite (H _ _ Ht).
Qed.

(** X13.  With at least one worker the fan never deadlocks and leaks no
    goroutine: for any numbers, any number of workers and any schedule,
    nothing panics, and a run that cannot go on has every goroutine
    returned and every channel closed; what the consumer has read is
    then among the squares of the numbers, each as often as it is there,
    and without an owner it is exactly the squares of all the numbers, in
    some order. *)
Theorem fan_finishes_and_delivers owner workers numbers tr w :
  0 < workers ->
  steps (run (fan owner workers numbers)) tr w ->
  panicked w = false /\
  (stuck w ->
   all_exited w = true /\
   (forall c, c <= S workers -> is_closed w c = true) /\
   sent_on (S workers) tr ⊆+ map square numbers /\
   (owner = false -> sent_on (S workers) tr ≡ₚ map square numbers)).
Proof.
  intros HW. rewrite fan_run. intros Hs.
  destruct (fan_roles_steps _ _ _ _ _ Hs) as [tk Hr].
  split; [by destruct Hr|]. intros Hst.
  destruct (fan_stuck_exited _ _ _ _ HW Hr Hst) as [Hex Hcl].
  destruct (steps_conserve (fan_kinds workers) _ _ _
              (fan_wired owner workers numbers) Hs) as (_ & lost & E & Hu).
  rewrite fan_in_transit, (in_transit_exited _ _ Hex) in E.
  rewrite (delivered_sent_on _ (S workers)) in E by apply fan_kinds_fin.
  simpl in E.
  split; [|split; [|split]].
  - unfold all_exited. apply forallb_forall. intros g Hg.
    apply list_elem_of_In, list_elem_of_lookup_1 in Hg as [t Ht].
    apply bool_decide_eq_true. by eapply Hex.
  - intros c Hc. exact (f_equal (default false) (Hcl c Hc)).
  - rewrite E. by apply submseteq_inserts_r.
  - intros ->.
    destruct (steps_no_cancel _ _ _ (fan_no_cancel workers numbers) Hs)
      as [_ Ht].
    rewrite E, Hu; [by rewrite app_nil_r|].
    unfold untriggered. by rewrite Ht.
Qed.

Lemma fan_finishes_and_delivers_witness :
  stuck fan_first_run.2 /\
  all_exited fan_first_run.2 = true /\
  sent_on 3 fan_first_run.1 ≡ₚ map square [1; 2; 3]%Z.
Proof.
  assert (Hrun : steps (run (fan false 2 [1; 2; 3]%Z))
                       fan_first_run.1 fan_first_run.2).
  { apply run_sched_steps with (sched := repeat 0 21).
    vm_compute. reflexivity. }
  assert (Hst : stuck fan_first_run.2).
  { apply stuck_successors. vm_compute. reflexivity. }
  destruct (fan_finishes_and_delivers false 2 _ _ _ ltac:(lia) Hrun)
    as [_ Hend].
  destruct (Hend Hst) as (Hall & _ & _ & Hperm).
  split; [exact Hst|]. split; [exact Hall|exact (Hperm eq_refl)].
Defined.

(** X14.  Without any worker nobody reads the source's channel: with no
    owner to trigger the token, the merge closes its channel at once, the
    consumer returns, and the run cannot go on while the source still
    waits to send its first number; the goroutine never returns and its
    channel is never closed. *)
Theorem fan_without_workers_leaks_the_source n rest :
  steps (run (fan false 0 (n :: rest)))
        [EvWgWait 0 1; EvClose 1 1; EvRecvClosed 1 2] (fan_leak n rest) /\
  stuck (fan_leak n rest) /\
  pool (fan_leak n rest) !! 0 = Some (GenSelect (WithCancel 0) 0 n rest) /\
  is_closed (fan_leak n rest) 0 = false.
Proof.
  split; [|split; [|done]].
  - apply run_sched_steps with (sched := [0; 0; 0]). reflexivity.
  - apply stuck_successors. reflexivity.
Qed.
